(** * core-js-101, 06-objects-tasks.js: the CSS selector builder, the
      rectangle constructor and the JSON helpers.

    The JavaScript of [src/06-objects-tasks.js] is embedded as Rocq
    functions.  Objects that the code mutates in place are threaded as
    explicit state: a [CssSelector] instance through the monad [M], the
    [res] array of the [cssSelectorBuilder] facade through the monad [B],
    and the object heap of the rectangle/JSON part through the monad [H].
    A JavaScript [throw new Error(msg)] is the completion [Throw msg].

    Values passed to the selector methods are strings, as the public
    interface has them; JavaScript numbers are IEEE 754 doubles. *)

From Stdlib Require Import String Ascii List ZArith Lia Bool.
From Stdlib Require Decimal DecimalString DecimalPos DecimalFacts.
From Equations Require Import Equations.
Import ListNotations.

#[local] Open Scope string_scope.
#[local] Open Scope Z_scope.

(** ** JavaScript preliminaries *)

(** A selector part that holds [null] or a string. *)
Definition nullable := option string.

(** Truthiness, as tested by [if (x)]: [null] and [''] are falsy, every
    other string is truthy. *)
Definition truthy (x : nullable) : bool :=
  match x with
  | None => false
  | Some s => negb (s =? "")%string
  end.

(** String coercion, as performed by [+=] and by template literals. *)
Definition ToString (x : nullable) : string :=
  match x with
  | None => "null"
  | Some s => s
  end.

(** [Array.prototype.push]: append at the end. *)
Definition push {A : Type} (a : list A) (x : A) : list A := a ++ [x].

(** How a statement sequence completes: normally with a value, or abruptly
    with a thrown [Error], identified by its message. *)
Inductive completion (A : Type) : Type :=
| Normal (a : A)
| Throw (message : string).
Arguments Normal {A} a.
Arguments Throw {A} message.

(** ** The six kinds of selector part (the keys of [config]) *)

Inductive key : Type :=
| Kelement | Kid | Kclass | Kattr | KpseudoClass | KpseudoElement.

Definition key_eqb (a b : key) : bool :=
  match a, b with
  | Kelement, Kelement | Kid, Kid | Kclass, Kclass | Kattr, Kattr
  | KpseudoClass, KpseudoClass | KpseudoElement, KpseudoElement => true
  | _, _ => false
  end.

(** ['class', 'attr', 'pseudoClass'].includes(key) *)
Definition is_array_key (k : key) : bool :=
  match k with
  | Kclass | Kattr | KpseudoClass => true
  | _ => false
  end.

(** The [order] constant of each part method. *)
Definition order_of (k : key) : Z :=
  match k with
  | Kelement => 0
  | Kid => 1
  | Kclass => 2
  | Kattr => 3
  | KpseudoClass => 4
  | KpseudoElement => 5
  end.

(** ** [this.config] *)

Module Config.

Record t : Type := mk {
  element : nullable;
  id : nullable;
  class : list string;
  attr : list string;
  pseudoClass : list string;
  pseudoElement : nullable
}.

(** The object literal of the constructor. *)
Definition initial : t :=
  {| element := None; id := None; class := []; attr := [];
     pseudoClass := []; pseudoElement := None |}.

Definition set_element (v : nullable) (c : t) : t :=
  {| element := v; id := id c; class := class c; attr := attr c;
     pseudoClass := pseudoClass c; pseudoElement := pseudoElement c |}.

Definition set_id (v : nullable) (c : t) : t :=
  {| element := element c; id := v; class := class c; attr := attr c;
     pseudoClass := pseudoClass c; pseudoElement := pseudoElement c |}.

Definition set_class (v : list string) (c : t) : t :=
  {| element := element c; id := id c; class := v; attr := attr c;
     pseudoClass := pseudoClass c; pseudoElement := pseudoElement c |}.

Definition set_attr (v : list string) (c : t) : t :=
  {| element := element c; id := id c; class := class c; attr := v;
     pseudoClass := pseudoClass c; pseudoElement := pseudoElement c |}.

Definition set_pseudoClass (v : list string) (c : t) : t :=
  {| element := element c; id := id c; class := class c; attr := attr c;
     pseudoClass := v; pseudoElement := pseudoElement c |}.

Definition set_pseudoElement (v : nullable) (c : t) : t :=
  {| element := element c; id := id c; class := class c; attr := attr c;
     pseudoClass := pseudoClass c; pseudoElement := v |}.

(** [this.config[key].push(value)], for the three array-valued keys. *)
Definition push_at (k : key) (value : string) (c : t) : t :=
  match k with
  | Kclass => set_class (push (class c) value) c
  | Kattr => set_attr (push (attr c) value) c
  | KpseudoClass => set_pseudoClass (push (pseudoClass c) value) c
  | _ => c
  end.

(** [this.config[key] = value], for the three singular keys. *)
Definition assign_at (k : key) (value : string) (c : t) : t :=
  match k with
  | Kelement => set_element (Some value) c
  | Kid => set_id (Some value) c
  | KpseudoElement => set_pseudoElement (Some value) c
  | _ => c
  end.

End Config.

(** ** [class CssSelector] *)

Module CssSelector.

(** The two own fields of an instance. *)
Record t : Type := mk {
  config : Config.t;
  currentOrder : Z
}.

Definition DUPLICATE : string :=
  "Element, id and pseudo-element should not occur more then one time inside the selector".

Definition OUT_OF_ORDER : string :=
  "Selector parts should be arranged in the following order: element, id, class, attribute, pseudo-class, pseudo-element".

(** [constructor(obj, currentOrder)]; [obj] is given by its entries, in
    the order [Object.entries] lists them. *)
Definition constructor (obj : list (key * string)) (currentOrder : Z) : t :=
  {| config :=
       fold_left
         (fun cfg '(k, value) =>
            if is_array_key k then Config.push_at k value cfg
            else Config.assign_at k value cfg)
         obj Config.initial;
     currentOrder := currentOrder |}.

(** A method body: it reads and writes the instance [this] and completes
    normally or by a throw.  The instance after the body is returned in
    both cases, since a caller that catches the error still holds it. *)
Definition M (A : Type) : Type := t -> completion A * t.

Definition ret {A : Type} (a : A) : M A := fun this => (Normal a, this).

Definition bind {A B : Type} (m : M A) (f : A -> M B) : M B :=
  fun this =>
    match m this with
    | (Normal a, this') => f a this'
    | (Throw e, this') => (Throw e, this')
    end.

Definition throw {A : Type} (message : string) : M A :=
  fun this => (Throw message, this).

Definition get_config : M Config.t := fun this => (Normal (config this), this).

Definition get_currentOrder : M Z :=
  fun this => (Normal (currentOrder this), this).

Definition update_config (f : Config.t -> Config.t) : M unit :=
  fun this =>
    (Normal tt, {| config := f (config this); currentOrder := currentOrder this |}).

Definition set_currentOrder (n : Z) : M unit :=
  fun this => (Normal tt, {| config := config this; currentOrder := n |}).

(** [if (c) { throw new Error(message); }] *)
Definition throw_if (c : bool) (message : string) : M unit :=
  if c then throw message else ret tt.

Declare Scope js_scope.
Delimit Scope js_scope with js.
Notation "x <- m ;; k" := (bind m (fun x => k))
  (at level 61, m at next level, right associativity) : js_scope.
Notation "m ;; k" := (bind m (fun _ => k))
  (at level 61, right associativity) : js_scope.
#[local] Open Scope js_scope.

(** The part methods.  Each ends in [return this]: the instance after
    the call is the state component, the value returned carries nothing
    more. *)

Definition element (value : string) : M unit :=
  cfg <- get_config ;;
  throw_if (truthy (Config.element cfg)) DUPLICATE ;;
  let order := 0 in
  cur <- get_currentOrder ;;
  throw_if (order <? cur) OUT_OF_ORDER ;;
  update_config (Config.set_element (Some value)) ;;
  set_currentOrder 0.

Definition id (value : string) : M unit :=
  cfg <- get_config ;;
  throw_if (truthy (Config.id cfg)) DUPLICATE ;;
  let order := 1 in
  cur <- get_currentOrder ;;
  throw_if (order <? cur) OUT_OF_ORDER ;;
  update_config (Config.set_id (Some value)) ;;
  set_currentOrder 1.

Definition class (value : string) : M unit :=
  let order := 2 in
  cur <- get_currentOrder ;;
  throw_if (order <? cur) OUT_OF_ORDER ;;
  update_config (fun cfg => Config.set_class (push (Config.class cfg) value) cfg) ;;
  set_currentOrder 2.

Definition attr (value : string) : M unit :=
  let order := 3 in
  cur <- get_currentOrder ;;
  throw_if (order <? cur) OUT_OF_ORDER ;;
  update_config (fun cfg => Config.set_attr (push (Config.attr cfg) value) cfg) ;;
  set_currentOrder 3.

Definition pseudoClass (value : string) : M unit :=
  let order := 4 in
  cur <- get_currentOrder ;;
  throw_if (order <? cur) OUT_OF_ORDER ;;
  update_config
    (fun cfg => Config.set_pseudoClass (push (Config.pseudoClass cfg) value) cfg) ;;
  set_currentOrder 4.

Definition pseudoElement (value : string) : M unit :=
  cfg <- get_config ;;
  throw_if (truthy (Config.pseudoElement cfg)) DUPLICATE ;;
  let order := 5 in
  cur <- get_currentOrder ;;
  throw_if (order <? cur) OUT_OF_ORDER ;;
  update_config (Config.set_pseudoElement (Some value)) ;;
  set_currentOrder 5.

(** [a.forEach((x) => { result += prefix + x + suffix; })] *)
Definition forEach_append (a : list string) (prefix suffix : string)
    (result : string) : string :=
  fold_left (fun result x => result ++ prefix ++ x ++ suffix)%string a result.

(** [stringify()]: it only reads the instance. *)
Definition stringify (this : t) : string :=
  let cfg := config this in
  let result := "" in
  let result :=
    if truthy (Config.element cfg)
    then (result ++ ToString (Config.element cfg))%string else result in
  let result :=
    if truthy (Config.id cfg)
    then (result ++ "#" ++ ToString (Config.id cfg))%string else result in
  let result :=
    if negb (Nat.eqb (List.length (Config.class cfg)) 0)
    then forEach_append (Config.class cfg) "." "" result else result in
  let result :=
    if negb (Nat.eqb (List.length (Config.attr cfg)) 0)
    then forEach_append (Config.attr cfg) "[" "]" result else result in
  let result :=
    if negb (Nat.eqb (List.length (Config.pseudoClass cfg)) 0)
    then forEach_append (Config.pseudoClass cfg) ":" "" result else result in
  let result :=
    if truthy (Config.pseudoElement cfg)
    then (result ++ "::" ++ ToString (Config.pseudoElement cfg))%string
    else result in
  result.

(** The method named by a key, for chains of calls given as data. *)
Definition call (k : key) (value : string) : M unit :=
  match k with
  | Kelement => element value
  | Kid => id value
  | Kclass => class value
  | Kattr => attr value
  | KpseudoClass => pseudoClass value
  | KpseudoElement => pseudoElement value
  end.

(** [this.m1(v1).m2(v2)...]: the calls run left to right, and the first
    throw ends the chain. *)
Fixpoint chain (calls : list (key * string)) : M unit :=
  match calls with
  | [] => ret tt
  | (k, value) :: rest => call k value ;; chain rest
  end.

End CssSelector.

(** ** [const cssSelectorBuilder] *)

Module cssSelectorBuilder.

(** The facade is one object; [res] is its only data field. *)
Record t : Type := mk { res : list string }.

(** The object literal: [res: []]. *)
Definition initial : t := {| res := [] |}.

(** The six creation methods; they do not touch [res]. *)

Definition element (value : string) : CssSelector.t :=
  CssSelector.constructor [(Kelement, value)] 0.

Definition id (value : string) : CssSelector.t :=
  CssSelector.constructor [(Kid, value)] 1.

Definition class (value : string) : CssSelector.t :=
  CssSelector.constructor [(Kclass, value)] 2.

Definition attr (value : string) : CssSelector.t :=
  CssSelector.constructor [(Kattr, value)] 3.

Definition pseudoClass (value : string) : CssSelector.t :=
  CssSelector.constructor [(KpseudoClass, value)] 4.

Definition pseudoElement (value : string) : CssSelector.t :=
  CssSelector.constructor [(KpseudoElement, value)] 5.

(** The creation method named by a key. *)
Definition create (k : key) (value : string) : CssSelector.t :=
  match k with
  | Kelement => element value
  | Kid => id value
  | Kclass => class value
  | Kattr => attr value
  | KpseudoClass => pseudoClass value
  | KpseudoElement => pseudoElement value
  end.

(** An operand of [combine]: a [CssSelector] instance, or the facade
    itself, which is what an inner [combine] call returns.  All
    references to the facade are the same object. *)
Inductive selector : Type :=
| Instance (s : CssSelector.t)
| This.

(** A facade method body: it reads and writes the facade. *)
Definition B (A : Type) : Type := t -> A * t.

(** [while (res.length > 0) { result += res.pop(); }], on the array and
    the accumulator; it returns the accumulator and the array left. *)
Equations? while_pop (res : list string) (result : string)
    : string * list string by wf (List.length res) lt :=
  while_pop [] result := (result, []);
  while_pop (x :: a) result :=
    while_pop (removelast (x :: a)) (result ++ last (x :: a) "")%string.
Proof.
  clear while_pop. revert x. induction a as [|y a IH]; intros x.
  - simpl. lia.
  - specialize (IH y). simpl in *. lia.
Qed.

(** [stringify()] of the facade. *)
Definition stringify : B string :=
  fun this =>
    let result := "" in
    let '(result, res') := while_pop (res this) result in
    (result, {| res := res' |}).

(** [selector.stringify()]: dynamic dispatch on the operand. *)
Definition stringify_of (s : selector) : B string :=
  match s with
  | Instance s => fun this => (CssSelector.stringify s, this)
  | This => stringify
  end.

(** [combine(selector1, combinator, selector2)], called on the facade. *)
Definition combine (selector1 : selector) (combinator : string)
    (selector2 : selector) : B selector :=
  fun this =>
    let result := "" in
    let '(s1, this) := stringify_of selector1 this in
    let result := (result ++ s1)%string in
    let result := (result ++ (" " ++ combinator ++ " "))%string in
    let '(s2, this) := stringify_of selector2 this in
    let result := (result ++ s2)%string in
    let this := {| res := push (res this) result |} in
    (This, this).

(** A statement [builder.combine(s1, c, s2);] whose result is dropped,
    and a sequence of such statements. *)
Definition combine_ (call : selector * string * selector) : t -> t :=
  fun this =>
    let '(s1, c, s2) := call in
    snd (combine s1 c s2 this).

Definition combine_all (calls : list (selector * string * selector)) : t -> t :=
  fun this => fold_left (fun this call => combine_ call this) calls this.

(** A statement [builder.combine(s1, c, s2).stringify();], and a
    sequence of such statements. *)
Definition combine_stringify_ (call : selector * string * selector) : t -> t :=
  fun this =>
    let '(s1, c, s2) := call in
    let '(r, this) := combine s1 c s2 this in
    snd (stringify_of r this).

Definition combine_stringify_all (calls : list (selector * string * selector))
    : t -> t :=
  fun this => fold_left (fun this call => combine_stringify_ call this) calls this.

(** Calls whose operands are all [CssSelector] instances. *)
Definition instances (calls : list (CssSelector.t * string * CssSelector.t))
    : list (selector * string * selector) :=
  map (fun '(a, c, b) => (Instance a, c, Instance b)) calls.

(** [builder.combine(builder.combine(left, '+', mid), '~', right).stringify()]:
    the inner call is evaluated first, as the first argument of the
    outer one. *)
Definition nested (left mid right : CssSelector.t) : B string :=
  fun this =>
    let '(inner, this) := combine (Instance left) "+" (Instance mid) this in
    let '(outer, this) := combine inner "~" (Instance right) this in
    stringify_of outer this.

End cssSelectorBuilder.

(** ** Objects, for [Rectangle], [getJSON] and [fromJSON]

    The part of JavaScript these three functions use: numbers, objects
    with own properties in creation order and a prototype link, property
    lookup along the prototype chain, assignment, and the built-ins
    [JSON.stringify], [JSON.parse] and [Object.keys].  An evaluation is a
    function from the heap to [option]: [None] stands for a thrown
    exception and for anything outside the modelled fragment, which is:
    every number, strings of printable ASCII without quote or backslash,
    property names that are not array indices, functions that are not
    themselves used as objects, JSON texts without whitespace that denote
    flat objects. *)

Module JS.

(** *** Characters *)

Definition dquote : ascii := ascii_of_nat 34.
Definition backslash : ascii := ascii_of_nat 92.

Definition is_digit (c : ascii) : bool :=
  match c with
  | "0" | "1" | "2" | "3" | "4" | "5" | "6" | "7" | "8" | "9" => true
  | _ => false
  end%char.

(** A character that a JSON string holds as it is. *)
Definition plain (c : ascii) : bool :=
  (32 <=? nat_of_ascii c)%nat && (nat_of_ascii c <=? 126)%nat &&
  negb (Ascii.eqb c dquote) && negb (Ascii.eqb c backslash).

Fixpoint all_plain (s : string) : bool :=
  match s with
  | EmptyString => true
  | String c s' => plain c && all_plain s'
  end.

Fixpoint all_digits (s : string) : bool :=
  match s with
  | EmptyString => true
  | String c s' => is_digit c && all_digits s'
  end.

(** A property name that JavaScript treats as an array index; such
    properties are enumerated before the others. *)
Definition is_index (s : string) : bool :=
  match s with
  | EmptyString => false
  | String c s' => all_digits s && (negb (Ascii.eqb c "0") || (s' =? "")%string)
  end.

Fixpoint zeros (n : nat) : string :=
  match n with
  | O => EmptyString
  | S n' => String "0" (zeros n')
  end.

Fixpoint split_at (n : nat) (s : string) : string * string :=
  match n, s with
  | S n', String c s' => let '(a, b) := split_at n' s' in (String c a, b)
  | _, _ => (EmptyString, s)
  end.

(** The decimal digits of a positive integer. *)
Definition digits (p : positive) : string :=
  DecimalString.NilEmpty.string_of_uint (Pos.to_uint p).

(** *** Numbers

    A JavaScript number is an IEEE 754 double: [NaN], an infinity, a zero
    of either sign, or [m * 2 ^ e] with a sign, where either
    [2 ^ 52 <= m < 2 ^ 53] and [-1074 <= e <= 971] (a normal number) or
    [m < 2 ^ 52] and [e = -1074] (a subnormal one). *)
Inductive number : Type :=
| NaN
| Infinity (negative : bool)
| Zero (negative : bool)
| Finite (negative : bool) (m : positive) (e : Z).

Definition canonical (m : positive) (e : Z) : bool :=
  (Zpos m <? 2 ^ 53) && (e <=? 971) &&
  ((2 ^ 52 <=? Zpos m) && (-1074 <=? e) || (e =? -1074)).

(** A finite double ([Number.isFinite]). *)
Definition finite (x : number) : bool :=
  match x with
  | Zero _ => true
  | Finite _ m e => canonical m e
  | NaN | Infinity _ => false
  end.

(** A double, finite or not. *)
Definition is_double (x : number) : bool :=
  match x with
  | Finite _ m e => canonical m e
  | NaN | Infinity _ | Zero _ => true
  end.

Definition number_eqb (x y : number) : bool :=
  match x, y with
  | NaN, NaN => true
  | Infinity a, Infinity b | Zero a, Zero b => Bool.eqb a b
  | Finite a m e, Finite b m' e' => Bool.eqb a b && Pos.eqb m m' && (e =? e')
  | _, _ => false
  end.

(** [x === y] on numbers: [NaN] equals nothing, the two zeros are equal. *)
Definition Number_equal (x y : number) : bool :=
  match x, y with
  | NaN, _ | _, NaN => false
  | Zero _, Zero _ => true
  | _, _ => number_eqb x y
  end.

(** [num / den] divided by [2 ^ E], as a fraction. *)
Definition scale (num den E : Z) : Z * Z :=
  if 0 <=? E then (num, den * 2 ^ E) else (num * 2 ^ (- E), den).

(** The integer nearest to [a / b]; of two that are as near, the even
    one. *)
Definition nearest_even (a b : Z) : Z :=
  let q := a / b in
  let r := a mod b in
  if 2 * r <? b then q
  else if b <? 2 * r then q + 1
  else if Z.even q then q else q + 1.

(** The Number value for the rational [num / den] with the given sign:
    the double nearest to it, of two that are as near the one with the
    even significand (roundTiesToEven); too large a value gives an
    infinity, too small a one a zero.  [0 <= num] and [0 < den].  The
    exponent [E] is the one at which the quotient has 53 bits, or
    [-1074]. *)
Definition Number_value (negative : bool) (num den : Z) : number :=
  let E0 := Z.max (Z.log2 num - Z.log2 den - 53) (-1074) in
  let '(a0, b0) := scale num den E0 in
  let E := if a0 / b0 <? 2 ^ 53 then E0 else E0 + 1 in
  let '(a, b) := scale num den E in
  let m := nearest_even a b in
  let '(m, E) := if m =? 2 ^ 53 then (2 ^ 52, E + 1) else (m, E) in
  match m with
  | Zpos p => if E <=? 971 then Finite negative p E else Infinity negative
  | _ => Zero negative
  end.

(** The Number value for [s * 10 ^ t]. *)
Definition from_decimal (negative : bool) (s t : Z) : number :=
  if 0 <=? t then Number_value negative (s * 10 ^ t) 1
  else Number_value negative s (10 ^ (- t)).

(** The Number value for an integer. *)
Definition of_Z (n : Z) : number :=
  Number_value (n <? 0) (Z.abs n) 1.

(** [x * y] *)
Definition Number_multiply (x y : number) : number :=
  match x, y with
  | NaN, _ | _, NaN => NaN
  | Infinity _, Zero _ | Zero _, Infinity _ => NaN
  | Infinity a, Infinity b | Infinity a, Finite b _ _
  | Finite a _ _, Infinity b => Infinity (xorb a b)
  | Zero a, Zero b | Zero a, Finite b _ _ | Finite a _ _, Zero b =>
      Zero (xorb a b)
  | Finite a m1 e1, Finite b m2 e2 =>
      let e := e1 + e2 in
      if 0 <=? e
      then Number_value (xorb a b) (Zpos (m1 * m2) * 2 ^ e) 1
      else Number_value (xorb a b) (Zpos (m1 * m2)) (2 ^ (- e))
  end.

(** [Number::toString], the steps that lay out the digits [ds] of [s]
    for the value [s * 10 ^ t]: with [k] the number of digits and
    [n = t + k], an integer up to 21 digits is written out, a decimal
    point is placed inside or before the digits while [-6 < n <= 21], and
    the exponent form is used otherwise. *)
Definition Number_format (ds : string) (t : Z) : string :=
  let k := Z.of_nat (String.length ds) in
  let n := t + k in
  if (k <=? n) && (n <=? 21) then ds ++ zeros (Z.to_nat (n - k))
  else if (0 <? n) && (n <=? 21) then
    let '(int, frac) := split_at (Z.to_nat n) ds in int ++ "." ++ frac
  else if (-6 <? n) && (n <=? 0) then "0." ++ zeros (Z.to_nat (- n)) ++ ds
  else
    match ds with
    | String c (String c' ds') => String c ("." ++ String c' ds')
    | _ => ds
    end ++ "e" ++ (if n - 1 <? 0 then "-" else "+") ++
    digits (Z.to_pos (Z.abs (n - 1))).

(** [m * 2 ^ e] as a fraction. *)
Definition fraction (m : positive) (e : Z) : Z * Z :=
  if 0 <=? e then (Zpos m * 2 ^ e, 1) else (Zpos m, 2 ^ (- e)).

(** An exponent [t] with [m * 2 ^ e < 10 ^ t] (lemma [above_spec]): as
    [m * 2 ^ e < 2 ^ l], the logarithm of 2, which lies between 0.30102
    and 0.30103, times [l], rounded up. *)
Definition above (m : positive) (e : Z) : Z :=
  let l := Z.log2 (Zpos m) + e + 1 in
  - ((- l * (if 0 <=? l then 30103 else 30102)) / 100000).

(** The candidates for [s] at the exponent [t]: the two integers on
    either side of [num / den / 10 ^ t], the nearer one first (of two that
    are as near, the even one). *)
Definition candidates (num den t : Z) : Z * Z :=
  let '(a, b) :=
    if 0 <=? t then (num, den * 10 ^ t) else (num * 10 ^ (- t), den) in
  let q := a / b in
  if nearest_even a b =? q then (q, q + 1) else (q + 1, q).

(** [Number::toString], the choice of the digits: the largest exponent
    [t], that is the fewest digits, for which some [s * 10 ^ t] has [x] as
    its Number value; of two such [s] the one nearer to [x].  The search
    goes down from [t] and stops at the latest where the decimal is [x]
    itself. *)
Fixpoint shortest (fuel : nat) (x : number) (negative : bool) (num den t : Z)
    : option (Z * Z) :=
  let '(s1, s2) := candidates num den t in
  if (0 <? s1) && number_eqb (from_decimal negative s1 t) x then Some (s1, t)
  else if (0 <? s2) && number_eqb (from_decimal negative s2 t) x then Some (s2, t)
  else
    match fuel with
    | O => None
    | S fuel' => shortest fuel' x negative num den (t - 1)
    end.

(** [String(x)], that is [Number::toString(x)] with radix 10. *)
Definition Number_toString (x : number) : option string :=
  match x with
  | NaN => Some "NaN"
  | Infinity negative => Some ((if negative then "-" else "") ++ "Infinity")
  | Zero _ => Some "0"
  | Finite negative m e =>
      let '(num, den) := fraction m e in
      let t0 := above m e in
      match shortest (Z.to_nat (t0 - Z.min 0 e)) x negative num den t0 with
      | Some (s, t) =>
          Some ((if negative then "-" else "") ++
                Number_format (digits (Z.to_pos s)) t)
      | None => None
      end
  end.

(** *** Values, objects and the heap *)

(** An object reference. *)
Definition loc : Type := nat.

(** Function values.  [GetAreaArrow this] is the arrow function
    [() => this.width * this.height] created by [Rectangle]; an arrow
    function keeps the [this] of the call that created it. *)
Inductive func : Type :=
| Builtin (name : string)
| RectangleFunction
| GetAreaArrow (this : loc).

Inductive value : Type :=
| Undefined
| Null
| Number (n : number)
| Str (s : string)
| Function (f : func)
| Object (l : loc).

Record property : Type := {
  name : string;
  contents : value;
  enumerable : bool
}.

Record object : Type := {
  properties : list property;
  prototype : option loc
}.

Definition heap : Type := list object.

Definition H (A : Type) : Type := heap -> option (A * heap).

Definition ret {A : Type} (a : A) : H A := fun h => Some (a, h).

Definition bind {A B : Type} (m : H A) (f : A -> H B) : H B :=
  fun h =>
    match m h with
    | Some (a, h') => f a h'
    | None => None
    end.

Definition fail {A : Type} : H A := fun _ => None.

Declare Scope heap_scope.
Delimit Scope heap_scope with heap.
Notation "x <- m ;; k" := (bind m (fun x => k))
  (at level 61, m at next level, right associativity) : heap_scope.
Notation "m ;; k" := (bind m (fun _ => k))
  (at level 61, right associativity) : heap_scope.
#[local] Open Scope heap_scope.

(** [a.forEach(f)] *)
Fixpoint forEach {A : Type} (a : list A) (f : A -> H unit) : H unit :=
  match a with
  | [] => ret tt
  | x :: a' => f x ;; forEach a' f
  end.

Definition alloc (o : object) : H loc :=
  fun h => Some (List.length h, (h ++ [o])%list).

Definition read (l : loc) : H object :=
  fun h =>
    match nth_error h l with
    | Some o => Some (o, h)
    | None => None
    end.

Fixpoint replace (l : loc) (o : object) (h : heap) : option heap :=
  match h, l with
  | [], _ => None
  | _ :: h', O => Some (o :: h')
  | o' :: h', S l' => option_map (cons o') (replace l' o h')
  end.

Definition write (l : loc) (o : object) : H unit :=
  fun h =>
    match replace l o h with
    | Some h' => Some (tt, h')
    | None => None
    end.

(** [a * b] on numbers. *)
Definition multiply (a b : value) : H value :=
  match a, b with
  | Number x, Number y => ret (Number (Number_multiply x y))
  | _, _ => fail
  end.

(** The function in a value that is callable. *)
Definition callable (v : value) : option func :=
  match v with
  | Function f => Some f
  | _ => None
  end.

(** *** Properties *)

Definition own_property (key : string) (o : object) : option property :=
  find (fun p => (name p =? key)%string) (properties o).

(** Lookup along the prototype chain; the fuel bounds its length. *)
Fixpoint get_from (fuel : nat) (h : heap) (l : loc) (key : string) : option value :=
  match fuel with
  | O => None
  | S fuel' =>
      match nth_error h l with
      | None => None
      | Some o =>
          match own_property key o with
          | Some p => Some (contents p)
          | None =>
              match prototype o with
              | Some l' => get_from fuel' h l' key
              | None => Some Undefined
              end
          end
      end
  end.

(** [o[key]].  The accessor [__proto__] of [Object.prototype] is not
    modelled. *)
Definition Get (l : loc) (key : string) : H value :=
  fun h =>
    if (key =? "__proto__")%string then None
    else
      match get_from (S (List.length h)) h l key with
      | Some v => Some (v, h)
      | None => None
      end.

(** The properties with [key] holding [v]: an existing property keeps its
    place, a new one is added last and is enumerable. *)
Fixpoint put (key : string) (v : value) (ps : list property) : list property :=
  match ps with
  | [] => [{| name := key; contents := v; enumerable := true |}]
  | p :: ps' =>
      if (name p =? key)%string
      then {| name := key; contents := v; enumerable := enumerable p |} :: ps'
      else p :: put key v ps'
  end.

(** Creation of an own data property, as [JSON.parse] does it. *)
Definition Define (l : loc) (key : string) (v : value) : H unit :=
  if is_index key then fail
  else
    o <- read l ;;
    write l {| properties := put key v (properties o); prototype := prototype o |}.

(** [o[key] = v].  Apart from [__proto__], no object of the model has
    an accessor or a read-only property, so the assignment sets an own
    property. *)
Definition Put (l : loc) (key : string) (v : value) : H unit :=
  if (key =? "__proto__")%string then fail else Define l key v.

(** The own enumerable properties of an object, in the order in which
    [Object.keys] and [JSON.stringify] visit them: the order of creation.
    Names that are array indices would come first, in numeric order; an
    object with such an enumerable property is outside the model. *)
Definition enumerable_own (o : object) : H (list property) :=
  let ps := filter enumerable (properties o) in
  if existsb (fun p => is_index (name p)) ps then fail else ret ps.

(** [Object.keys(o)] *)
Definition Object_keys (v : value) : H (list string) :=
  match v with
  | Object l =>
      o <- read l ;;
      ps <- enumerable_own o ;;
      ret (map name ps)
  | _ => fail
  end.

(** *** The initial heap *)

Definition Object_prototype : loc := 0%nat.
Definition Rectangle_prototype : loc := 1%nat.

Definition builtin (key : string) : property :=
  {| name := key; contents := Function (Builtin key); enumerable := false |}.

(** [Object.prototype], and [Rectangle.prototype] as the function
    declaration creates it: its only own property is [constructor]. *)
Definition initial_heap : heap :=
  [ {| properties :=
         map builtin
           ["constructor"; "hasOwnProperty"; "isPrototypeOf";
            "propertyIsEnumerable"; "toLocaleString"; "toString"; "valueOf";
            "__defineGetter__"; "__defineSetter__";
            "__lookupGetter__"; "__lookupSetter__"];
       prototype := None |};
    {| properties :=
         [{| name := "constructor"; contents := Function RectangleFunction;
             enumerable := false |}];
       prototype := Some Object_prototype |} ].

(** *** [JSON.stringify] and [JSON.parse] *)

Module JSON.

(** A string between quotes. *)
Definition quote (s : string) : option string :=
  if all_plain s
  then Some (String dquote (s ++ String dquote EmptyString))
  else None.

(** The text of a property value that is not an object: a number that is
    not finite is written as [null]. *)
Definition scalar (v : value) : option string :=
  match v with
  | Null => Some "null"
  | Number NaN | Number (Infinity _) => Some "null"
  | Number n => Number_toString n
  | Str s => quote s
  | _ => None
  end.

(** [v.toJSON], if it is callable; [JSON.stringify] looks it up on a
    value that is an object.  A function is an object too: it inherits
    from [Function.prototype], which holds no [toJSON], and through it
    from [Object.prototype]. *)
Definition toJSON_of (v : value) : H (option func) :=
  match v with
  | Object l => t <- Get l "toJSON" ;; ret (callable t)
  | Function _ => t <- Get Object_prototype "toJSON" ;; ret (callable t)
  | _ => ret None
  end.

(** Properties whose value is [undefined] or a function are left out. *)
Definition serializable (p : property) : bool :=
  match contents p with
  | Undefined | Function _ => false
  | _ => true
  end.

(** The text of a property, or nothing when it is left out.  A value
    with a callable [toJSON], and an object as a value, are not
    modelled. *)
Definition member (p : property) : H (option string) :=
  t <- toJSON_of (contents p) ;;
  match t with
  | Some _ => fail
  | None =>
      if serializable p then
        match quote (name p), scalar (contents p) with
        | Some k, Some v => ret (Some (k ++ ":" ++ v)%string)
        | _, _ => fail
        end
      else ret None
  end.

Fixpoint members (ps : list property) : H (list string) :=
  match ps with
  | [] => ret []
  | p :: ps' =>
      m <- member p ;;
      ms <- members ps' ;;
      ret match m with
          | Some text => text :: ms
          | None => ms
          end
  end.

(** The text of a value once [toJSON] has been dealt with: an object
    without nested objects, or a scalar. *)
Definition serialize (v : value) : H string :=
  match v with
  | Object l =>
      o <- read l ;;
      ps <- enumerable_own o ;;
      ms <- members ps ;;
      ret ("{" ++ String.concat "," ms ++ "}")%string
  | Undefined | Function _ => fail
  | _ =>
      match scalar v with
      | Some text => ret text
      | None => fail
      end
  end.

(** [JSON.stringify(v)].  When [v] has a callable [toJSON], what that
    returns is written in place of [v]; [call] is the call of a function,
    and the functions of the model ignore the arguments that
    [JSON.stringify] passes to [toJSON]. *)
Definition stringify (call : func -> H value) (v : value) : H string :=
  t <- toJSON_of v ;;
  match t with
  | Some f => v' <- call f ;; serialize v'
  | None => serialize v
  end.

(** The characters of a string up to its closing quote, and the text
    after that quote. *)
Fixpoint parse_string (s : string) : option (string * string) :=
  match s with
  | EmptyString => None
  | String c s' =>
      if Ascii.eqb c dquote then Some (EmptyString, s')
      else if plain c then
        match parse_string s' with
        | Some (str, rest) => Some (String c str, rest)
        | None => None
        end
      else None
  end.

Fixpoint span_digits (s : string) : string * string :=
  match s with
  | EmptyString => (EmptyString, EmptyString)
  | String c s' =>
      if is_digit c
      then let '(digits, rest) := span_digits s' in (String c digits, rest)
      else (EmptyString, s)
  end.

(** The value of a string of digits, after the digits that gave [acc]. *)
Fixpoint digits_value (acc : Z) (s : string) : Z :=
  match s with
  | EmptyString => acc
  | String c s' => digits_value (10 * acc + (Z.of_nat (nat_of_ascii c) - 48)) s'
  end.

(** The fraction of a JSON number: nothing, or a point and digits. *)
Definition parse_fraction (s : string) : option (string * string) :=
  match s with
  | String c s' =>
      if Ascii.eqb c "." then
        let '(frac, rest) := span_digits s' in
        if (frac =? "")%string then None else Some (frac, rest)
      else Some (EmptyString, s)
  | EmptyString => Some (EmptyString, s)
  end.

(** A sign or none, and the text after it. *)
Definition parse_sign (s : string) : bool * string :=
  match s with
  | String c s' =>
      if Ascii.eqb c "-" then (true, s')
      else if Ascii.eqb c "+" then (false, s')
      else (false, s)
  | EmptyString => (false, s)
  end.

(** The exponent of a JSON number: nothing, or [e] or [E], a sign or
    none, and digits. *)
Definition parse_exponent (s : string) : option (Z * string) :=
  match s with
  | String c s' =>
      if Ascii.eqb c "e" || Ascii.eqb c "E" then
        let '(negative, s1) := parse_sign s' in
        let '(ds, rest) := span_digits s1 in
        if (ds =? "")%string then None
        else Some (if negative then - digits_value 0 ds else digits_value 0 ds,
                   rest)
      else Some (0, s)
  | EmptyString => Some (0, s)
  end.

(** A JSON number without its sign, and the text after it: an integer
    without a leading zero, a fraction or none, an exponent or none; its
    value is the Number value for the decimal it denotes. *)
Definition parse_decimal (negative : bool) (s : string)
    : option (number * string) :=
  let '(int, s2) := span_digits s in
  match int with
  | EmptyString => None
  | String c int' =>
      if Ascii.eqb c "0" && negb (int' =? "")%string then None
      else
        match parse_fraction s2 with
        | Some (frac, s3) =>
            match parse_exponent s3 with
            | Some (ex, rest) =>
                Some (from_decimal negative (digits_value 0 (int ++ frac))
                        (ex - Z.of_nat (String.length frac)),
                      rest)
            | None => None
            end
        | None => None
        end
  end.

(** A JSON number, with a minus sign or none, and the text after it. *)
Definition parse_number (s : string) : option (number * string) :=
  match s with
  | String c s' =>
      if Ascii.eqb c "-" then parse_decimal true s' else parse_decimal false s
  | EmptyString => None
  end.

Definition parse_value (s : string) : option (value * string) :=
  match s with
  | String "n" (String "u" (String "l" (String "l" rest))) => Some (Null, rest)
  | String c s' =>
      if Ascii.eqb c dquote then
        match parse_string s' with
        | Some (str, rest) => Some (Str str, rest)
        | None => None
        end
      else
        match parse_number s with
        | Some (n, rest) => Some (Number n, rest)
        | None => None
        end
  | EmptyString => None
  end.

(** The members of an object, from the first name to the closing
    brace, and the text after it. *)
Fixpoint parse_members (fuel : nat) (s : string)
    : option (list (string * value) * string) :=
  match fuel with
  | O => None
  | S fuel' =>
      match s with
      | String c s1 =>
          if Ascii.eqb c dquote then
            match parse_string s1 with
            | Some (key, String ":" s2) =>
                match parse_value s2 with
                | Some (v, String "," s3) =>
                    match parse_members fuel' s3 with
                    | Some (ms, rest) => Some ((key, v) :: ms, rest)
                    | None => None
                    end
                | Some (v, String "}" s3) => Some ([(key, v)], s3)
                | _ => None
                end
            | _ => None
            end
          else None
      | EmptyString => None
      end
  end.

Definition parse_object (text : string) : option (list (string * value)) :=
  match text with
  | String "{" (String "}" EmptyString) => Some []
  | String "{" s =>
      match parse_members (String.length s) s with
      | Some (ms, EmptyString) => Some ms
      | _ => None
      end
  | _ => None
  end.

(** [JSON.parse(text)] for the text of a flat object: a new object
    whose prototype is [Object.prototype]. *)
Definition parse (text : string) : H value :=
  match parse_object text with
  | Some ms =>
      l <- alloc {| properties := []; prototype := Some Object_prototype |} ;;
      forEach ms (fun '(key, v) => Define l key v) ;;
      ret (Object l)
  | None => fail
  end.

End JSON.

End JS.

(** ** [Rectangle], [getJSON], [fromJSON] *)

Section ObjectsTasks.

Import JS.
#[local] Open Scope heap_scope.

(** [new Rectangle(width, height)]: the new object has
    [Rectangle.prototype] as its prototype, and the body sets three own
    properties on it. *)
Definition Rectangle (width height : value) : H loc :=
  this <- alloc {| properties := []; prototype := Some Rectangle_prototype |} ;;
  Put this "width" width ;;
  Put this "height" height ;;
  Put this "getArea" (Function (GetAreaArrow this)) ;;
  ret this.

(** A call [f()], or a call that passes a [this] and arguments to an
    arrow function, which uses neither. *)
Definition Call (f : func) : H value :=
  match f with
  | GetAreaArrow this =>
      w <- Get this "width" ;;
      h <- Get this "height" ;;
      multiply w h
  | RectangleFunction | Builtin _ => fail
  end.

(** A method call [o.method()]; it throws a [TypeError] when the
    property is not a function. *)
Definition invoke (o : loc) (method : string) : H value :=
  f <- Get o method ;;
  match f with
  | Function g => Call g
  | _ => fail
  end.

Definition getJSON (obj : value) : H string :=
  JSON.stringify Call obj.

(** The prototype that [new NewObj()] gives the new object:
    [NewObj.prototype], that is [proto], when it is an object, and
    [Object.prototype] when it is a primitive value.  A function is an
    object too, but the model has no function as a prototype. *)
Definition prototype_from (proto : value) : H loc :=
  match proto with
  | Object l => ret l
  | Function _ => fail
  | Undefined | Null | Number _ | Str _ => ret Object_prototype
  end.

Definition fromJSON (proto : value) (json : string) : H loc :=
  params <- JSON.parse json ;;
  prototype <- prototype_from proto ;;
  this <- alloc {| properties := []; prototype := Some prototype |} ;;
  keys <- Object_keys params ;;
  forEach keys
    (fun prop =>
       match params with
       | Object l => v <- Get l prop ;; Put this prop v
       | _ => fail
       end) ;;
  ret this.

(** [fromJSON(Rectangle.prototype, getJSON(new Rectangle(width, height)))];
    the result is the rectangle and the decoded object. *)
Definition round_trip (width height : value) : H (loc * loc) :=
  r <- Rectangle width height ;;
  json <- getJSON (Object r) ;;
  o <- fromJSON (Object Rectangle_prototype) json ;;
  ret (r, o).

(** An enumerable data property, as an assignment creates it. *)
Definition data (key : string) (v : value) : property :=
  {| name := key; contents := v; enumerable := true |}.

(** The object [new Rectangle(w, h)] creates at [this]. *)
Definition rectangle_object (w h : value) (this : loc) : object :=
  {| properties :=
       [data "width" w; data "height" h;
        data "getArea" (Function (GetAreaArrow this))];
     prototype := Some Rectangle_prototype |}.

(** An object that holds only [width] and [height]. *)
Definition plain_object (w h : value) (proto : loc) : object :=
  {| properties := [data "width" w; data "height" h];
     prototype := Some proto |}.

(** What may follow a member in the text of an object. *)
Definition terminated (rest : string) : Prop :=
  exists c rest', rest = String c rest' /\ (c = "," \/ c = "}")%char.

(** The own property [key] of the object at [l]. *)
Definition own (h : heap) (l : loc) (key : string) : option value :=
  match nth_error h l with
  | Some o => option_map contents (own_property key o)
  | None => None
  end.

End ObjectsTasks.

(** ** Notions used to state the properties of the selector builder *)

(** The stored value of a singular part ([element], [id], [pseudoElement]);
    the array-valued parts have none. *)
Definition singular_part (k : key) (cfg : Config.t) : nullable :=
  match k with
  | Kelement => Config.element cfg
  | Kid => Config.id cfg
  | KpseudoElement => Config.pseudoElement cfg
  | _ => None
  end.

(** The condition of the first [if] of [element], [id] and [pseudoElement]
    (the uniqueness check); the other three methods have no such test. *)
Definition uniqueness_check_fails (k : key) (this : CssSelector.t) : bool :=
  truthy (singular_part k (CssSelector.config this)).

(** The condition [order < this.currentOrder] (the ordering check). *)
Definition ordering_check_fails (k : key) (this : CssSelector.t) : bool :=
  order_of k <? CssSelector.currentOrder this.

(** What a successful call stores: a push for the array-valued parts, an
    assignment for the singular ones. *)
Definition store (k : key) (value : string) (cfg : Config.t) : Config.t :=
  if is_array_key k then Config.push_at k value cfg
  else Config.assign_at k value cfg.

(** The configuration with the singular part of kind [k] absent
    ([null], as the constructor leaves it). *)
Definition without (k : key) (cfg : Config.t) : Config.t :=
  match k with
  | Kelement => Config.set_element None cfg
  | Kid => Config.set_id None cfg
  | KpseudoElement => Config.set_pseudoElement None cfg
  | _ => cfg
  end.

(** A singular part as [stringify] renders it. *)
Definition rendered_part (prefix : string) (x : nullable) : string :=
  if truthy x then prefix ++ ToString x else "".

(** The part of kind [k] as [stringify] renders it. *)
Definition part_string (k : key) (cfg : Config.t) : string :=
  match k with
  | Kelement => rendered_part "" (Config.element cfg)
  | Kid => rendered_part "#" (Config.id cfg)
  | Kclass => String.concat "" (map (fun x => "." ++ x ++ "") (Config.class cfg))
  | Kattr => String.concat "" (map (fun x => "[" ++ x ++ "]") (Config.attr cfg))
  | KpseudoClass =>
      String.concat "" (map (fun x => ":" ++ x ++ "") (Config.pseudoClass cfg))
  | KpseudoElement => rendered_part "::" (Config.pseudoElement cfg)
  end.

(** The rendering of one part as the specification words it: the element
    bare, [#id], [.class], [[attr]], [:pseudoClass], [::pseudoElement]. *)
Definition fragment (call : key * string) : string :=
  let '(k, value) := call in
  match k with
  | Kelement => value
  | Kid => "#" ++ value
  | Kclass => "." ++ value
  | Kattr => "[" ++ value ++ "]"
  | KpseudoClass => ":" ++ value
  | KpseudoElement => "::" ++ value
  end.

(** The same, except that a singular part given as the empty string
    yields nothing at all. *)
Definition emitted (call : key * string) : string :=
  let '(k, value) := call in
  if is_array_key k then fragment call
  else if (value =? "")%string then "" else fragment call.

(** The calls of one kind, in the order they were made. *)
Definition parts_of (k : key) (calls : list (key * string)) : list (key * string) :=
  filter (fun call => key_eqb (fst call) k) calls.

(** The calls regrouped in the fixed order of the kinds. *)
Definition by_rank (calls : list (key * string)) : list (key * string) :=
  parts_of Kelement calls ++ parts_of Kid calls ++ parts_of Kclass calls ++
  parts_of Kattr calls ++ parts_of KpseudoClass calls ++
  parts_of KpseudoElement calls.

(** The ranks of the calls never decrease, starting from [lo]. *)
Fixpoint nondecreasing (lo : Z) (calls : list (key * string)) : Prop :=
  match calls with
  | [] => True
  | (k, _) :: rest => lo <= order_of k /\ nondecreasing (order_of k) rest
  end.

(** No singular kind ([element], [id], [pseudoElement]) is called twice. *)
Definition singular_once (calls : list (key * string)) : Prop :=
  NoDup (filter (fun k => negb (is_array_key k)) (map fst calls)).

(** The string one [combine] call on two instances pushes. *)
Definition combination (call : CssSelector.t * string * CssSelector.t) : string :=
  let '(a, c, b) := call in
  CssSelector.stringify a ++ " " ++ c ++ " " ++ CssSelector.stringify b.

(** ** Further notions, for the properties beyond the claims *)

(** No singular kind is called again after a call that gave it a
    non-empty value. *)
Definition no_call_after_value (calls : list (key * string)) : Prop :=
  forall l1 call l2,
    calls = (l1 ++ call :: l2)%list ->
    is_array_key (fst call) = false ->
    snd call <> "" ->
    ~ In (fst call) (map fst l2).

(** The stored values of an array-valued part ([class], [attr],
    [pseudoClass]); the singular parts have none. *)
Definition array_part (k : key) (cfg : Config.t) : list string :=
  match k with
  | Kclass => Config.class cfg
  | Kattr => Config.attr cfg
  | KpseudoClass => Config.pseudoClass cfg
  | _ => []
  end.

(** An expression that combines selectors, in which every [combine] has at
    most one operand that is itself a combination: the shapes
    [builder.combine(e, c, s)] and [builder.combine(s, c, e)], nested to
    any depth, with plain selectors at the leaves. *)
Inductive combination_tree : Type :=
| Plain (s : CssSelector.t)
| Nested_left (e : combination_tree) (c : string) (s : CssSelector.t)
| Nested_right (s : CssSelector.t) (c : string) (e : combination_tree).

(** The evaluation of such an expression on the facade: the arguments of a
    call are evaluated before the call, so the inner [combine] runs
    first. *)
Fixpoint evaluate (e : combination_tree)
    : cssSelectorBuilder.B cssSelectorBuilder.selector :=
  match e with
  | Plain s => fun this => (cssSelectorBuilder.Instance s, this)
  | Nested_left e' c s =>
      fun this =>
        let '(inner, this) := evaluate e' this in
        cssSelectorBuilder.combine inner c (cssSelectorBuilder.Instance s) this
  | Nested_right s c e' =>
      fun this =>
        let '(inner, this) := evaluate e' this in
        cssSelectorBuilder.combine (cssSelectorBuilder.Instance s) c inner this
  end.

(** The selectors of the expression, left to right, joined by their
    combinators, each between two spaces. *)
Fixpoint joined (e : combination_tree) : string :=
  match e with
  | Plain s => CssSelector.stringify s
  | Nested_left e' c s => joined e' ++ " " ++ c ++ " " ++ CssSelector.stringify s
  | Nested_right s c e' => CssSelector.stringify s ++ " " ++ c ++ " " ++ joined e'
  end.

(** ** Notions used to state the properties of rectangles and JSON *)

(** The text does not go on with a digit. *)
Definition no_digit (s : string) : Prop :=
  match s with
  | String c _ => JS.is_digit c = false
  | EmptyString => True
  end.

(** The text does not go on with a point. *)
Definition no_point (s : string) : Prop :=
  match s with
  | String c _ => Ascii.eqb c "." = false
  | EmptyString => True
  end.

(** An integer part that JSON accepts: a digit that is not 0 and more
    digits, or 0 alone. *)
Definition integer_part (int : string) : Prop :=
  JS.all_digits int = true /\
  exists c int',
    int = String c int' /\ Ascii.eqb c "0" && negb (int' =? "")%string = false.

(** The number that is read back from the text of [x]: the sign of a zero
    is lost. *)
Definition positive_zero (x : JS.number) : JS.number :=
  match x with
  | JS.Zero _ => JS.Zero false
  | _ => x
  end.

(** The properties [JSON.stringify] writes: the enumerable ones whose
    value is neither [undefined] nor a function. *)
Definition kept (o : JS.object) : list JS.property :=
  filter (fun p => JS.enumerable p && JS.JSON.serializable p) (JS.properties o).

(** A property inside the modelled fragment: a plain name that is no array
    index and not [__proto__], holding [null], a number or a plain
    string. *)
Definition portable (p : JS.property) : bool :=
  JS.all_plain (JS.name p) && negb (JS.is_index (JS.name p)) &&
  negb (JS.name p =? "__proto__")%string &&
  match JS.contents p with
  | JS.Null => true
  | JS.Number n => JS.is_double n
  | JS.Str s => JS.all_plain s
  | _ => false
  end.

(** A property that [JSON.stringify] leaves out: its value is [undefined],
    or a function that inherits no callable [toJSON]; its name is no array
    index. *)
Definition left_out (h : JS.heap) (p : JS.property) : Prop :=
  JS.JSON.serializable p = false /\
  JS.is_index (JS.name p) = false /\
  JS.JSON.toJSON_of (JS.contents p) h = Some (None, h).

(** What [JSON.parse] reads back from the text that [JSON.stringify]
    writes for a value: a number that is not finite comes back as [null],
    a zero without its sign, any other value of the fragment as it is. *)
Definition read_back (v : JS.value) : JS.value :=
  match v with
  | JS.Number JS.NaN | JS.Number (JS.Infinity _) => JS.Null
  | JS.Number n => JS.Number (positive_zero n)
  | _ => v
  end.

(** The text [JSON.stringify] writes for a value, for a property and for
    an object of the fragment. *)
Definition value_text (v : JS.value) : string :=
  match JS.JSON.scalar v with
  | Some text => text
  | None => ""
  end.

Definition member_text (p : JS.property) : string :=
  String JS.dquote
    (JS.name p ++ String JS.dquote (String ":" (value_text (JS.contents p)))).

Definition object_text (ps : list JS.property) : string :=
  "{" ++ String.concat "," (map member_text ps) ++ "}".

(** The name and the value of a property, as [JSON.parse] reads them, and
    the property that it creates for them. *)
Definition entry (p : JS.property) : string * JS.value :=
  (JS.name p, read_back (JS.contents p)).

Definition decoded (p : JS.property) : JS.property :=
  data (JS.name p) (read_back (JS.contents p)).

(** The properties that [JSON.parse] creates for the members of a text,
    one after the other: a name that comes again keeps its place and
    takes the later value. *)
Definition built (ms : list (string * JS.value)) : list JS.property :=
  fold_left (fun ps m => JS.put (fst m) (snd m) ps) ms [].

(** A member name that the loop of [fromJSON] can copy in the model. *)
Definition copyable (key : string) : Prop :=
  JS.is_index key = false /\ (key =? "__proto__")%string = false.

(** The JSON text of a rectangle whose fields have the texts [w] and
    [h]: [{"width":w,"height":h}]. *)
Definition rectangle_json (w h : string) : string :=
  String "{"
    (String JS.dquote
       ("width" ++
        String JS.dquote
          (String ":"
             (w ++
              String ","
                (String JS.dquote
                   ("height" ++
                    String JS.dquote (String ":" (h ++ "}")))))))).

(** [r1 = new Rectangle(w1, h1); r2 = new Rectangle(w2, h2);
    r2.getArea = r1.getArea; r1.width = w; r2.getArea()] *)
Definition borrowed_getArea (w1 h1 w2 h2 w : JS.value) : JS.H JS.value :=
  JS.bind (Rectangle w1 h1) (fun r1 =>
  JS.bind (Rectangle w2 h2) (fun r2 =>
  JS.bind (JS.Get r1 "getArea") (fun f =>
  JS.bind (JS.Put r2 "getArea" f) (fun _ =>
  JS.bind (JS.Put r1 "width" w) (fun _ =>
  invoke r2 "getArea"))))).

(** [r = new Rectangle(w, h); r.width = w'; r.height = h'; r.getArea()] *)
Definition resized_getArea (w h w' h' : JS.value) : JS.H JS.value :=
  JS.bind (Rectangle w h) (fun r =>
  JS.bind (JS.Put r "width" w') (fun _ =>
  JS.bind (JS.Put r "height" h') (fun _ =>
  invoke r "getArea"))).

(** [r = new Rectangle(w, h); r.toJSON = r.getArea; getJSON(r)] *)
Definition area_as_JSON (w h : JS.value) : JS.H string :=
  JS.bind (Rectangle w h) (fun r =>
  JS.bind (JS.Get r "getArea") (fun f =>
  JS.bind (JS.Put r "toJSON" f) (fun _ =>
  getJSON (JS.Object r)))).

(** * Properties *)

(** ** Strings and arrays *)

Lemma append_nil_r (s : string) : (s ++ "")%string = s.
Proof. induction s as [|c s IH]; simpl; [reflexivity | now rewrite IH]. Qed.

Lemma append_assoc (s1 s2 s3 : string) :
  ((s1 ++ s2) ++ s3)%string = (s1 ++ (s2 ++ s3))%string.
Proof. induction s1 as [|c s1 IH]; simpl; [reflexivity | now rewrite IH]. Qed.

Lemma concat_cons (x : string) (l : list string) :
  String.concat "" (x :: l) = (x ++ String.concat "" l)%string.
Proof. destruct l; simpl; [now rewrite append_nil_r | reflexivity]. Qed.

Lemma concat_app (l1 l2 : list string) :
  String.concat "" (l1 ++ l2) = (String.concat "" l1 ++ String.concat "" l2)%string.
Proof.
  induction l1 as [|x l1 IH]; [reflexivity|].
  rewrite <- app_comm_cons, !concat_cons, IH, append_assoc. reflexivity.
Qed.

Lemma while_pop_spec (res : list string) (result : string) :
  cssSelectorBuilder.while_pop res result =
  ((result ++ String.concat "" (rev res))%string, []).
Proof.
  funelim (cssSelectorBuilder.while_pop res result).
  - simpl. now rewrite append_nil_r.
  - match goal with IH : cssSelectorBuilder.while_pop _ _ = (_, _) |- _ =>
      rewrite IH end.
    rewrite (app_removelast_last "" (l := x :: a)) at 3 by discriminate.
    rewrite rev_app_distr. simpl rev at 2. rewrite <- app_comm_cons.
    simpl app. rewrite concat_cons, append_assoc. reflexivity.
Qed.

(** ** The part methods *)

(** Every part method is: uniqueness check, ordering check, store. *)
Lemma call_spec (k : key) (value : string) (this : CssSelector.t) :
  CssSelector.call k value this =
  if uniqueness_check_fails k this then (Throw CssSelector.DUPLICATE, this)
  else if ordering_check_fails k this then (Throw CssSelector.OUT_OF_ORDER, this)
  else (Normal tt,
        {| CssSelector.config := store k value (CssSelector.config this);
           CssSelector.currentOrder := order_of k |}).
Proof.
  destruct this as [cfg cur].
  destruct k; unfold uniqueness_check_fails, ordering_check_fails; simpl;
    cbv [CssSelector.element CssSelector.id CssSelector.class CssSelector.attr
         CssSelector.pseudoClass CssSelector.pseudoElement CssSelector.bind
         CssSelector.get_config CssSelector.get_currentOrder
         CssSelector.throw_if CssSelector.throw CssSelector.ret
         CssSelector.update_config CssSelector.set_currentOrder];
    simpl;
    repeat match goal with
           | |- context [truthy ?x] => destruct (truthy x); simpl
           | |- context [?a <? ?b] => destruct (a <? b); simpl
           end; reflexivity.
Qed.

Lemma messages_differ : CssSelector.DUPLICATE <> CssSelector.OUT_OF_ORDER.
Proof. discriminate. Qed.

Lemma truthy_Some (s : string) : truthy (Some s) = true <-> s <> "".
Proof.
  simpl. destruct (String.eqb_spec s ""); simpl; split; congruence.
Qed.

(** A successful call leaves the singular parts of the other kinds as
    they were. *)
Lemma store_other (k k' : key) (value : string) (cfg : Config.t) :
  key_eqb k k' = false ->
  singular_part k' (store k value cfg) = singular_part k' cfg.
Proof. destruct k, k'; simpl; intros; congruence. Qed.

(** A singular part that holds a non-empty string survives every chain of
    successful calls. *)
Lemma truthy_part_kept (k : key) (s : string) (calls : list (key * string)) :
  forall this this' : CssSelector.t,
    s <> "" ->
    singular_part k (CssSelector.config this) = Some s ->
    CssSelector.chain calls this = (Normal tt, this') ->
    singular_part k (CssSelector.config this') = Some s.
Proof.
  induction calls as [|[k1 v1] rest IH]; intros this this' Hs Hpart Hrun.
  - simpl in Hrun. inversion Hrun. subst. exact Hpart.
  - simpl in Hrun. unfold CssSelector.bind in Hrun. rewrite call_spec in Hrun.
    destruct (uniqueness_check_fails k1 this) eqn:Hu; [discriminate|].
    destruct (ordering_check_fails k1 this); [discriminate|].
    apply (IH _ _ Hs) in Hrun; [exact Hrun|]. simpl.
    destruct (key_eqb k1 k) eqn:Hk.
    + assert (k1 = k) by (destruct k1, k; simpl in Hk; congruence). subst k1.
      unfold uniqueness_check_fails in Hu. rewrite Hpart in Hu.
      apply truthy_Some in Hs. congruence.
    + rewrite store_other by exact Hk. exact Hpart.
Qed.

(** C4, as stated, fails at [builder.element('').element('div')]: the
    element has been set (to the empty string), and the second call to
    [element] returns normally. *)
Lemma second_element_call_after_empty_value :
  let this := cssSelectorBuilder.element "" in
  Config.element (CssSelector.config this) = Some "" /\
  CssSelector.element "div" this = (Normal tt, cssSelectorBuilder.element "div") /\
  fst (CssSelector.element "div" this) <> Throw CssSelector.DUPLICATE.
Proof. repeat split. discriminate. Qed.

(** C4, amended: once [element], [id] or [pseudoElement] holds a non-empty
    string [s] (the three kinds [k] that have a stored singular part), then
    after any further chain of successful calls a call to the same method
    throws the error with the message 'Element, id and pseudo-element
    should not occur more then one time inside the selector', and the
    selector is left as it was. *)
Theorem duplicate_singular_part_fails
    (k : key) (s value : string) (calls : list (key * string))
    (this this' : CssSelector.t) :
  s <> "" ->
  singular_part k (CssSelector.config this) = Some s ->
  CssSelector.chain calls this = (Normal tt, this') ->
  CssSelector.call k value this' =
  (Throw "Element, id and pseudo-element should not occur more then one time inside the selector",
   this').
Proof.
  intros Hs Hpart Hrun.
  pose proof (truthy_part_kept k s calls this this' Hs Hpart Hrun) as Hkept.
  rewrite call_spec. unfold uniqueness_check_fails. rewrite Hkept.
  apply truthy_Some in Hs. rewrite Hs. reflexivity.
Qed.

Lemma duplicate_singular_part_fails_witness :
  "table" <> "" /\
  singular_part Kelement (CssSelector.config (cssSelectorBuilder.element "table")) =
    Some "table" /\
  CssSelector.call Kelement "div"
    (snd (CssSelector.chain [(Kclass, "c")] (cssSelectorBuilder.element "table"))) =
  (Throw "Element, id and pseudo-element should not occur more then one time inside the selector",
   snd (CssSelector.chain [(Kclass, "c")] (cssSelectorBuilder.element "table"))).
Proof.
  split; [discriminate|]. split; [reflexivity|].
  apply (duplicate_singular_part_fails Kelement "table" "div" [(Kclass, "c")]
           (cssSelectorBuilder.element "table")).
  - discriminate.
  - reflexivity.
  - reflexivity.
Defined.

(** C5, as stated, fails at [builder.element('div').id('x').element('y')]:
    the rank of [element] is below the rank of the last part added, and
    the call throws the duplicate error, not the ordering error. *)
Lemma lower_rank_duplicate_call :
  let this := snd (CssSelector.id "x" (cssSelectorBuilder.element "div")) in
  order_of Kelement < CssSelector.currentOrder this /\
  CssSelector.call Kelement "y" this = (Throw CssSelector.DUPLICATE, this) /\
  fst (CssSelector.call Kelement "y" this) <> Throw CssSelector.OUT_OF_ORDER.
Proof. repeat split. discriminate. Qed.

(** C5, amended: a part method throws the error with the message 'Selector
    parts should be arranged in the following order: element, id, class,
    attribute, pseudo-class, pseudo-element' exactly when its rank is
    strictly less than [currentOrder] and its uniqueness check does not
    fire; so a call of lower rank that is not a duplicate fails with that
    error, and a call of equal or greater rank never does. *)
Theorem out_of_order_call (k : key) (value : string) (this : CssSelector.t) :
  fst (CssSelector.call k value this) =
  Throw "Selector parts should be arranged in the following order: element, id, class, attribute, pseudo-class, pseudo-element"
  <->
  uniqueness_check_fails k this = false /\
  order_of k < CssSelector.currentOrder this.
Proof.
  rewrite call_spec. unfold ordering_check_fails.
  destruct (uniqueness_check_fails k this); simpl.
  - split; [discriminate | intros [H _]; discriminate].
  - destruct (Z.ltb_spec (order_of k) (CssSelector.currentOrder this)); simpl.
    + split; intros; [split; [reflexivity | assumption] | reflexivity].
    + split; [discriminate | intros [_ H']; lia].
Qed.

Lemma out_of_order_call_witness :
  fst (CssSelector.call Kid "main" (cssSelectorBuilder.class "draggable")) =
  Throw "Selector parts should be arranged in the following order: element, id, class, attribute, pseudo-class, pseudo-element".
Proof.
  apply (proj2 (out_of_order_call Kid "main" (cssSelectorBuilder.class "draggable"))).
  split; [reflexivity | reflexivity].
Defined.

(** C6, as stated, fails at [builder.id('').class('c').id('x')]: the id
    has been set (to the empty string) and the rank of [id] is below the
    rank of the last part added, so the call is a second call of a singular
    part and is out of order; yet it throws the ordering error, not the
    duplicate error, as the uniqueness check tests the stored value for
    truthiness. *)
Lemma second_id_call_out_of_order :
  let this := snd (CssSelector.class "c" (cssSelectorBuilder.id "")) in
  Config.id (CssSelector.config this) = Some "" /\
  order_of Kid < CssSelector.currentOrder this /\
  CssSelector.id "x" this = (Throw CssSelector.OUT_OF_ORDER, this) /\
  fst (CssSelector.id "x" this) <> Throw CssSelector.DUPLICATE.
Proof. repeat split. discriminate. Qed.

(** C6, amended: in [element], [id] and [pseudoElement] the uniqueness
    check runs before the ordering check: a call of the method whose part
    holds a non-empty string, made when the rank of the method is below
    the rank of the last part added, throws the duplicate error, not the
    ordering error, and leaves the selector as it was. *)
Theorem uniqueness_check_runs_first
    (k : key) (s value : string) (this : CssSelector.t) :
  s <> "" ->
  singular_part k (CssSelector.config this) = Some s ->
  order_of k < CssSelector.currentOrder this ->
  CssSelector.call k value this =
  (Throw "Element, id and pseudo-element should not occur more then one time inside the selector",
   this) /\
  fst (CssSelector.call k value this) <>
  Throw "Selector parts should be arranged in the following order: element, id, class, attribute, pseudo-class, pseudo-element".
Proof.
  intros Hs Hpart Horder. rewrite call_spec.
  unfold uniqueness_check_fails. rewrite Hpart.
  apply truthy_Some in Hs. rewrite Hs. split; [reflexivity | discriminate].
Qed.

Lemma uniqueness_check_runs_first_witness :
  let this := snd (CssSelector.id "main" (cssSelectorBuilder.element "div")) in
  "div" <> "" /\
  singular_part Kelement (CssSelector.config this) = Some "div" /\
  order_of Kelement < CssSelector.currentOrder this /\
  CssSelector.element "table" this =
  (Throw "Element, id and pseudo-element should not occur more then one time inside the selector",
   this).
Proof.
  split; [discriminate|]. split; [reflexivity|]. split; [reflexivity|].
  refine (proj1 (uniqueness_check_runs_first Kelement "div" "table"
                   (snd (CssSelector.id "main" (cssSelectorBuilder.element "div")))
                   _ eq_refl eq_refl)).
  discriminate.
Defined.

(** C7: a part-method call that throws leaves the selector exactly as it
    was: its configuration and its [currentOrder] are unchanged, and every
    later chain of calls runs on it as on the selector before the call. *)
Theorem failed_call_changes_nothing
    (k : key) (value message : string) (this this' : CssSelector.t) :
  CssSelector.call k value this = (Throw message, this') ->
  CssSelector.config this' = CssSelector.config this /\
  CssSelector.currentOrder this' = CssSelector.currentOrder this /\
  (forall calls, CssSelector.chain calls this' = CssSelector.chain calls this) /\
  CssSelector.stringify this' = CssSelector.stringify this.
Proof.
  rewrite call_spec.
  destruct (uniqueness_check_fails k this);
    [| destruct (ordering_check_fails k this)];
    intros H; inversion H; subst; repeat split; reflexivity.
Qed.

Lemma failed_call_changes_nothing_witness :
  let this := cssSelectorBuilder.pseudoElement "after" in
  let this' := snd (CssSelector.call Kclass "c" this) in
  CssSelector.call Kclass "c" this = (Throw CssSelector.OUT_OF_ORDER, this') /\
  CssSelector.config this' = CssSelector.config this /\
  CssSelector.currentOrder this' = CssSelector.currentOrder this.
Proof.
  split; [reflexivity|].
  pose proof (failed_call_changes_nothing Kclass "c" CssSelector.OUT_OF_ORDER
                (cssSelectorBuilder.pseudoElement "after")
                (snd (CssSelector.call Kclass "c" (cssSelectorBuilder.pseudoElement "after")))
                eq_refl) as H.
  split; [exact (proj1 H) | exact (proj1 (proj2 H))].
Defined.

(** C9, as stated, fails at [builder.element('').id('a').element('b')]:
    the element was set to the empty string, and the later call to
    [element] does not overwrite it: it throws the ordering error and the
    stored value is still the empty string. *)
Lemma empty_element_not_overwritten_out_of_order :
  let this := snd (CssSelector.id "a" (cssSelectorBuilder.element "")) in
  Config.element (CssSelector.config this) = Some "" /\
  CssSelector.element "b" this = (Throw CssSelector.OUT_OF_ORDER, this) /\
  Config.element (CssSelector.config (snd (CssSelector.element "b" this))) <> Some "b".
Proof. repeat split. discriminate. Qed.

(** C9, amended: on a selector whose [element], [id] or [pseudoElement]
    holds the empty string, a call to the same method never throws the
    duplicate error; when it also passes the ordering check (its rank is
    not below [currentOrder]) it returns normally and overwrites the stored
    value; and the selector renders exactly as it would with that part
    absent, so the empty part contributes nothing, not even its
    punctuation. *)
Theorem empty_singular_part (k : key) (value : string) (this : CssSelector.t) :
  is_array_key k = false ->
  singular_part k (CssSelector.config this) = Some "" ->
  fst (CssSelector.call k value this) <>
    Throw "Element, id and pseudo-element should not occur more then one time inside the selector" /\
  (CssSelector.currentOrder this <= order_of k ->
   CssSelector.call k value this =
     (Normal tt,
      {| CssSelector.config := Config.assign_at k value (CssSelector.config this);
         CssSelector.currentOrder := order_of k |}) /\
   singular_part k (Config.assign_at k value (CssSelector.config this)) = Some value) /\
  CssSelector.stringify this =
  CssSelector.stringify
    {| CssSelector.config := without k (CssSelector.config this);
       CssSelector.currentOrder := CssSelector.currentOrder this |}.
Proof.
  intros Hk Hpart. rewrite call_spec.
  unfold uniqueness_check_fails, ordering_check_fails, store.
  rewrite Hpart, Hk. simpl truthy. cbv iota.
  split; [|split].
  - destruct (order_of k <? CssSelector.currentOrder this); discriminate.
  - intros Hle.
    destruct (Z.ltb_spec (order_of k) (CssSelector.currentOrder this)); [lia|].
    split; [reflexivity|]. destruct k; simpl in *; congruence.
  - destruct this as [[e i c a p pe] cur].
    destruct k; simpl in Hpart, Hk; try discriminate; subst; reflexivity.
Qed.

Lemma empty_singular_part_witness :
  let this := snd (CssSelector.class "c" (cssSelectorBuilder.id "")) in
  is_array_key KpseudoElement = false /\
  CssSelector.stringify this = ".c" /\
  CssSelector.stringify (snd (CssSelector.pseudoElement "" this)) = ".c" /\
  CssSelector.call KpseudoElement "after" (snd (CssSelector.pseudoElement "" this)) =
  (Normal tt,
   snd (CssSelector.pseudoElement "after" (snd (CssSelector.pseudoElement "" this)))).
Proof.
  split; [reflexivity|]. split; [reflexivity|]. split; [reflexivity|].
  refine (proj1 (proj1 (proj2
    (empty_singular_part KpseudoElement "after"
       (snd (CssSelector.pseudoElement ""
          (snd (CssSelector.class "c" (cssSelectorBuilder.id "")))))
       eq_refl eq_refl)) _)).
  simpl. lia.
Defined.

(** ** Rendering *)

Lemma forEach_append_spec (a : list string) (prefix suffix result : string) :
  CssSelector.forEach_append a prefix suffix result =
  (result ++ String.concat "" (map (fun x => prefix ++ x ++ suffix) a))%string.
Proof.
  unfold CssSelector.forEach_append. revert result.
  induction a as [|x a IH]; intros result; simpl fold_left.
  - simpl. now rewrite append_nil_r.
  - rewrite IH. simpl map. rewrite concat_cons, append_assoc. reflexivity.
Qed.

(** [stringify] is the concatenation of the six parts in the fixed order. *)
Lemma stringify_by_parts (this : CssSelector.t) :
  CssSelector.stringify this =
  let cfg := CssSelector.config this in
  (rendered_part "" (Config.element cfg) ++
   rendered_part "#" (Config.id cfg) ++
   String.concat "" (map (fun x => "." ++ x ++ "") (Config.class cfg)) ++
   String.concat "" (map (fun x => "[" ++ x ++ "]") (Config.attr cfg)) ++
   String.concat "" (map (fun x => ":" ++ x ++ "") (Config.pseudoClass cfg)) ++
   rendered_part "::" (Config.pseudoElement cfg))%string.
Proof.
  destruct this as [[e i c a p pe] cur]. unfold CssSelector.stringify. cbn zeta.
  cbn [CssSelector.config Config.element Config.id Config.class Config.attr
       Config.pseudoClass Config.pseudoElement].
  assert (Hlen : forall (l : list string) pre suf r,
             (if negb (Nat.eqb (List.length l) 0)
              then CssSelector.forEach_append l pre suf r else r) =
             (r ++ String.concat "" (map (fun x => pre ++ x ++ suf) l))%string).
  { intros l pre suf r. destruct l as [|x l].
    - simpl. now rewrite append_nil_r.
    - cbn [List.length Nat.eqb negb]. apply forEach_append_spec. }
  unfold rendered_part.
  rewrite !Hlen.
  destruct (truthy e), (truthy i), (truthy pe);
    cbn [append]; rewrite ?append_nil_r, ?append_assoc; cbn [append];
    rewrite ?append_assoc; reflexivity.
Qed.

Lemma part_string_store_same (k : key) (value : string) (cfg : Config.t) :
  truthy (singular_part k cfg) = false ->
  part_string k (store k value cfg) = (part_string k cfg ++ emitted (k, value))%string.
Proof.
  destruct cfg as [e i c a p pe].
  destruct k; simpl; unfold rendered_part, push; intros Hu;
    try (rewrite Hu; simpl; destruct (value =? "")%string; reflexivity);
    rewrite map_app, concat_app; simpl; rewrite ?append_nil_r; reflexivity.
Qed.

Lemma part_string_store_other (k k' : key) (value : string) (cfg : Config.t) :
  key_eqb k k' = false ->
  part_string k' (store k value cfg) = part_string k' cfg.
Proof. destruct k, k'; simpl; intros; congruence. Qed.

Lemma parts_of_cons (k : key) (call : key * string) (calls : list (key * string)) :
  parts_of k (call :: calls) =
  if key_eqb (fst call) k then call :: parts_of k calls else parts_of k calls.
Proof. reflexivity. Qed.

(** Each part of the configuration grows by what the successful calls of
    its kind emit. *)
Lemma chain_part_string (calls : list (key * string)) :
  forall (this this' : CssSelector.t) (k : key),
    CssSelector.chain calls this = (Normal tt, this') ->
    part_string k (CssSelector.config this') =
    (part_string k (CssSelector.config this) ++
     String.concat "" (map emitted (parts_of k calls)))%string.
Proof.
  induction calls as [|[k1 v1] rest IH]; intros this this' k Hrun.
  - simpl in Hrun. inversion Hrun. subst. simpl. now rewrite append_nil_r.
  - simpl in Hrun. unfold CssSelector.bind in Hrun. rewrite call_spec in Hrun.
    destruct (uniqueness_check_fails k1 this) eqn:Hu; [discriminate|].
    destruct (ordering_check_fails k1 this); [discriminate|].
    rewrite (IH _ _ k Hrun). cbn [CssSelector.config].
    rewrite parts_of_cons. cbn [fst].
    destruct (key_eqb k1 k) eqn:Hk.
    + assert (k1 = k) by (destruct k1, k; simpl in Hk; congruence). subst k1.
      rewrite part_string_store_same by exact Hu.
      cbn [map]. rewrite concat_cons, append_assoc. reflexivity.
    + rewrite part_string_store_other by exact Hk. reflexivity.
Qed.

Lemma create_part_string (k0 k : key) (v0 : string) :
  part_string k (CssSelector.config (cssSelectorBuilder.create k0 v0)) =
  String.concat "" (map emitted (parts_of k [(k0, v0)])).
Proof.
  destruct k0, k; simpl; unfold rendered_part; simpl;
    try reflexivity; try (destruct (v0 =? "")%string; reflexivity);
    now rewrite ?append_nil_r.
Qed.

Lemma create_currentOrder (k0 : key) (v0 : string) :
  CssSelector.currentOrder (cssSelectorBuilder.create k0 v0) = order_of k0.
Proof. destruct k0; reflexivity. Qed.

(** A chain of calls that succeeds has non-decreasing ranks. *)
Lemma chain_nondecreasing (calls : list (key * string)) :
  forall this this' : CssSelector.t,
    CssSelector.chain calls this = (Normal tt, this') ->
    nondecreasing (CssSelector.currentOrder this) calls.
Proof.
  induction calls as [|[k1 v1] rest IH]; intros this this' Hrun; [exact I|].
  simpl in Hrun. unfold CssSelector.bind in Hrun. rewrite call_spec in Hrun.
  destruct (uniqueness_check_fails k1 this); [discriminate|].
  unfold ordering_check_fails in Hrun.
  destruct (Z.ltb_spec (order_of k1) (CssSelector.currentOrder this));
    [discriminate|].
  split; [assumption|]. exact (IH _ _ Hrun).
Qed.

Lemma nondecreasing_bound (calls : list (key * string)) :
  forall lo, nondecreasing lo calls ->
  forall call, In call calls -> lo <= order_of (fst call).
Proof.
  induction calls as [|[k1 v1] rest IH]; intros lo H call Hin; [contradiction|].
  destruct H as [Hlo Hrest]. destruct Hin as [<- | Hin]; [exact Hlo|].
  specialize (IH _ Hrest _ Hin). lia.
Qed.

Lemma parts_of_none (k : key) (calls : list (key * string)) :
  (forall call, In call calls -> order_of k < order_of (fst call)) ->
  parts_of k calls = [].
Proof.
  induction calls as [|[k1 v1] rest IH]; intros H; [reflexivity|].
  rewrite parts_of_cons. cbn [fst].
  pose proof (H (k1, v1) (or_introl eq_refl)) as H1. cbn [fst] in H1.
  destruct (key_eqb k1 k) eqn:Hk.
  - destruct k1, k; simpl in *; try discriminate; lia.
  - apply IH. intros call Hin. apply H. now right.
Qed.

(** With non-decreasing ranks, grouping by kind is the call order. *)
Lemma by_rank_nondecreasing (calls : list (key * string)) :
  forall lo, nondecreasing lo calls -> by_rank calls = calls.
Proof.
  induction calls as [|[k1 v1] rest IH]; intros lo H; [reflexivity|].
  destruct H as [_ Hrest]. specialize (IH _ Hrest).
  assert (Hlow : forall k, order_of k < order_of k1 -> parts_of k rest = []).
  { intros k Hk. apply parts_of_none. intros call Hin.
    pose proof (nondecreasing_bound _ _ Hrest _ Hin). lia. }
  unfold by_rank in *. rewrite !parts_of_cons. cbn [fst].
  destruct k1; cbn [key_eqb];
    repeat match goal with
           | |- context [parts_of ?k rest] =>
               rewrite (Hlow k) in * by (simpl; lia)
           end;
    cbn [app] in *; congruence.
Qed.

(** A chain with non-decreasing ranks in which no singular kind occurs
    twice runs to its end on a selector that holds none of these kinds. *)
Lemma valid_chain_runs (calls : list (key * string)) :
  forall this : CssSelector.t,
    nondecreasing (CssSelector.currentOrder this) calls ->
    singular_once calls ->
    (forall call, In call calls ->
       truthy (singular_part (fst call) (CssSelector.config this)) = false) ->
    exists this', CssSelector.chain calls this = (Normal tt, this').
Proof.
  induction calls as [|[k v] rest IH]; intros this Hsorted Honce Hfree.
  - exists this. reflexivity.
  - destruct Hsorted as [Hlo Hrest].
    cbn [CssSelector.chain]. unfold CssSelector.bind. rewrite call_spec.
    unfold uniqueness_check_fails, ordering_check_fails.
    pose proof (Hfree (k, v) (or_introl eq_refl)) as Hk0. cbn [fst] in Hk0.
    rewrite Hk0.
    destruct (Z.ltb_spec (order_of k) (CssSelector.currentOrder this)); [lia|].
    apply IH.
    + exact Hrest.
    + unfold singular_once in *. cbn [map fst filter] in Honce.
      destruct (is_array_key k); [exact Honce | now inversion Honce].
    + intros [k' v'] Hin. cbn [fst CssSelector.config].
      destruct (key_eqb k k') eqn:Hk.
      * assert (k = k') by (destruct k, k'; simpl in Hk; congruence). subst k'.
        destruct (is_array_key k) eqn:Harr.
        -- destruct k; try discriminate; reflexivity.
        -- exfalso. unfold singular_once in Honce. cbn [map fst filter] in Honce.
           rewrite Harr in Honce. cbn [negb] in Honce. inversion Honce as [|? ? Hnotin _].
           apply Hnotin. apply filter_In. split.
           ++ apply in_map_iff. exists (k, v'). split; [reflexivity | exact Hin].
           ++ now rewrite Harr.
      * rewrite store_other by exact Hk. exact (Hfree (k', v') (or_intror Hin)).
Qed.

(** Every valid sequence of calls builds a selector: a creation call
    followed by calls of non-decreasing rank, no singular kind twice. *)
Lemma valid_sequence_builds (k0 : key) (v0 : string) (rest : list (key * string)) :
  nondecreasing 0 ((k0, v0) :: rest) ->
  singular_once ((k0, v0) :: rest) ->
  exists this,
    CssSelector.chain rest (cssSelectorBuilder.create k0 v0) = (Normal tt, this).
Proof.
  intros [_ Hsorted] Honce. apply valid_chain_runs.
  - rewrite create_currentOrder. exact Hsorted.
  - unfold singular_once in *. cbn [map fst filter] in Honce.
    destruct (is_array_key k0); [exact Honce | now inversion Honce].
  - intros [k v] Hin. cbn [fst].
    destruct (key_eqb k0 k) eqn:Hk.
    + assert (k0 = k) by (destruct k0, k; simpl in Hk; congruence). subst k.
      destruct (is_array_key k0) eqn:Harr.
      * destruct k0; try discriminate; reflexivity.
      * exfalso. unfold singular_once in Honce. cbn [map fst filter] in Honce.
        rewrite Harr in Honce. cbn [negb] in Honce.
        inversion Honce as [|? ? Hnotin _].
        apply Hnotin. apply filter_In. split.
        -- apply in_map_iff. exists (k0, v). split; [reflexivity | exact Hin].
        -- now rewrite Harr.
    + destruct k0, k; simpl in Hk; try discriminate; reflexivity.
Qed.

(** The examples of the source's documentation. *)
Example documented_id_classes :
  CssSelector.stringify
    (snd (CssSelector.chain [(Kclass, "container"); (Kclass, "editable")]
            (cssSelectorBuilder.id "main"))) =
  "#main.container.editable".
Proof. reflexivity. Qed.

Example documented_element_attr_pseudoClass :
  let q := String JS.dquote EmptyString in
  CssSelector.stringify
    (snd (CssSelector.chain
            [(Kattr, "href$=" ++ q ++ ".png" ++ q); (KpseudoClass, "focus")]
            (cssSelectorBuilder.element "a"))) =
  ("a[href$=" ++ q ++ ".png" ++ q ++ "]:focus")%string.
Proof. reflexivity. Qed.

(** C3, as stated, fails at [builder.element('a').id('').class('c')]: the
    chain is valid, the claimed rendering puts '#' before the (empty) id,
    and [stringify] returns 'a.c'. *)
Lemma empty_id_renders_without_hash :
  let calls := [(Kelement, "a"); (Kid, ""); (Kclass, "c")] in
  let this := snd (CssSelector.class "c" (snd (CssSelector.id "" (cssSelectorBuilder.element "a")))) in
  CssSelector.chain (tl calls) (cssSelectorBuilder.create Kelement "a") = (Normal tt, this) /\
  String.concat "" (map fragment calls) = "a#.c" /\
  CssSelector.stringify this = "a.c" /\
  CssSelector.stringify this <> String.concat "" (map fragment calls).
Proof. repeat split. discriminate. Qed.

Lemma emitted_fragment (call : key * string) :
  (fst call = Kid \/ fst call = KpseudoElement -> snd call <> "") ->
  emitted call = fragment call.
Proof.
  destruct call as [k v]. cbn [fst snd]. intros H.
  destruct k; simpl; try reflexivity;
    destruct (String.eqb_spec v ""); try reflexivity; subst;
    try reflexivity; exfalso; apply H; auto.
Qed.

(** C3, amended: for every selector built by a facade creation call
    followed by a chain of part-method calls that all succeed, the ranks
    of the calls never decrease, and [stringify] returns the concatenation
    of what the calls emit, in call order, which is also the fixed order
    of the kinds: the element bare, '#' before the id, '.' before each
    class, each attribute inside '[' and ']', ':' before each pseudo-class
    and '::' before the pseudo-element, the values of one kind in the
    order of their calls; an id or pseudo-element given as the empty
    string emits nothing, and when no such value occurs every part is
    rendered with its punctuation. *)
Theorem stringify_of_built_selector
    (k0 : key) (v0 : string) (rest : list (key * string)) (this : CssSelector.t) :
  CssSelector.chain rest (cssSelectorBuilder.create k0 v0) = (Normal tt, this) ->
  nondecreasing 0 ((k0, v0) :: rest) /\
  CssSelector.stringify this = String.concat "" (map emitted ((k0, v0) :: rest)) /\
  CssSelector.stringify this =
    String.concat "" (map emitted (by_rank ((k0, v0) :: rest))) /\
  ((forall call, In call ((k0, v0) :: rest) ->
      fst call = Kid \/ fst call = KpseudoElement -> snd call <> "") ->
   CssSelector.stringify this = String.concat "" (map fragment ((k0, v0) :: rest))).
Proof.
  intros Hrun.
  assert (Hsorted : nondecreasing 0 ((k0, v0) :: rest)).
  { split; [destruct k0; simpl; lia|].
    rewrite <- (create_currentOrder k0 v0). exact (chain_nondecreasing _ _ _ Hrun). }
  assert (Hrank : CssSelector.stringify this =
                  String.concat "" (map emitted (by_rank ((k0, v0) :: rest)))).
  { rewrite stringify_by_parts. cbn zeta.
    change (part_string Kelement (CssSelector.config this) ++
            part_string Kid (CssSelector.config this) ++
            part_string Kclass (CssSelector.config this) ++
            part_string Kattr (CssSelector.config this) ++
            part_string KpseudoClass (CssSelector.config this) ++
            part_string KpseudoElement (CssSelector.config this) =
            String.concat "" (map emitted (by_rank ((k0, v0) :: rest))))%string.
    assert (Hpart : forall k, part_string k (CssSelector.config this) =
                      String.concat "" (map emitted (parts_of k ((k0, v0) :: rest)))).
    { intros k. rewrite (chain_part_string _ _ _ k Hrun), create_part_string.
      change ((k0, v0) :: rest) with ([(k0, v0)] ++ rest)%list.
      unfold parts_of. rewrite filter_app, map_app, concat_app. reflexivity. }
    unfold by_rank. rewrite !map_app, !concat_app, !Hpart. reflexivity. }
  split; [exact Hsorted|].
  assert (Hcalls : CssSelector.stringify this =
                   String.concat "" (map emitted ((k0, v0) :: rest))).
  { rewrite Hrank, (by_rank_nondecreasing _ 0 Hsorted). reflexivity. }
  split; [exact Hcalls|]. split; [exact Hrank|].
  intros Hne. rewrite Hcalls. f_equal. apply map_ext_in.
  intros call Hin. apply emitted_fragment. exact (Hne call Hin).
Qed.

Lemma stringify_of_built_selector_witness :
  let rest := [(Kid, "main"); (Kclass, "container"); (Kclass, "editable");
               (Kattr, "href"); (KpseudoClass, "focus"); (KpseudoElement, "after")] in
  CssSelector.stringify (snd (CssSelector.chain rest (cssSelectorBuilder.create Kelement "div"))) =
  String.concat "" (map emitted ((Kelement, "div") :: rest)).
Proof.
  exact (proj1 (proj2 (stringify_of_built_selector Kelement "div"
    [(Kid, "main"); (Kclass, "container"); (Kclass, "editable");
     (Kattr, "href"); (KpseudoClass, "focus"); (KpseudoElement, "after")]
    _ eq_refl))).
Defined.

(** ** The facade *)

Lemma facade_stringify_spec (this : cssSelectorBuilder.t) :
  cssSelectorBuilder.stringify this =
  (String.concat "" (rev (cssSelectorBuilder.res this)), cssSelectorBuilder.initial).
Proof.
  unfold cssSelectorBuilder.stringify. rewrite while_pop_spec. reflexivity.
Qed.

Lemma combine_spec (s1 s2 : cssSelectorBuilder.selector) (c : string)
    (this : cssSelectorBuilder.t) :
  cssSelectorBuilder.combine s1 c s2 this =
  let '(r1, this1) := cssSelectorBuilder.stringify_of s1 this in
  let '(r2, this2) := cssSelectorBuilder.stringify_of s2 this1 in
  (cssSelectorBuilder.This,
   {| cssSelectorBuilder.res :=
        (cssSelectorBuilder.res this2 ++ [(r1 ++ " " ++ c ++ " " ++ r2)%string])%list |}).
Proof.
  unfold cssSelectorBuilder.combine, push.
  destruct (cssSelectorBuilder.stringify_of s1 this) as [r1 this1].
  destruct (cssSelectorBuilder.stringify_of s2 this1) as [r2 this2].
  repeat (rewrite ?append_assoc; cbn [append]). reflexivity.
Qed.

Lemma combine_instances (a b : CssSelector.t) (c : string)
    (this : cssSelectorBuilder.t) :
  cssSelectorBuilder.combine (cssSelectorBuilder.Instance a) c
    (cssSelectorBuilder.Instance b) this =
  (cssSelectorBuilder.This,
   {| cssSelectorBuilder.res :=
        (cssSelectorBuilder.res this ++ [combination (a, c, b)])%list |}).
Proof. rewrite combine_spec. reflexivity. Qed.

Lemma combine_all_instances (calls : list (CssSelector.t * string * CssSelector.t)) :
  forall this : cssSelectorBuilder.t,
    cssSelectorBuilder.res
      (cssSelectorBuilder.combine_all (cssSelectorBuilder.instances calls) this) =
    (cssSelectorBuilder.res this ++ map combination calls)%list.
Proof.
  induction calls as [|[[a c] b] calls IH]; intros this.
  - simpl. now rewrite app_nil_r.
  - cbn [cssSelectorBuilder.instances map cssSelectorBuilder.combine_all fold_left].
    change (fold_left _ (map _ calls) ?t) with
      (cssSelectorBuilder.combine_all (cssSelectorBuilder.instances calls) t).
    rewrite IH. unfold cssSelectorBuilder.combine_. rewrite combine_instances.
    cbn [snd cssSelectorBuilder.res]. rewrite <- app_assoc. reflexivity.
Qed.

(** Every [combine(...).stringify()] statement leaves [res] empty. *)
Lemma combine_stringify_all_flushed
    (calls : list (cssSelectorBuilder.selector * string * cssSelectorBuilder.selector)) :
  forall this : cssSelectorBuilder.t,
    cssSelectorBuilder.res this = [] ->
    cssSelectorBuilder.combine_stringify_all calls this = cssSelectorBuilder.initial.
Proof.
  induction calls as [|[[s1 c] s2] calls IH]; intros this Hres.
  - destruct this as [res]. simpl in *. now subst.
  - cbn [cssSelectorBuilder.combine_stringify_all fold_left].
    apply IH. unfold cssSelectorBuilder.combine_stringify_.
    rewrite combine_spec.
    destruct (cssSelectorBuilder.stringify_of s1 this) as [r1 this1].
    destruct (cssSelectorBuilder.stringify_of s2 this1) as [r2 this2].
    cbn [cssSelectorBuilder.stringify_of]. rewrite facade_stringify_spec. reflexivity.
Qed.

(** The nested combination on any facade: what is pending in [res] ends
    up between the inner combination and the outer combinator. *)
Lemma nested_spec (left mid right : CssSelector.t) (this : cssSelectorBuilder.t) :
  cssSelectorBuilder.nested left mid right this =
  ((CssSelector.stringify left ++ " + " ++ CssSelector.stringify mid ++
    String.concat "" (rev (cssSelectorBuilder.res this)) ++
    " ~ " ++ CssSelector.stringify right)%string,
   cssSelectorBuilder.initial).
Proof.
  unfold cssSelectorBuilder.nested.
  rewrite combine_instances, combine_spec.
  cbn [cssSelectorBuilder.stringify_of]. rewrite !facade_stringify_spec.
  cbn [cssSelectorBuilder.res cssSelectorBuilder.initial app rev].
  rewrite rev_app_distr. cbn [rev app]. rewrite !concat_cons.
  change (String.concat "" []) with "". rewrite append_nil_r.
  unfold combination.
  repeat (rewrite ?append_assoc; cbn [append]). reflexivity.
Qed.

(** The nested example of the source's documentation, on the initial
    facade: the innermost [combine] is evaluated first, each outer one
    renders the facade as its right operand. *)
Example documented_nested_combination :
  let a := snd (CssSelector.chain [(Kid, "main"); (Kclass, "container");
                                   (Kclass, "draggable")]
                  (cssSelectorBuilder.element "div")) in
  let b := snd (CssSelector.id "data" (cssSelectorBuilder.element "table")) in
  let c := snd (CssSelector.pseudoClass "nth-of-type(even)"
                  (cssSelectorBuilder.element "tr")) in
  let d := snd (CssSelector.pseudoClass "nth-of-type(even)"
                  (cssSelectorBuilder.element "td")) in
  fst (let '(r3, this) :=
         cssSelectorBuilder.combine (cssSelectorBuilder.Instance c) " "
           (cssSelectorBuilder.Instance d) cssSelectorBuilder.initial in
       let '(r2, this) :=
         cssSelectorBuilder.combine (cssSelectorBuilder.Instance b) "~" r3 this in
       let '(r1, this) :=
         cssSelectorBuilder.combine (cssSelectorBuilder.Instance a) "+" r2 this in
       cssSelectorBuilder.stringify_of r1 this) =
  "div#main.container.draggable + table#data ~ tr:nth-of-type(even)   td:nth-of-type(even)".
Proof. reflexivity. Qed.

(** On a facade whose [res] is empty (as it is initially and after every
    facade [stringify]), [combine(left, c, right).stringify()] returns
    [render(left) + ' ' + c + ' ' + render(right)] and leaves [res] empty
    again. *)
Lemma combine_on_flushed_facade
    (left right : CssSelector.t) (c : string) (this : cssSelectorBuilder.t) :
  cssSelectorBuilder.res this = [] ->
  (let '(r, this') :=
     cssSelectorBuilder.combine (cssSelectorBuilder.Instance left) c
       (cssSelectorBuilder.Instance right) this in
   cssSelectorBuilder.stringify_of r this') =
  ((CssSelector.stringify left ++ " " ++ c ++ " " ++ CssSelector.stringify right)%string,
   cssSelectorBuilder.initial).
Proof.
  intros Hres. rewrite combine_instances. cbn [cssSelectorBuilder.stringify_of].
  rewrite facade_stringify_spec. cbn [cssSelectorBuilder.res]. rewrite Hres.
  cbn [app rev]. rewrite concat_cons. change (String.concat "" []) with "".
  rewrite append_nil_r. reflexivity.
Qed.

(** The instance of the specification, on the initial facade:
    [combine(builder.element('div').id('main'), '+',
    builder.element('table').id('data'))] renders to
    ['div#main + table#data']. *)
Example specified_combination :
  fst (let '(r, this') :=
         cssSelectorBuilder.combine
           (cssSelectorBuilder.Instance
              (snd (CssSelector.id "main" (cssSelectorBuilder.element "div"))))
           "+"
           (cssSelectorBuilder.Instance
              (snd (CssSelector.id "data" (cssSelectorBuilder.element "table"))))
           cssSelectorBuilder.initial in
       cssSelectorBuilder.stringify_of r this') =
  "div#main + table#data".
Proof. now rewrite combine_on_flushed_facade. Qed.

(** After any number of earlier combinations that were each rendered
    ([builder.combine(...).stringify()]), the nested combination returns
    [render(left) + ' + ' + render(mid) + ' ~ ' + render(right)]. *)
Lemma nested_combination_after_rendered_calls
    (prior : list (cssSelectorBuilder.selector * string * cssSelectorBuilder.selector))
    (left mid right : CssSelector.t) :
  cssSelectorBuilder.nested left mid right
    (cssSelectorBuilder.combine_stringify_all prior cssSelectorBuilder.initial) =
  ((CssSelector.stringify left ++ " + " ++ CssSelector.stringify mid ++ " ~ " ++
    CssSelector.stringify right)%string,
   cssSelectorBuilder.initial).
Proof.
  rewrite combine_stringify_all_flushed by reflexivity.
  rewrite nested_spec. reflexivity.
Qed.

(** Both operands of [combine] are combinations: they are the same facade
    object, so the first operand renders both pending results and the
    second renders nothing.  [builder.combine(builder.combine(a, '+', b),
    '~', builder.combine(c, '>', d)).stringify()] on the initial facade. *)
Example combination_of_two_combinations :
  let a := cssSelectorBuilder.element "a" in
  let b := cssSelectorBuilder.element "b" in
  let c := cssSelectorBuilder.element "c" in
  let d := cssSelectorBuilder.element "d" in
  fst (let '(r1, this) :=
         cssSelectorBuilder.combine (cssSelectorBuilder.Instance a) "+"
           (cssSelectorBuilder.Instance b) cssSelectorBuilder.initial in
       let '(r2, this) :=
         cssSelectorBuilder.combine (cssSelectorBuilder.Instance c) ">"
           (cssSelectorBuilder.Instance d) this in
       let '(r, this) := cssSelectorBuilder.combine r1 "~" r2 this in
       cssSelectorBuilder.stringify_of r this) =
  "c > da + b ~ ".
Proof. reflexivity. Qed.

(** C1: the claim says that [combine(left, c, right)] renders to
    [render(left) + ' ' + c + ' ' + render(right)] for every two selectors
    and every combinator; the code does not on a facade that holds the
    result of an earlier [combine] call.  After
    [builder.combine(builder.element('p'), '>', builder.element('q'))], the
    call [builder.combine(builder.element('div').id('main'), '+',
    builder.element('table').id('data')).stringify()] returns the new
    combination followed by the earlier one, ['div#main + table#datap > q'],
    not ['div#main + table#data']. *)
Lemma combine_after_pending_combination :
  let left := snd (CssSelector.id "main" (cssSelectorBuilder.element "div")) in
  let right := snd (CssSelector.id "data" (cssSelectorBuilder.element "table")) in
  let this :=
    cssSelectorBuilder.combine_all
      [(cssSelectorBuilder.Instance (cssSelectorBuilder.element "p"), ">",
        cssSelectorBuilder.Instance (cssSelectorBuilder.element "q"))]
      cssSelectorBuilder.initial in
  let rendered :=
    fst (let '(r, this') :=
           cssSelectorBuilder.combine (cssSelectorBuilder.Instance left) "+"
             (cssSelectorBuilder.Instance right) this in
         cssSelectorBuilder.stringify_of r this') in
  rendered = "div#main + table#datap > q" /\
  (CssSelector.stringify left ++ " " ++ "+" ++ " " ++ CssSelector.stringify right)%string =
    "div#main + table#data" /\
  rendered <>
    (CssSelector.stringify left ++ " " ++ "+" ++ " " ++ CssSelector.stringify right)%string.
Proof. repeat split. discriminate. Qed.

(** C2: the claim says that the nested combination renders to
    ['<left> + <mid> ~ <right>'] whatever earlier unrelated [combine] calls
    were made on the facade; the code does not.  The nested combination of
    [a], [b] and [c] renders to ['a + b ~ c'] on the fresh facade and to
    ['a + bp > q ~ c'] after one earlier call
    [builder.combine(builder.element('p'), '>', builder.element('q'))]. *)
Lemma nested_after_pending_combination :
  let left := cssSelectorBuilder.element "a" in
  let mid := cssSelectorBuilder.element "b" in
  let right := cssSelectorBuilder.element "c" in
  let prior :=
    [(cssSelectorBuilder.Instance (cssSelectorBuilder.element "p"), ">",
      cssSelectorBuilder.Instance (cssSelectorBuilder.element "q"))] in
  fst (cssSelectorBuilder.nested left mid right
         (cssSelectorBuilder.combine_all [] cssSelectorBuilder.initial)) =
    "a + b ~ c" /\
  fst (cssSelectorBuilder.nested left mid right
         (cssSelectorBuilder.combine_all prior cssSelectorBuilder.initial)) =
    "a + bp > q ~ c" /\
  fst (cssSelectorBuilder.nested left mid right
         (cssSelectorBuilder.combine_all [] cssSelectorBuilder.initial)) <>
  fst (cssSelectorBuilder.nested left mid right
         (cssSelectorBuilder.combine_all prior cssSelectorBuilder.initial)).
Proof. repeat split. discriminate. Qed.

(** C10: [combine] always returns the facade itself, after appending the
    rendered combination to the facade's [res]; the facade's [stringify()]
    concatenates the strings of [res] from the last pushed to the first,
    that is in reverse order of the [combine] calls, and empties [res]; so
    after every sequence of [combine] calls a second [stringify()] right
    after the first returns the empty string. *)
Theorem facade_accumulates_and_flushes :
  (forall s1 c s2 this,
      fst (cssSelectorBuilder.combine s1 c s2 this) = cssSelectorBuilder.This) /\
  (forall s1 c s2 this,
      let '(r1, this1) := cssSelectorBuilder.stringify_of s1 this in
      let '(r2, this2) := cssSelectorBuilder.stringify_of s2 this1 in
      cssSelectorBuilder.res (snd (cssSelectorBuilder.combine s1 c s2 this)) =
      (cssSelectorBuilder.res this2 ++ [(r1 ++ " " ++ c ++ " " ++ r2)%string])%list) /\
  (forall a c b this,
      cssSelectorBuilder.res
        (snd (cssSelectorBuilder.combine (cssSelectorBuilder.Instance a) c
                (cssSelectorBuilder.Instance b) this)) =
      (cssSelectorBuilder.res this ++
       [(CssSelector.stringify a ++ " " ++ c ++ " " ++ CssSelector.stringify b)%string])%list) /\
  (forall this,
      cssSelectorBuilder.stringify this =
      (String.concat "" (rev (cssSelectorBuilder.res this)),
       {| cssSelectorBuilder.res := [] |})) /\
  (forall calls this,
      fst (cssSelectorBuilder.stringify
             (cssSelectorBuilder.combine_all (cssSelectorBuilder.instances calls)
                this)) =
      String.concat "" (rev (cssSelectorBuilder.res this ++ map combination calls))) /\
  (forall calls this,
      let '(_, this1) :=
        cssSelectorBuilder.stringify (cssSelectorBuilder.combine_all calls this) in
      cssSelectorBuilder.stringify this1 = ("", {| cssSelectorBuilder.res := [] |})).
Proof.
  split; [|split; [|split; [|split; [|split]]]].
  - intros. rewrite combine_spec.
    destruct (cssSelectorBuilder.stringify_of s1 this) as [r1 this1].
    destruct (cssSelectorBuilder.stringify_of s2 this1) as [r2 this2]. reflexivity.
  - intros. rewrite combine_spec.
    destruct (cssSelectorBuilder.stringify_of s1 this) as [r1 this1].
    destruct (cssSelectorBuilder.stringify_of s2 this1) as [r2 this2]. reflexivity.
  - intros. rewrite combine_instances. reflexivity.
  - exact facade_stringify_spec.
  - intros. rewrite facade_stringify_spec, combine_all_instances. reflexivity.
  - intros. rewrite facade_stringify_spec. reflexivity.
Qed.

(** ** Rectangles and JSON *)

Section RectangleJSON.

Import JS.

Lemma string_length_append (s1 s2 : string) :
  String.length (s1 ++ s2) = (String.length s1 + String.length s2)%nat.
Proof. induction s1 as [|c s1 IH]; simpl; [reflexivity | now rewrite IH]. Qed.

(** *** Numbers *)

Lemma number_eqb_eq (x y : number) : number_eqb x y = true -> x = y.
Proof.
  destruct x, y; simpl; try discriminate; try reflexivity.
  - intros H. apply eqb_prop in H. now subst.
  - intros H. apply eqb_prop in H. now subst.
  - rewrite !andb_true_iff. intros [[H1 H2] H3].
    apply eqb_prop in H1. apply Pos.eqb_eq in H2. apply Z.eqb_eq in H3.
    now subst.
Qed.

Lemma number_eqb_refl (x : number) : number_eqb x x = true.
Proof.
  destruct x; simpl; rewrite ?eqb_reflx, ?Pos.eqb_refl, ?Z.eqb_refl; reflexivity.
Qed.

Lemma canonical_spec (m : positive) (e : Z) :
  canonical m e = true ->
  Zpos m < 2 ^ 53 /\ e <= 971 /\
  (2 ^ 52 <= Zpos m /\ -1074 <= e \/ e = -1074).
Proof.
  unfold canonical. rewrite !andb_true_iff, orb_true_iff, andb_true_iff.
  rewrite Z.ltb_lt, !Z.leb_le, Z.eqb_eq. tauto.
Qed.

Lemma pow2_pos (a : Z) : 0 <= a -> 0 < 2 ^ a.
Proof. intros H. now apply Z.pow_pos_nonneg. Qed.

Lemma pow2_lt (a b : Z) : 0 <= b -> 2 ^ a < 2 ^ b -> a < b.
Proof. intros Hb H. apply (Z.pow_lt_mono_r_iff 2); [lia | exact Hb | exact H]. Qed.

(** The fraction [num / den], equal to [m * 2 ^ e], divided by [2 ^ E]. *)
Lemma scale_exact (m num den e E : Z) :
  0 < den -> E <= e ->
  (0 <= e -> num = m * 2 ^ e * den) ->
  (e < 0 -> num * 2 ^ (- e) = m * den) ->
  exists b, 0 < b /\ scale num den E = (m * 2 ^ (e - E) * b, b).
Proof.
  intros Hden HE Hpos Hneg. unfold scale.
  destruct (Z.leb_spec 0 E) as [HE0 | HE0].
  - exists (den * 2 ^ E). split.
    + apply Z.mul_pos_pos; [exact Hden | now apply pow2_pos].
    + f_equal. rewrite Hpos by lia.
      replace e with ((e - E) + E) at 1 by lia.
      rewrite Z.pow_add_r by lia. ring.
  - exists den. split; [exact Hden|]. f_equal.
    destruct (Z.le_gt_cases 0 e) as [He | He].
    + rewrite Hpos by lia.
      replace (e - E) with (e + - E) by lia.
      rewrite Z.pow_add_r by lia. ring.
    + replace (- E) with (- e + (e - E)) by lia.
      rewrite Z.pow_add_r by lia.
      rewrite Z.mul_assoc, Hneg by lia. ring.
Qed.

Lemma log2_fraction (m num den e : Z) :
  0 < m -> 0 < den -> 0 < num ->
  (0 <= e -> num = m * 2 ^ e * den) ->
  (e < 0 -> num * 2 ^ (- e) = m * den) ->
  Z.log2 m + e <= Z.log2 num - Z.log2 den <= Z.log2 m + e + 1.
Proof.
  intros Hm Hden Hnum Hpos Hneg.
  pose proof (Z.log2_spec m Hm) as [HL1 HL2].
  pose proof (Z.log2_spec den Hden) as [HB1 HB2].
  pose proof (Z.log2_spec num Hnum) as [HA1 HA2].
  pose proof (Z.log2_nonneg m) as HL0.
  pose proof (Z.log2_nonneg den) as HB0.
  pose proof (Z.log2_nonneg num) as HA0.
  set (L := Z.log2 m) in *. set (B := Z.log2 den) in *. set (A := Z.log2 num) in *.
  replace (Z.succ L) with (L + 1) in HL2 by lia.
  replace (Z.succ B) with (B + 1) in HB2 by lia.
  replace (Z.succ A) with (A + 1) in HA2 by lia.
  pose proof (pow2_pos L HL0) as HpL. pose proof (pow2_pos B HB0) as HpB.
  pose proof (pow2_pos A HA0) as HpA.
  destruct (Z.le_gt_cases 0 e) as [He | He].
  - specialize (Hpos He). pose proof (pow2_pos e He) as Hpe.
    assert (H1 : 2 ^ (L + e + B) < 2 ^ (A + 1)).
    { rewrite !(Z.pow_add_r 2 (L + e)), (Z.pow_add_r 2 L e) by lia.
      apply Z.le_lt_trans with num; [|exact HA2]. rewrite Hpos.
      apply Z.mul_le_mono_nonneg; [nia | nia | lia | lia]. }
    assert (H2 : 2 ^ A < 2 ^ (L + e + B + 2)).
    { apply Z.le_lt_trans with num; [exact HA1|]. rewrite Hpos.
      replace (L + e + B + 2) with ((L + 1) + e + (B + 1)) by lia.
      rewrite !(Z.pow_add_r 2 (L + 1 + e)), (Z.pow_add_r 2 (L + 1) e) by lia.
      apply Z.mul_lt_mono_nonneg; [nia | nia | lia | lia]. }
    apply pow2_lt in H1; [|lia]. apply pow2_lt in H2; [|lia]. lia.
  - specialize (Hneg He). assert (He' : 0 <= - e) by lia.
    pose proof (pow2_pos (- e) He') as Hpe.
    assert (H1 : 2 ^ (A + - e) < 2 ^ ((L + 1) + (B + 1))).
    { rewrite (Z.pow_add_r 2 A), (Z.pow_add_r 2 (L + 1)) by lia.
      apply Z.le_lt_trans with (num * 2 ^ (- e)).
      - apply Z.mul_le_mono_nonneg_r; lia.
      - rewrite Hneg. apply Z.mul_lt_mono_nonneg; lia. }
    assert (H2 : 2 ^ (L + B) < 2 ^ ((A + 1) + - e)).
    { rewrite (Z.pow_add_r 2 L), (Z.pow_add_r 2 (A + 1)) by lia.
      apply Z.le_lt_trans with (m * den).
      - apply Z.mul_le_mono_nonneg; lia.
      - rewrite <- Hneg. apply Z.mul_lt_mono_pos_r; lia. }
    apply pow2_lt in H1; [|lia]. apply pow2_lt in H2; [|lia]. lia.
Qed.

Lemma nearest_even_exact (m b : Z) : 0 < b -> nearest_even (m * b) b = m.
Proof.
  intros Hb. unfold nearest_even.
  rewrite Z.div_mul, Z.mod_mul by lia.
  destruct (Z.ltb_spec (2 * 0) b); [reflexivity | lia].
Qed.

(** The Number value for the value of a double is that double. *)
Lemma Number_value_exact (negative : bool) (m : positive) (e num den : Z) :
  canonical m e = true ->
  0 < den ->
  (0 <= e -> num = Zpos m * 2 ^ e * den) ->
  (e < 0 -> num * 2 ^ (- e) = Zpos m * den) ->
  Number_value negative num den = Finite negative m e.
Proof.
  intros Hcan Hden Hpos Hneg.
  destruct (canonical_spec m e Hcan) as (Hm & He & Hshape).
  assert (Hnum : 0 < num).
  { destruct (Z.le_gt_cases 0 e) as [He0 | He0].
    - rewrite (Hpos He0). pose proof (pow2_pos e He0). nia.
    - specialize (Hneg He0). assert (H0 : 0 <= - e) by lia.
      pose proof (pow2_pos (- e) H0). nia. }
  pose proof (log2_fraction (Zpos m) num den e eq_refl Hden Hnum Hpos Hneg) as Hlog.
  unfold Number_value.
  set (E0 := Z.max (Z.log2 num - Z.log2 den - 53) (-1074)).
  assert (HE0 : E0 = e \/ E0 = e - 1 /\ 2 ^ 52 <= Zpos m).
  { destruct Hshape as [[Hnormal Hmin] | Hsub].
    - assert (HL : Z.log2 (Zpos m) = 52) by (apply Z.log2_unique; lia).
      unfold E0. lia.
    - assert (HL : Z.log2 (Zpos m) < 53) by (apply Z.log2_lt_pow2; lia).
      unfold E0. lia. }
  clearbody E0.
  destruct (scale_exact (Zpos m) num den e E0 Hden ltac:(lia) Hpos Hneg)
    as (b0 & Hb0 & Hscale0).
  rewrite Hscale0. rewrite Z.div_mul by lia.
  assert (HE : (if Zpos m * 2 ^ (e - E0) <? 2 ^ 53 then E0 else E0 + 1) = e).
  { destruct HE0 as [-> | [-> Hnormal]].
    - rewrite Z.sub_diag. change (2 ^ 0) with 1. rewrite Z.mul_1_r.
      destruct (Z.ltb_spec (Zpos m) (2 ^ 53)); [reflexivity | lia].
    - replace (e - (e - 1)) with 1 by lia. change (2 ^ 1) with 2.
      destruct (Z.ltb_spec (Zpos m * 2) (2 ^ 53)); lia. }
  rewrite HE.
  destruct (scale_exact (Zpos m) num den e e Hden ltac:(lia) Hpos Hneg)
    as (b & Hb & Hscale).
  rewrite Hscale, Z.sub_diag. change (2 ^ 0) with 1. rewrite Z.mul_1_r.
  rewrite (nearest_even_exact (Zpos m) b Hb).
  destruct (Z.eqb_spec (Zpos m) (2 ^ 53)) as [Heq | _]; [lia|].
  destruct (Z.leb_spec e 971); [reflexivity | lia].
Qed.

(** At an exponent [t] below both 0 and [e], the decimal with exponent
    [t] that equals [m * 2 ^ e] is the first candidate, and [m * 2 ^ e]
    is read back from it. *)
Lemma exact_candidate (negative : bool) (m : positive) (e t : Z) :
  canonical m e = true ->
  t <= 0 -> t <= e ->
  exists q,
    candidates (fst (fraction m e)) (snd (fraction m e)) t = (q, q + 1) /\
    0 < q /\
    from_decimal negative q t = Finite negative m e.
Proof.
  intros Hcan Ht0 Hte. unfold fraction, candidates, from_decimal.
  assert (Hp10 : 0 < 10 ^ (- t)) by (apply Z.pow_pos_nonneg; lia).
  assert (Hexact : forall a b q, 0 < b -> a = q * b ->
             (if nearest_even a b =? a / b
              then (a / b, a / b + 1)
              else (a / b + 1, a / b)) = (q, q + 1)).
  { intros a b q Hb ->. rewrite nearest_even_exact, Z.div_mul by lia.
    now rewrite Z.eqb_refl. }
  destruct (Z.leb_spec 0 e) as [He | He]; cbn [fst snd].
  - pose proof (pow2_pos e He) as Hpe.
    destruct (Z.leb_spec 0 t) as [Ht | Ht]; cbv zeta.
    + assert (t = 0) by lia. subst t. change (10 ^ 0) with 1.
      exists (Zpos m * 2 ^ e). split; [|split].
      * apply Hexact; [lia | ring].
      * nia.
      * apply Number_value_exact; try assumption; try lia.
    + exists (Zpos m * 2 ^ e * 10 ^ (- t)). split; [|split].
      * apply Hexact; [lia | ring].
      * nia.
      * apply Number_value_exact; try assumption; try lia.
  - destruct (Z.leb_spec 0 t) as [Ht | Ht]; [lia|]. cbv zeta.
    assert (H10 : 10 ^ (- t) = 5 ^ (- t) * 2 ^ (e - t) * 2 ^ (- e)).
    { change 10 with (5 * 2). rewrite Z.pow_mul_l.
      replace (- t) with ((e - t) + - e) at 2 by lia.
      rewrite Z.pow_add_r by lia. ring. }
    assert (Hp5 : 0 < 5 ^ (- t)) by (apply Z.pow_pos_nonneg; lia).
    assert (Hp2 : 0 < 2 ^ (e - t)) by (apply pow2_pos; lia).
    assert (Hpe : 0 < 2 ^ (- e)) by (apply pow2_pos; lia).
    exists (Zpos m * 5 ^ (- t) * 2 ^ (e - t)). split; [|split].
    + apply Hexact; [lia | rewrite H10; ring].
    + nia.
    + apply Number_value_exact; try assumption; try lia.
Qed.

Lemma shortest_sound (fuel : nat) :
  forall (x : number) (negative : bool) (num den t s t' : Z),
    shortest fuel x negative num den t = Some (s, t') ->
    0 < s /\ from_decimal negative s t' = x.
Proof.
  assert (Hfound : forall x negative s t,
             (0 <? s) && number_eqb (from_decimal negative s t) x = true ->
             0 < s /\ from_decimal negative s t = x).
  { intros x negative s t H. apply andb_true_iff in H. destruct H as [Hs Heq].
    split; [now apply Z.ltb_lt | now apply number_eqb_eq]. }
  induction fuel as [|fuel IH]; intros x negative num den t s t';
    cbn [shortest]; destruct (candidates num den t) as [s1 s2];
    (destruct ((0 <? s1) && _) eqn:H1;
     [intros Heq; inversion Heq; subst; now apply Hfound|]);
    (destruct ((0 <? s2) && _) eqn:H2;
     [intros Heq; inversion Heq; subst; now apply Hfound|]).
  - intros Heq. discriminate Heq.
  - apply IH.
Qed.

Lemma shortest_total (fuel : nat) :
  forall (negative : bool) (m : positive) (e t : Z),
    canonical m e = true ->
    t - Z.of_nat fuel <= Z.min 0 e ->
    exists s t',
      shortest fuel (Finite negative m e) negative
        (fst (fraction m e)) (snd (fraction m e)) t = Some (s, t').
Proof.
  induction fuel as [|fuel IH]; intros negative m e t Hcan Ht; cbn [shortest].
  - destruct (exact_candidate negative m e t Hcan) as (q & -> & Hq & Hval);
      try lia.
    rewrite Hval, number_eqb_refl.
    destruct (Z.ltb_spec 0 q); [|lia]. cbn [andb]. eauto.
  - destruct (candidates _ _ t) as [s1 s2].
    destruct (_ && _); [eauto|]. destruct (_ && _); [eauto|].
    apply IH; [exact Hcan | lia].
Qed.

(** **** Strings of digits *)

Lemma span_digits_app (ds rest : string) :
  all_digits ds = true -> no_digit rest ->
  JSON.span_digits (ds ++ rest) = (ds, rest).
Proof.
  intros Hds Hrest. induction ds as [|c ds IH].
  - destruct rest as [|c rest]; [reflexivity|].
    cbn [append JSON.span_digits]. cbn [no_digit] in Hrest. now rewrite Hrest.
  - cbn [all_digits] in Hds. apply andb_true_iff in Hds. destruct Hds as [Hc Hds].
    cbn [append JSON.span_digits]. rewrite Hc, (IH Hds). reflexivity.
Qed.

Lemma all_digits_app (a b : string) :
  all_digits (a ++ b) = all_digits a && all_digits b.
Proof.
  induction a as [|c a IH]; [reflexivity|].
  cbn [append all_digits]. rewrite IH. now rewrite andb_assoc.
Qed.

Lemma all_digits_zeros (j : nat) : all_digits (zeros j) = true.
Proof. induction j as [|j IH]; [reflexivity | exact IH]. Qed.

Lemma all_digits_uint (d : Decimal.uint) :
  all_digits (DecimalString.NilEmpty.string_of_uint d) = true.
Proof. induction d; simpl; try reflexivity; assumption. Qed.

Lemma all_digits_digits (p : positive) : all_digits (digits p) = true.
Proof. apply all_digits_uint. Qed.

Lemma length_zeros (j : nat) : String.length (zeros j) = j.
Proof. induction j as [|j IH]; simpl; [reflexivity | now rewrite IH]. Qed.

Lemma digits_value_app (a b : string) :
  forall acc, JSON.digits_value acc (a ++ b) = JSON.digits_value (JSON.digits_value acc a) b.
Proof. induction a as [|c a IH]; intros acc; [reflexivity | apply IH]. Qed.

Lemma digits_value_zeros (j : nat) :
  forall acc, JSON.digits_value acc (zeros j) = acc * 10 ^ Z.of_nat j.
Proof.
  induction j as [|j IH]; intros acc.
  - cbn [zeros JSON.digits_value]. change (10 ^ Z.of_nat 0) with 1. lia.
  - cbn [zeros JSON.digits_value]. rewrite IH.
    change (Z.of_nat (nat_of_ascii "0") - 48) with 0.
    rewrite Nat2Z.inj_succ, Z.pow_succ_r by lia. ring.
Qed.

Lemma digits_value_acc (d : Decimal.uint) :
  forall acc : positive,
    JSON.digits_value (Zpos acc) (DecimalString.NilEmpty.string_of_uint d) =
    Zpos (Pos.of_uint_acc d acc).
Proof.
  induction d; intros acc; cbn [DecimalString.NilEmpty.string_of_uint
    JSON.digits_value Pos.of_uint_acc]; try reflexivity; rewrite <- IHd; f_equal;
    match goal with
    | |- context [Z.of_nat (nat_of_ascii ?c) - 48] =>
        let v := eval vm_compute in (Z.of_nat (nat_of_ascii c) - 48) in
        change (Z.of_nat (nat_of_ascii c) - 48) with v
    end; lia.
Qed.

Lemma digits_value_uint (d : Decimal.uint) :
  JSON.digits_value 0 (DecimalString.NilEmpty.string_of_uint d) =
  Z.of_N (Pos.of_uint d).
Proof.
  induction d; cbn [DecimalString.NilEmpty.string_of_uint JSON.digits_value
    Pos.of_uint]; try reflexivity; try exact IHd;
    cbn [Z.of_N]; rewrite <- digits_value_acc; reflexivity.
Qed.

Lemma digits_value_digits (p : positive) : JSON.digits_value 0 (digits p) = Zpos p.
Proof.
  unfold digits. rewrite digits_value_uint, DecimalPos.Unsigned.of_to.
  reflexivity.
Qed.

Lemma nzhead_not_D0 (d d' : Decimal.uint) : Decimal.nzhead d <> Decimal.D0 d'.
Proof. induction d; simpl; try discriminate. exact IHd. Qed.

(** The decimal digits of a positive number start with a non-zero digit. *)
Lemma to_uint_head (p : positive) :
  match Pos.to_uint p with
  | Decimal.Nil | Decimal.D0 _ => False
  | _ => True
  end.
Proof.
  pose proof (DecimalPos.Unsigned.to_of (Pos.to_uint p)) as H.
  rewrite DecimalPos.Unsigned.of_to in H. simpl N.to_uint in H.
  pose proof (DecimalPos.Unsigned.to_uint_nonzero p) as Hnz.
  destruct (Pos.to_uint p) as [|d| | | | | | | | |]; try exact I.
  - discriminate H.
  - unfold Decimal.unorm in H. simpl Decimal.nzhead in H.
    destruct (Decimal.nzhead d) eqn:Hd;
      try (symmetry in H; rewrite <- Hd in H; exact (nzhead_not_D0 _ _ H)).
    apply Hnz. exact H.
Qed.

(** The digits of a positive number: a first digit that is not 0, and
    more digits. *)
Lemma digits_head (p : positive) :
  exists c ds,
    digits p = String c ds /\ is_digit c = true /\ Ascii.eqb c "0" = false.
Proof.
  pose proof (to_uint_head p) as Hhead. unfold digits.
  destruct (Pos.to_uint p); try contradiction;
    cbn [DecimalString.NilEmpty.string_of_uint];
    eexists; eexists; (split; [reflexivity | split; reflexivity]).
Qed.

(** **** Reading a number back *)

Lemma terminated_no_digit (rest : string) : terminated rest -> no_digit rest.
Proof. intros (c & rest' & -> & [-> | ->]); reflexivity. Qed.

Lemma terminated_no_point (rest : string) : terminated rest -> no_point rest.
Proof. intros (c & rest' & -> & [-> | ->]); reflexivity. Qed.

Lemma parse_exponent_none (rest : string) :
  terminated rest -> JSON.parse_exponent rest = Some (0, rest).
Proof. intros (c & rest' & -> & [-> | ->]); reflexivity. Qed.

Lemma parse_exponent_some (negative : bool) (q : positive) (rest : string) :
  terminated rest ->
  JSON.parse_exponent
    (String "e" ((if negative then "-" else "+") ++ digits q ++ rest)) =
  Some (if negative then Zneg q else Zpos q, rest).
Proof.
  intros Hrest. cbn [JSON.parse_exponent Ascii.eqb Bool.eqb orb].
  assert (Hsign : JSON.parse_sign ((if negative then "-" else "+") ++ digits q ++ rest) =
                  (negative, digits q ++ rest)) by (destruct negative; reflexivity).
  rewrite Hsign.
  rewrite span_digits_app
    by (first [apply all_digits_digits | now apply terminated_no_digit]).
  destruct (digits_head q) as (c & ds & Hds & _).
  rewrite digits_value_digits. rewrite Hds. cbn [String.eqb].
  destruct negative; reflexivity.
Qed.

Lemma parse_decimal_integer (negative : bool) (int tail rest : string) (ex : Z) :
  integer_part int -> no_digit tail -> no_point tail ->
  JSON.parse_exponent tail = Some (ex, rest) ->
  JSON.parse_decimal negative (int ++ tail) =
  Some (from_decimal negative (JSON.digits_value 0 int) ex, rest).
Proof.
  intros (Hint & c & int' & -> & Hhead) Hdigit Hpoint Hex.
  unfold JSON.parse_decimal. rewrite (span_digits_app _ tail Hint Hdigit), Hhead.
  assert (Hfrac : JSON.parse_fraction tail = Some ("", tail)).
  { destruct tail as [|c' tail]; [reflexivity|].
    cbn [no_point] in Hpoint. cbn [JSON.parse_fraction]. now rewrite Hpoint. }
  rewrite Hfrac, Hex, append_nil_r. cbn [String.length Z.of_nat].
  now rewrite Z.sub_0_r.
Qed.

Lemma parse_decimal_point (negative : bool) (int frac tail rest : string) (ex : Z) :
  integer_part int -> all_digits frac = true -> frac <> "" -> no_digit tail ->
  JSON.parse_exponent tail = Some (ex, rest) ->
  JSON.parse_decimal negative (int ++ String "." (frac ++ tail)) =
  Some (from_decimal negative (JSON.digits_value 0 (int ++ frac))
          (ex - Z.of_nat (String.length frac)),
        rest).
Proof.
  intros (Hint & c & int' & -> & Hhead) Hfrac Hne Hdigit Hex.
  unfold JSON.parse_decimal.
  rewrite (span_digits_app _ (String "." (frac ++ tail)) Hint) by reflexivity.
  rewrite Hhead. cbn [JSON.parse_fraction Ascii.eqb Bool.eqb].
  rewrite (span_digits_app frac tail Hfrac Hdigit).
  destruct frac as [|c' frac]; [contradiction|]. cbn [String.eqb].
  now rewrite Hex.
Qed.

Lemma from_decimal_shift (negative : bool) (s j : Z) :
  0 <= j -> from_decimal negative (s * 10 ^ j) 0 = from_decimal negative s j.
Proof.
  intros Hj. unfold from_decimal. cbn [Z.leb Z.compare].
  destruct (Z.leb_spec 0 j); [|lia].
  change (10 ^ 0) with 1. now rewrite Z.mul_1_r.
Qed.

Lemma split_at_spec (n : nat) :
  forall s : string,
    (n <= String.length s)%nat ->
    exists a b, split_at n s = (a, b) /\ s = a ++ b /\ String.length a = n.
Proof.
  induction n as [|n IH]; intros s Hlen.
  - exists "", s. destruct s; repeat split; reflexivity.
  - destruct s as [|c s]; [simpl in Hlen; lia|].
    destruct (IH s) as (a & b & Hsplit & -> & Ha); [simpl in Hlen; lia|].
    exists (String c a), b. cbn [split_at]. rewrite Hsplit.
    repeat split. simpl. now rewrite Ha.
Qed.

Lemma integer_part_digits (p : positive) : integer_part (digits p).
Proof.
  destruct (digits_head p) as (c & ds & Hds & _ & Hc0).
  split; [apply all_digits_digits|].
  exists c, ds. split; [exact Hds|]. now rewrite Hc0.
Qed.

Lemma Number_format_cases (ds : string) (t : Z) :
  let k := Z.of_nat (String.length ds) in
  let n := t + k in
  k <= n <= 21 /\ Number_format ds t = ds ++ zeros (Z.to_nat (n - k)) \/
  (0 < n < k /\ n <= 21) /\
    Number_format ds t =
    (let '(int, frac) := split_at (Z.to_nat n) ds in int ++ "." ++ frac) \/
  (-6 < n <= 0 /\ n < k) /\
    Number_format ds t = "0." ++ zeros (Z.to_nat (- n)) ++ ds \/
  (n <= -6 \/ 21 < n) /\
    Number_format ds t =
    match ds with
    | String c (String c' ds') => String c ("." ++ String c' ds')
    | _ => ds
    end ++ "e" ++ (if n - 1 <? 0 then "-" else "+") ++
    digits (Z.to_pos (Z.abs (n - 1))).
Proof.
  intros k n. unfold Number_format. fold k. fold n.
  assert (Hk : 0 <= k) by (unfold k; lia).
  destruct (Z.leb_spec k n), (Z.leb_spec n 21), (Z.ltb_spec 0 n),
    (Z.ltb_spec (-6) n), (Z.leb_spec n 0); cbn [andb];
    first [ left; split; [lia | reflexivity]
          | right; left; split; [lia | reflexivity]
          | right; right; left; split; [lia | reflexivity]
          | right; right; right; split; [lia | reflexivity] ].
Qed.

(** What [String(x)] lays out for [s * 10 ^ t] is read back as the Number
    value for [s * 10 ^ t]. *)
Lemma parse_decimal_format (negative : bool) (p : positive) (t : Z) (rest : string) :
  terminated rest ->
  JSON.parse_decimal negative (Number_format (digits p) t ++ rest) =
  Some (from_decimal negative (Zpos p) t, rest).
Proof.
  intros Hrest.
  pose proof (terminated_no_digit rest Hrest) as Hnd.
  pose proof (terminated_no_point rest Hrest) as Hnp.
  pose proof (parse_exponent_none rest Hrest) as Hex0.
  pose proof (digits_value_digits p) as Hvalue.
  pose proof (all_digits_digits p) as Hall.
  destruct (digits_head p) as (c & ds & Hds & Hc & Hc0).
  pose proof (Number_format_cases (digits p) t) as Hcases.
  set (k := Z.of_nat (String.length (digits p))) in *.
  assert (Hk : k = 1 + Z.of_nat (String.length ds))
    by (unfold k; rewrite Hds; cbn [String.length]; lia).
  cbv zeta in Hcases.
  destruct Hcases as [[Hn ->] | [[Hn ->] | [[Hn ->] | [Hn ->]]]].
  - (* an integer *)
    rewrite (parse_decimal_integer negative _ rest rest 0); try assumption.
    + rewrite digits_value_app, Hvalue, digits_value_zeros.
      rewrite Z2Nat.id by lia. replace (t + k - k) with t by lia.
      now rewrite from_decimal_shift by lia.
    + split; [rewrite all_digits_app, Hall; apply all_digits_zeros|].
      rewrite Hds. exists c, (ds ++ zeros (Z.to_nat (t + k - k))).
      split; [reflexivity|]. now rewrite Hc0.
  - (* a point inside the digits *)
    destruct (split_at_spec (Z.to_nat (t + k)) (digits p))
      as (a & b & Hsplit & Hab & Ha); [unfold k in *; lia|].
    rewrite Hsplit. rewrite Hab in Hall, Hvalue.
    rewrite all_digits_app in Hall. apply andb_true_iff in Hall.
    destruct Hall as [Halla Hallb].
    assert (Hlen : k = Z.of_nat (String.length a) + Z.of_nat (String.length b)).
    { unfold k. rewrite Hab, string_length_append. lia. }
    rewrite append_assoc. cbn [append].
    rewrite (parse_decimal_point negative a b rest rest 0); try assumption.
    + rewrite Hvalue. do 3 f_equal. lia.
    + split; [exact Halla|].
      destruct a as [|c1 a']; [cbn [String.length] in Ha; lia|].
      rewrite Hds in Hab. cbn [append] in Hab. injection Hab as <- _.
      exists c, a'. split; [reflexivity|]. now rewrite Hc0.
    + intros ->. cbn [String.length] in Hlen. lia.
  - (* a point before the digits *)
    cbn [append].
    change (String "0" (String "." ?x)) with ("0" ++ String "." x).
    rewrite (parse_decimal_point negative "0" _ rest rest 0); try assumption.
    + rewrite digits_value_app. cbn [JSON.digits_value].
      rewrite digits_value_app, digits_value_zeros, Z.mul_0_l, Hvalue.
      do 3 f_equal. rewrite string_length_append, length_zeros. fold k. lia.
    + split; [reflexivity|]. exists "0"%char, "". split; reflexivity.
    + rewrite all_digits_app, Hall, all_digits_zeros. reflexivity.
    + rewrite Hds. destruct (Z.to_nat (- (t + k))); discriminate.
  - (* an exponent *)
    set (q := Z.to_pos (Z.abs (t + k - 1))).
    assert (Hq : (if t + k - 1 <? 0 then Zneg q else Zpos q) = t + k - 1).
    { unfold q. destruct (Z.ltb_spec (t + k - 1) 0).
      - rewrite <- Pos2Z.opp_pos, Z2Pos.id by lia. lia.
      - rewrite Z2Pos.id by lia. lia. }
    pose proof (parse_exponent_some (t + k - 1 <? 0) q rest Hrest) as Hexp.
    rewrite Hq in Hexp.
    rewrite Hds in *. destruct ds as [|c' ds'].
    + rewrite append_assoc. cbn [append]. rewrite append_assoc.
      change (String c (String "e" ?x)) with (String c "" ++ String "e" x).
      rewrite (parse_decimal_integer negative _ _ rest (t + k - 1));
        try assumption; try reflexivity.
      * rewrite Hvalue. do 3 f_equal. cbn [String.length] in Hk. lia.
      * split; [exact Hall|]. exists c, "". split; [reflexivity|].
        now rewrite Hc0.
    + rewrite append_assoc. cbn [append]. rewrite ?append_assoc.
      cbn [append]. rewrite ?append_assoc.
      change (String c (String "." (String c' (ds' ++ ?x))))
        with (String c "" ++ String "." (String c' ds' ++ x)).
      rewrite (parse_decimal_point negative _ _ _ rest (t + k - 1));
        try assumption; try reflexivity; try discriminate.
      * cbn [append]. rewrite Hvalue. do 3 f_equal.
        cbn [String.length] in *. lia.
      * split; [|exists c, ""; split; [reflexivity | now rewrite Hc0]].
        cbn [all_digits] in *. now rewrite Hc.
      * cbn [all_digits] in Hall. apply andb_true_iff in Hall. tauto.
Qed.

Lemma parse_number_unsigned (s : string) (r : number * string) :
  JSON.parse_decimal false s = Some r -> JSON.parse_number s = Some r.
Proof.
  destruct s as [|c s]; [discriminate|]. unfold JSON.parse_number.
  destruct (Ascii.eqb_spec c "-") as [-> | _]; [discriminate | trivial].
Qed.

(** The text of a finite number is read back as that number. *)
Lemma parse_number_toString (x : number) (rest : string) :
  finite x = true ->
  terminated rest ->
  exists text,
    Number_toString x = Some text /\
    JSON.parse_number (text ++ rest) = Some (positive_zero x, rest).
Proof.
  intros Hfinite Hrest. destruct x as [| |negative|negative m e];
    try discriminate.
  - exists "0". split; [reflexivity|]. apply parse_number_unsigned.
    rewrite (parse_decimal_integer false "0" rest rest 0).
    + reflexivity.
    + split; [reflexivity|]. exists "0"%char, "". split; reflexivity.
    + now apply terminated_no_digit.
    + now apply terminated_no_point.
    + now apply parse_exponent_none.
  - cbn [finite] in Hfinite. cbn [Number_toString positive_zero].
    destruct (shortest_total (Z.to_nat (above m e - Z.min 0 e)) negative m e
                (above m e) Hfinite) as (s & t & Hshortest); [lia|].
    destruct (fraction m e) as [num den]. cbn [fst snd] in Hshortest.
    rewrite Hshortest.
    destruct (shortest_sound _ _ _ _ _ _ _ _ Hshortest) as [Hs Hvalue].
    eexists. split; [reflexivity|].
    pose proof (parse_decimal_format negative (Z.to_pos s) t rest Hrest) as Hparse.
    rewrite Z2Pos.id, Hvalue in Hparse by exact Hs.
    destruct negative; cbn [append].
    + exact Hparse.
    + now apply parse_number_unsigned.
Qed.

(** **** The Number value is a double *)

Lemma pow2_le (a b : Z) : 0 <= a -> a <= b -> 2 ^ a <= 2 ^ b.
Proof. intros Ha Hab. apply Z.pow_le_mono_r; lia. Qed.

(** Bounds on [num / den] divided by [2 ^ E], from the number of bits of
    [num] and [den]. *)
Lemma scale_bounds (num den E : Z) :
  0 < num -> 0 < den ->
  exists a b,
    scale num den E = (a, b) /\ 0 < b /\ 0 <= a /\
    (forall k, 0 <= k -> Z.log2 num - Z.log2 den + 1 - E <= k -> a < 2 ^ k * b) /\
    (forall k, 0 <= k -> k <= Z.log2 num - Z.log2 den - 1 - E -> 2 ^ k * b <= a).
Proof.
  intros Hnum Hden.
  pose proof (Z.log2_spec num Hnum) as [HA1 HA2].
  pose proof (Z.log2_spec den Hden) as [HB1 HB2].
  pose proof (Z.log2_nonneg num) as HA0.
  pose proof (Z.log2_nonneg den) as HB0.
  set (A := Z.log2 num) in *. set (B := Z.log2 den) in *.
  replace (Z.succ A) with (A + 1) in HA2 by lia.
  replace (Z.succ B) with (B + 1) in HB2 by lia.
  unfold scale. destruct (Z.leb_spec 0 E) as [HE | HE].
  - pose proof (pow2_pos E HE) as HpE.
    exists num, (den * 2 ^ E). split; [reflexivity|].
    split; [nia|]. split; [lia|]. split; intros k Hk Hle.
    + pose proof (pow2_pos k Hk) as Hpk.
      assert (H : 2 ^ (A + 1) <= 2 ^ k * (2 ^ B * 2 ^ E)).
      { rewrite <- !Z.pow_add_r by lia. apply pow2_le; lia. }
      nia.
    + pose proof (pow2_pos k Hk) as Hpk.
      assert (H : 2 ^ k * (2 ^ (B + 1) * 2 ^ E) <= 2 ^ A).
      { rewrite <- !Z.pow_add_r by lia. apply pow2_le; lia. }
      nia.
  - assert (HE' : 0 <= - E) by lia. pose proof (pow2_pos (- E) HE') as HpE.
    exists (num * 2 ^ (- E)), den. split; [reflexivity|].
    split; [lia|]. split; [nia|]. split; intros k Hk Hle.
    + pose proof (pow2_pos k Hk) as Hpk.
      assert (H : 2 ^ (A + 1) * 2 ^ (- E) <= 2 ^ k * 2 ^ B).
      { rewrite <- !Z.pow_add_r by lia. apply pow2_le; lia. }
      nia.
    + pose proof (pow2_pos k Hk) as Hpk.
      assert (H : 2 ^ k * 2 ^ (B + 1) <= 2 ^ A * 2 ^ (- E)).
      { rewrite <- !Z.pow_add_r by lia. apply pow2_le; lia. }
      nia.
Qed.

(** The fraction at the next exponent is half the fraction. *)
Lemma scale_succ (num den E a b a' b' : Z) :
  scale num den E = (a, b) ->
  scale num den (E + 1) = (a', b') ->
  a * b' = 2 * a' * b.
Proof.
  unfold scale.
  destruct (Z.leb_spec 0 E) as [HE | HE];
    destruct (Z.leb_spec 0 (E + 1)) as [HE' | HE'];
    intros H H'; inversion H; inversion H'; subst; try lia.
  - rewrite Z.pow_add_r by lia. change (2 ^ 1) with 2. ring.
  - assert (E = -1) by lia. subst E. change (2 ^ (- (-1))) with 2.
    change (2 ^ (-1 + 1)) with 1. ring.
  - replace (- E) with (- (E + 1) + 1) by lia.
    rewrite Z.pow_add_r by lia. change (2 ^ 1) with 2. ring.
Qed.

Lemma quotient_bounds (a b lo hi : Z) :
  0 < b -> lo * b <= a -> a < hi * b -> lo <= a / b < hi.
Proof.
  intros Hb Hlo Hhi. split.
  - apply Z.div_le_lower_bound; lia.
  - apply Z.div_lt_upper_bound; lia.
Qed.

Lemma nearest_even_bounds (a b : Z) :
  0 < b -> a / b <= nearest_even a b <= a / b + 1.
Proof.
  intros Hb. unfold nearest_even.
  destruct (2 * (a mod b) <? b); [lia|].
  destruct (b <? 2 * (a mod b)); [lia|].
  destruct (Z.even (a / b)); lia.
Qed.

(** The Number value for a fraction is a double. *)
Lemma Number_value_is_double (negative : bool) (num den : Z) :
  0 <= num -> 0 < den -> is_double (Number_value negative num den) = true.
Proof.
  intros Hnum Hden. unfold Number_value.
  destruct (Z.eq_dec num 0) as [-> | Hnz].
  { assert (Hzero : forall E, exists b, 0 < b /\ scale 0 den E = (0, b)).
    { intros E. unfold scale. destruct (Z.leb_spec 0 E) as [HE | HE].
      - exists (den * 2 ^ E). split; [|reflexivity].
        pose proof (pow2_pos E HE). nia.
      - exists den. split; [exact Hden | reflexivity]. }
    repeat match goal with
           | |- context [scale 0 den ?E] =>
               let b := fresh "b" in
               let Hb := fresh "Hb" in
               let Hs := fresh "Hs" in
               destruct (Hzero E) as (b & Hb & Hs); rewrite Hs;
               rewrite ?Z.div_0_l by lia; cbn [Z.ltb Z.compare]
           end.
    unfold nearest_even. rewrite Z.div_0_l, Z.mod_0_l by lia.
    match goal with
    | |- context [2 * 0 <? ?b] => destruct (Z.ltb_spec (2 * 0) b); [reflexivity | lia]
    end. }
  set (E0 := Z.max (Z.log2 num - Z.log2 den - 53) (-1074)).
  assert (Hpos : 0 < num) by lia.
  destruct (scale_bounds num den E0 Hpos Hden)
    as (a0 & b0 & Hscale0 & Hb0 & Ha0 & Hupper0 & Hlower0).
  rewrite Hscale0.
  set (E := if a0 / b0 <? 2 ^ 53 then E0 else E0 + 1).
  destruct (scale_bounds num den E Hpos Hden)
    as (a & b & Hscale & Hb & Ha & Hupper & Hlower).
  rewrite Hscale.
  pose proof (nearest_even_bounds a b Hb) as Hnear.
  assert (Hq : 0 <= a / b < 2 ^ 53 /\ -1074 <= E /\
               (E = -1074 \/ 2 ^ 52 <= a / b)).
  { unfold E in *. clear E.
    destruct (Z.ltb_spec (a0 / b0) (2 ^ 53)) as [Hlt | Hge].
    - rewrite Hscale0 in Hscale. inversion Hscale. subst a b.
      split; [split; [apply Z.div_pos; lia | exact Hlt]|].
      split; [unfold E0; lia|].
      destruct (Z.max_spec (Z.log2 num - Z.log2 den - 53) (-1074))
        as [[Hlt' Hmax] | [Hle' Hmax]]; fold E0 in Hmax; [left; exact Hmax|].
      right. apply Z.div_le_lower_bound; [lia|].
      rewrite Z.mul_comm. apply Hlower0; lia.
    - destruct (Z.max_spec (Z.log2 num - Z.log2 den - 53) (-1074))
        as [[Hlt' Hmax] | [Hle' Hmax]]; fold E0 in Hmax.
      + (* at [-1074] the quotient is below [2 ^ 53] *)
        exfalso.
        assert (a0 / b0 < 2 ^ 53); [|lia].
        apply Z.div_lt_upper_bound; [lia|].
        rewrite Z.mul_comm.
        apply Z.lt_le_trans
          with (2 ^ Z.max 0 (Z.log2 num - Z.log2 den + 1 - E0) * b0).
        * apply Hupper0; lia.
        * apply Z.mul_le_mono_nonneg_r; [lia|]. apply pow2_le; lia.
      + pose proof (scale_succ num den E0 a0 b0 a b Hscale0 Hscale) as Hhalf.
        assert (H53 : 2 ^ 53 * b0 <= a0).
        { pose proof (Z.mul_div_le a0 b0 Hb0). nia. }
        split; [|split; [lia|right]].
        * apply quotient_bounds; [exact Hb | lia |].
          rewrite Z.mul_comm. rewrite Z.mul_comm. apply Hupper; lia.
        * apply Z.div_le_lower_bound; [lia|]. nia. }
  destruct Hq as ([Hq0 Hq53] & HE & Hnormal).
  set (m := nearest_even a b) in *.
  destruct (Z.eqb_spec m (2 ^ 53)) as [Heq | Hne].
  - change (2 ^ 52) with (Zpos 4503599627370496).
    destruct (Z.leb_spec (E + 1) 971) as [Hle | Hgt]; [|reflexivity].
    cbn [is_double]. unfold canonical.
    destruct (Z.leb_spec (E + 1) 971); [|lia].
    destruct (Z.leb_spec (-1074) (E + 1)); [|lia]. reflexivity.
  - destruct m as [|p|p] eqn:Hm; try reflexivity.
    destruct (Z.leb_spec E 971) as [Hle | Hgt]; [|reflexivity].
    cbn [is_double]. unfold canonical.
    destruct (Z.ltb_spec (Zpos p) (2 ^ 53)); [|lia].
    destruct (Z.leb_spec E 971); [|lia]. cbn [andb].
    destruct Hnormal as [-> | Hnormal]; [now rewrite orb_true_r|].
    destruct (Z.leb_spec (2 ^ 52) (Zpos p)); [|lia].
    destruct (Z.leb_spec (-1074) E); [|lia]. reflexivity.
Qed.

(** A product is a double. *)
Lemma Number_multiply_is_double (x y : number) :
  is_double (Number_multiply x y) = true.
Proof.
  destruct x as [| | |a m1 e1], y as [| | |b m2 e2]; try reflexivity.
  cbn [Number_multiply].
  destruct (Z.leb_spec 0 (e1 + e2)) as [He | He];
    apply Number_value_is_double;
    first [ lia
          | apply pow2_pos; lia
          | pose proof (pow2_pos (e1 + e2) He); nia ].
Qed.

(** **** Integers *)

(** The Number value for a safe integer that is not 0: its magnitude,
    shifted to 53 bits. *)
Lemma of_Z_safe (n : Z) :
  n <> 0 -> Z.abs n < 2 ^ 53 ->
  exists (m : positive) (e : Z),
    of_Z n = Finite (n <? 0) m e /\
    canonical m e = true /\
    e <= 0 /\
    Zpos m = Z.abs n * 2 ^ (- e).
Proof.
  intros Hn Hsafe.
  assert (Hpos : 0 < Z.abs n) by lia.
  pose proof (Z.log2_spec (Z.abs n) Hpos) as [HL1 HL2].
  pose proof (Z.log2_nonneg (Z.abs n)) as HL0.
  set (L := Z.log2 (Z.abs n)) in *.
  replace (Z.succ L) with (L + 1) in HL2 by lia.
  assert (HL : L < 53) by (apply Z.log2_lt_pow2; lia).
  clearbody L.
  assert (Hshift : 0 < 2 ^ (52 - L)) by (apply pow2_pos; lia).
  assert (Hlow : 2 ^ 52 <= Z.abs n * 2 ^ (52 - L)).
  { replace 52 with (L + (52 - L)) at 1 by lia.
    rewrite Z.pow_add_r by lia. nia. }
  assert (Hhigh : Z.abs n * 2 ^ (52 - L) < 2 ^ 53).
  { replace 53 with ((L + 1) + (52 - L)) by lia.
    rewrite (Z.pow_add_r 2 (L + 1)) by lia. nia. }
  destruct (Z.abs n * 2 ^ (52 - L)) as [|m|m] eqn:Hm; try lia.
  exists m, (L - 52).
  assert (Hcan : canonical m (L - 52) = true).
  { unfold canonical.
    destruct (Z.ltb_spec (Zpos m) (2 ^ 53)); [|lia].
    destruct (Z.leb_spec (L - 52) 971); [|lia].
    destruct (Z.leb_spec (2 ^ 52) (Zpos m)); [|lia].
    destruct (Z.leb_spec (-1074) (L - 52)); [|lia]. reflexivity. }
  replace (- (L - 52)) with (52 - L) by lia.
  repeat split; try assumption; try lia.
  unfold of_Z. apply Number_value_exact; try assumption; try lia.
  - intros He. assert (L = 52) by lia. subst L.
    change (2 ^ (52 - 52)) with 1 in *. lia.
  - intros He. replace (- (L - 52)) with (52 - L) by lia. lia.
Qed.

(** On safe integers other than 0 whose product is safe, the product of
    numbers is the product of integers. *)
Lemma Number_multiply_of_Z (a b : Z) :
  a <> 0 -> b <> 0 ->
  Z.abs a < 2 ^ 53 -> Z.abs b < 2 ^ 53 -> Z.abs (a * b) < 2 ^ 53 ->
  Number_multiply (of_Z a) (of_Z b) = of_Z (a * b).
Proof.
  intros Ha Hb Hsa Hsb Hsab.
  destruct (of_Z_safe a Ha Hsa) as (m1 & e1 & -> & _ & He1 & Hm1).
  destruct (of_Z_safe b Hb Hsb) as (m2 & e2 & -> & _ & He2 & Hm2).
  destruct (of_Z_safe (a * b) ltac:(nia) Hsab) as (m3 & e3 & -> & Hcan & He3 & Hm3).
  assert (Hsign : xorb (a <? 0) (b <? 0) = (a * b <? 0)).
  { destruct (Z.ltb_spec a 0), (Z.ltb_spec b 0), (Z.ltb_spec (a * b) 0);
      cbn [xorb]; try reflexivity; nia. }
  assert (Hp1 : 0 < 2 ^ (- e1)) by (apply pow2_pos; lia).
  assert (Hp2 : 0 < 2 ^ (- e2)) by (apply pow2_pos; lia).
  assert (Hp3 : 0 < 2 ^ (- e3)) by (apply pow2_pos; lia).
  assert (Hprod : Zpos (m1 * m2) =
                  Z.abs (a * b) * (2 ^ (- e1) * 2 ^ (- e2))).
  { rewrite Pos2Z.inj_mul, Hm1, Hm2, Z.abs_mul. ring. }
  rewrite Z.abs_mul in Hm3. rewrite Z.abs_mul in Hprod.
  cbn [Number_multiply]. rewrite Hsign.
  destruct (Z.leb_spec 0 (e1 + e2)) as [He | He].
  - assert (e1 = 0) by lia. assert (e2 = 0) by lia. subst e1 e2.
    change (2 ^ (- 0)) with 1 in *. change (2 ^ (0 + 0)) with 1.
    apply Number_value_exact; [exact Hcan | lia | |].
    + intros He3'. assert (e3 = 0) by lia. subst e3.
      change (2 ^ (- 0)) with 1 in *. change (2 ^ 0) with 1. lia.
    + intros _. rewrite Hprod, Hm3. ring.
  - assert (Hpow : 2 ^ (- (e1 + e2)) = 2 ^ (- e1) * 2 ^ (- e2)).
    { replace (- (e1 + e2)) with (- e1 + - e2) by lia.
      apply Z.pow_add_r; lia. }
    apply Number_value_exact; [exact Hcan | apply pow2_pos; lia | |].
    + intros He3'. assert (e3 = 0) by lia. subst e3.
      change (2 ^ (- 0)) with 1 in *. change (2 ^ 0) with 1.
      rewrite Hprod, Hm3, Hpow. ring.
    + intros _. rewrite Hprod, Hm3, Hpow. ring.
Qed.

(** **** The exponent at which the search for the digits starts *)

(** For every number of bits [l] that a double can have, [2 ^ l] is at
    most 10 to the exponent that [above] gives. *)
Lemma above_table (l : Z) :
  -1080 <= l <= 1030 ->
  let t := - ((- l * (if 0 <=? l then 30103 else 30102)) / 100000) in
  if 0 <=? l then 0 <= t /\ 2 ^ l <= 10 ^ t
  else t <= 0 /\ 10 ^ (- t) <= 2 ^ (- l).
Proof.
  intros Hl.
  assert (Hall : forallb
            (fun i =>
               let l := Z.of_nat i - 1080 in
               let t := - ((- l * (if 0 <=? l then 30103 else 30102)) / 100000) in
               if 0 <=? l then (0 <=? t) && (2 ^ l <=? 10 ^ t)
               else (t <=? 0) && (10 ^ (- t) <=? 2 ^ (- l)))
            (seq 0 2111) = true) by (vm_compute; reflexivity).
  rewrite forallb_forall in Hall.
  specialize (Hall (Z.to_nat (l + 1080))).
  rewrite Z2Nat.id in Hall by lia.
  replace (l + 1080 - 1080) with l in Hall by lia.
  cbv zeta in *.
  assert (Hin : In (Z.to_nat (l + 1080)) (seq 0 2111)) by (apply in_seq; lia).
  specialize (Hall Hin).
  destruct (0 <=? l); apply andb_true_iff in Hall; destruct Hall as [H1 H2];
    rewrite Z.leb_le in H1, H2; split; assumption.
Qed.

(** The search starts above the number: [m * 2 ^ e < 10 ^ above m e]. *)
Lemma above_spec (m : positive) (e : Z) :
  canonical m e = true ->
  let t := above m e in
  (0 <= t -> fst (fraction m e) < snd (fraction m e) * 10 ^ t) /\
  (t < 0 -> fst (fraction m e) * 10 ^ (- t) < snd (fraction m e)).
Proof.
  intros Hcan. destruct (canonical_spec m e Hcan) as (Hm & He & Hshape).
  pose proof (Z.log2_spec (Zpos m) eq_refl) as [_ HL].
  pose proof (Z.log2_nonneg (Zpos m)) as HL0.
  assert (HL53 : Z.log2 (Zpos m) < 53) by (apply Z.log2_lt_pow2; lia).
  unfold above. set (L := Z.log2 (Zpos m)) in *.
  replace (Z.succ L) with (L + 1) in HL by lia.
  assert (Hrange : -1080 <= L + e + 1 <= 1030) by lia.
  pose proof (above_table (L + e + 1) Hrange) as Htable.
  cbv zeta in *.
  set (t := - ((- (L + e + 1) * (if 0 <=? L + e + 1 then 30103 else 30102))
               / 100000)) in *.
  clearbody t L. unfold fraction.
  destruct (Z.leb_spec 0 e) as [He0 | He0]; cbn [fst snd].
  - pose proof (pow2_pos e He0) as Hpe.
    destruct (Z.leb_spec 0 (L + e + 1)); [|lia].
    destruct Htable as [Ht Hpow]. split; [intros _ | lia].
    assert (H : Zpos m * 2 ^ e < 2 ^ (L + e + 1)).
    { replace (L + e + 1) with ((L + 1) + e) by lia.
      rewrite Z.pow_add_r by lia. nia. }
    lia.
  - assert (He' : 0 <= - e) by lia. pose proof (pow2_pos (- e) He') as Hpe.
    destruct (Z.leb_spec 0 (L + e + 1)) as [Hl | Hl].
    + destruct Htable as [Ht Hpow]. split; [intros _ | lia].
      assert (H : 2 ^ (L + 1) = 2 ^ (L + e + 1) * 2 ^ (- e)).
      { rewrite <- Z.pow_add_r by lia. f_equal. lia. }
      assert (H10 : 0 < 10 ^ t) by (apply Z.pow_pos_nonneg; lia).
      nia.
    + destruct Htable as [Ht Hpow].
      assert (H : 2 ^ (L + 1) * 2 ^ (- (L + e + 1)) = 2 ^ (- e)).
      { rewrite <- Z.pow_add_r by lia. f_equal. lia. }
      assert (H10 : 0 < 10 ^ (- t)) by (apply Z.pow_pos_nonneg; lia).
      assert (H2 : 0 < 2 ^ (- (L + e + 1))) by (apply pow2_pos; lia).
      split.
      * intros Ht0. assert (t = 0) by lia. subst t.
        change (10 ^ 0) with 1 in *. nia.
      * intros _. nia.
Qed.

(** **** The numbers that [JSON.parse] reads are doubles *)

Lemma span_digits_all_digits (s : string) :
  all_digits (fst (JSON.span_digits s)) = true.
Proof.
  induction s as [|c s IH]; [reflexivity|].
  cbn [JSON.span_digits]. destruct (is_digit c) eqn:Hc; [|reflexivity].
  destruct (JSON.span_digits s) as [ds rest]. cbn [fst all_digits] in *.
  now rewrite Hc, IH.
Qed.

Lemma digit_nonneg (c : ascii) :
  is_digit c = true -> 0 <= Z.of_nat (nat_of_ascii c) - 48.
Proof.
  destruct c as [[] [] [] [] [] [] [] []]; try discriminate;
    intros _; vm_compute; discriminate.
Qed.

Lemma digits_value_nonneg (s : string) :
  forall acc, 0 <= acc -> all_digits s = true -> 0 <= JSON.digits_value acc s.
Proof.
  induction s as [|c s IH]; intros acc Hacc Hs; [exact Hacc|].
  cbn [all_digits] in Hs. apply andb_true_iff in Hs. destruct Hs as [Hc Hs].
  cbn [JSON.digits_value]. apply IH; [|exact Hs].
  pose proof (digit_nonneg c Hc). lia.
Qed.

Lemma from_decimal_is_double (negative : bool) (s t : Z) :
  0 <= s -> is_double (from_decimal negative s t) = true.
Proof.
  intros Hs. unfold from_decimal.
  destruct (Z.leb_spec 0 t) as [Ht | Ht]; apply Number_value_is_double.
  - assert (0 < 10 ^ t) by (apply Z.pow_pos_nonneg; lia). nia.
  - lia.
  - exact Hs.
  - apply Z.pow_pos_nonneg; lia.
Qed.

Lemma parse_decimal_is_double (negative : bool) (s rest : string) (n : number) :
  JSON.parse_decimal negative s = Some (n, rest) -> is_double n = true.
Proof.
  unfold JSON.parse_decimal.
  pose proof (span_digits_all_digits s) as Hint.
  destruct (JSON.span_digits s) as [int s2]. cbn [fst] in Hint.
  destruct int as [|c int']; [discriminate|].
  destruct (_ && _); [discriminate|].
  unfold JSON.parse_fraction.
  assert (Hfrac : forall frac s3,
             match s2 with
             | String c0 s' =>
                 if Ascii.eqb c0 "."
                 then let '(frac, rest) := JSON.span_digits s' in
                      if (frac =? "")%string then None else Some (frac, rest)
                 else Some ("", s2)
             | EmptyString => Some ("", s2)
             end = Some (frac, s3) -> all_digits frac = true).
  { intros frac s3. destruct s2 as [|c0 s'].
    - intros H. inversion H. reflexivity.
    - destruct (Ascii.eqb c0 ".").
      + pose proof (span_digits_all_digits s') as Hfrac.
        destruct (JSON.span_digits s') as [frac' rest']. cbn [fst] in Hfrac.
        destruct (frac' =? "")%string; [discriminate|].
        intros H. inversion H. subst. exact Hfrac.
      + intros H. inversion H. reflexivity. }
  destruct (match s2 with EmptyString => _ | String _ _ => _ end)
    as [[frac s3]|] eqn:Hparse; [|discriminate].
  specialize (Hfrac frac s3 eq_refl).
  destruct (JSON.parse_exponent s3) as [[ex rest']|]; [|discriminate].
  intros H. inversion H. subst.
  cbn [all_digits] in Hint. apply andb_true_iff in Hint.
  destruct Hint as [Hc Hint].
  apply from_decimal_is_double. apply digits_value_nonneg.
  - now apply digit_nonneg.
  - now rewrite all_digits_app, Hint, Hfrac.
Qed.

Lemma parse_number_is_double (s rest : string) (n : number) :
  JSON.parse_number s = Some (n, rest) -> is_double n = true.
Proof.
  unfold JSON.parse_number. destruct s as [|c s]; [discriminate|].
  destruct (Ascii.eqb c "-"); apply parse_decimal_is_double.
Qed.

(** *** Objects on the heap *)

#[local] Open Scope list_scope.

Lemma nth_error_end (h t : heap) (o : object) :
  nth_error (h ++ o :: t) (List.length h) = Some o.
Proof. induction h as [|o' h IH]; [reflexivity | exact IH]. Qed.

Lemma nth_error_second (h t : heap) (o1 o : object) :
  nth_error (h ++ o1 :: o :: t) (S (List.length h)) = Some o.
Proof.
  replace (h ++ o1 :: o :: t) with ((h ++ [o1]) ++ o :: t)
    by (rewrite <- app_assoc; reflexivity).
  replace (S (List.length h)) with (List.length (h ++ [o1]))
    by (rewrite length_app; simpl; lia).
  apply nth_error_end.
Qed.

Lemma replace_end (h t : heap) (o o' : object) :
  replace (List.length h) o' (h ++ o :: t) = Some (h ++ o' :: t).
Proof.
  induction h as [|o0 h IH]; [reflexivity|].
  cbn [List.length app replace]. rewrite IH. reflexivity.
Qed.

Lemma Define_end (h t : heap) (o : object) (key : string) (v : value) :
  is_index key = false ->
  Define (List.length h) key v (h ++ o :: t) =
  Some (tt, h ++ {| properties := put key v (properties o);
                    prototype := prototype o |} :: t).
Proof.
  intros Hkey. unfold Define. rewrite Hkey. unfold bind, read, write.
  rewrite nth_error_end, replace_end. reflexivity.
Qed.

Lemma Put_end (h t : heap) (o : object) (key : string) (v : value) :
  is_index key = false ->
  (key =? "__proto__")%string = false ->
  Put (List.length h) key v (h ++ o :: t) =
  Some (tt, h ++ {| properties := put key v (properties o);
                    prototype := prototype o |} :: t).
Proof. intros Hkey Hproto. unfold Put. rewrite Hproto. now apply Define_end. Qed.

Lemma Put_second (h t : heap) (o1 o : object) (key : string) (v : value) :
  is_index key = false ->
  (key =? "__proto__")%string = false ->
  Put (S (List.length h)) key v (h ++ o1 :: o :: t) =
  Some (tt, h ++ o1 :: {| properties := put key v (properties o);
                          prototype := prototype o |} :: t).
Proof.
  intros Hkey Hproto.
  replace (h ++ o1 :: o :: t) with ((h ++ [o1]) ++ o :: t)
    by (rewrite <- app_assoc; reflexivity).
  replace (S (List.length h)) with (List.length (h ++ [o1]))
    by (rewrite length_app; simpl; lia).
  rewrite Put_end by assumption. rewrite <- app_assoc. reflexivity.
Qed.

Lemma Get_own (h : heap) (l : loc) (o : object) (key : string) (p : property) :
  (key =? "__proto__")%string = false ->
  nth_error h l = Some o ->
  own_property key o = Some p ->
  Get l key h = Some (contents p, h).
Proof.
  intros Hproto Hl Hown. unfold Get. rewrite Hproto.
  cbn [get_from]. rewrite Hl, Hown. reflexivity.
Qed.

Lemma Get_heap (l : loc) (key : string) (h h' : heap) (v : value) :
  Get l key h = Some (v, h') -> h' = h.
Proof.
  unfold Get. destruct (key =? "__proto__")%string; [discriminate|].
  destruct (get_from _ h l key); [|discriminate].
  intros Heq. now inversion Heq.
Qed.

(** A lookup that succeeds still succeeds, with the same value, with more
    fuel and on a longer heap. *)
Lemma get_from_extend (fuel : nat) :
  forall (h : heap) (l : loc) (key : string) (v : value),
    get_from fuel h l key = Some v ->
    forall (more : nat) (extra : heap),
      get_from (fuel + more) (h ++ extra) l key = Some v.
Proof.
  induction fuel as [|fuel IH]; intros h l key v Hget more extra;
    [discriminate|].
  cbn [get_from Nat.add] in *.
  destruct (nth_error h l) as [o|] eqn:Hl; [|discriminate].
  rewrite nth_error_app1 by (apply nth_error_Some; congruence).
  rewrite Hl. destruct (own_property key o); [exact Hget|].
  destruct (prototype o); [|exact Hget]. now apply IH.
Qed.

Lemma Get_extend (l : loc) (key : string) (h extra : heap) (v : value) :
  Get l key h = Some (v, h) -> Get l key (h ++ extra) = Some (v, h ++ extra).
Proof.
  unfold Get. destruct (key =? "__proto__")%string; [discriminate|].
  destruct (get_from (S (List.length h)) h l key) as [v'|] eqn:Hfrom;
    [|discriminate].
  intros Heq. inversion Heq. subst v'.
  replace (S (List.length (h ++ extra)))
    with (S (List.length h) + List.length extra)%nat
    by (rewrite length_app; lia).
  now rewrite (get_from_extend _ _ _ _ _ Hfrom).
Qed.

(** A lookup on a new object that does not own the name goes on at its
    prototype. *)
Lemma Get_through (l l' : loc) (key : string) (h extra : heap) (o : object)
    (v : value) :
  extra <> [] ->
  nth_error (h ++ extra) l = Some o ->
  own_property key o = None ->
  prototype o = Some l' ->
  Get l' key h = Some (v, h) ->
  Get l key (h ++ extra) = Some (v, h ++ extra).
Proof.
  intros Hextra Hl Hown Hproto. unfold Get.
  destruct (key =? "__proto__")%string; [discriminate|].
  destruct (get_from (S (List.length h)) h l' key) as [v'|] eqn:Hfrom;
    [|discriminate].
  intros Heq. inversion Heq. subst v'.
  replace (S (List.length (h ++ extra)))
    with (S (S (List.length h) + Nat.pred (List.length extra)))%nat
    by (rewrite length_app; destruct extra; [contradiction | simpl; lia]).
  cbn [get_from]. rewrite Hl, Hown, Hproto.
  now rewrite (get_from_extend _ _ _ _ _ Hfrom).
Qed.

Lemma put_fresh (key : string) (v : value) (ps : list property) :
  ~ In key (map name ps) ->
  put key v ps = ps ++ [data key v].
Proof.
  induction ps as [|p ps IH]; intros Hnot; [reflexivity|].
  cbn [put map In] in *.
  destruct (String.eqb_spec (name p) key) as [Heq | Hne]; [tauto|].
  rewrite IH by tauto. reflexivity.
Qed.

Lemma find_own (ps : list property) (p : property) :
  NoDup (map name ps) ->
  In p ps ->
  find (fun q => (name q =? name p)%string) ps = Some p.
Proof.
  induction ps as [|q ps IH]; intros Hnd Hin; [contradiction|].
  cbn [map] in Hnd. inversion Hnd as [|? ? Hnot Hnd']. subst.
  cbn [find]. destruct Hin as [-> | Hin].
  - now rewrite String.eqb_refl.
  - destruct (String.eqb_spec (name q) (name p)) as [Heq | Hne].
    + exfalso. apply Hnot. rewrite Heq. now apply in_map.
    + now apply IH.
Qed.

Lemma NoDup_names_filter (f : property -> bool) (ps : list property) :
  NoDup (map name ps) -> NoDup (map name (filter f ps)).
Proof.
  induction ps as [|p ps IH]; intros Hnd; [constructor|].
  cbn [map] in Hnd. inversion Hnd as [|? ? Hnot Hnd']. subst.
  cbn [filter]. destruct (f p); [|now apply IH].
  cbn [map]. constructor; [|now apply IH].
  intros Hin. apply Hnot. apply in_map_iff in Hin.
  destruct Hin as (q & Hq & Hin). apply filter_In in Hin.
  apply in_map_iff. exists q. tauto.
Qed.

Lemma as_data (p : property) :
  enumerable p = true -> data (name p) (contents p) = p.
Proof. destruct p as [n c e]. unfold data. simpl. now intros ->. Qed.

(** The names after [put]: those before, and the new one. *)
Lemma put_names (key : string) (v : value) (ps : list property) :
  map name (put key v ps) =
  if existsb (String.eqb key) (map name ps)
  then map name ps
  else map name ps ++ [key].
Proof.
  induction ps as [|p ps IH]; [reflexivity|].
  cbn [put map existsb].
  rewrite (String.eqb_sym key (name p)).
  destruct (String.eqb_spec (name p) key) as [Heq | Hne]; cbn [orb map name].
  - now rewrite Heq.
  - rewrite IH. destruct (existsb _ _); reflexivity.
Qed.

Lemma put_enumerable (key : string) (v : value) (ps : list property) :
  Forall (fun p => enumerable p = true) ps ->
  Forall (fun p => enumerable p = true) (put key v ps).
Proof.
  induction 1 as [|p ps Hp Hps IH]; cbn [put].
  - repeat constructor.
  - destruct (name p =? key)%string; constructor; assumption.
Qed.

(** The properties that [JSON.parse] builds have distinct names, which
    are names of members, and are enumerable. *)
Lemma built_from (P : string -> Prop) (ms : list (string * value)) :
  forall ps : list property,
    NoDup (map name ps) ->
    Forall (fun p => enumerable p = true) ps ->
    Forall P (map name ps) ->
    Forall P (map fst ms) ->
    let ps' := fold_left (fun ps m => put (fst m) (snd m) ps) ms ps in
    NoDup (map name ps') /\
    Forall (fun p => enumerable p = true) ps' /\
    Forall P (map name ps').
Proof.
  induction ms as [|[key v] ms IH]; intros ps Hnd Henum Hps Hms.
  - cbn. auto.
  - cbn [fold_left fst snd]. cbn [map fst] in Hms.
    inversion Hms as [|? ? Hkey Hms']. subst.
    apply IH; try assumption.
    + rewrite put_names. destruct (existsb _ _) eqn:Hex; [exact Hnd|].
      apply NoDup_app; [exact Hnd | repeat constructor; intros [] |].
      intros k Hin [<- | []].
      assert (Htrue : existsb (String.eqb key) (map name ps) = true)
        by (apply existsb_exists; exists key; split;
            [exact Hin | apply String.eqb_refl]).
      congruence.
    + now apply put_enumerable.
    + rewrite put_names. destruct (existsb _ _); [exact Hps|].
      apply Forall_app. split; [exact Hps | repeat constructor; exact Hkey].
Qed.

Lemma built_spec (P : string -> Prop) (ms : list (string * value)) :
  Forall P (map fst ms) ->
  NoDup (map name (built ms)) /\
  Forall (fun p => enumerable p = true) (built ms) /\
  Forall P (map name (built ms)).
Proof. intros Hms. apply (built_from P ms []); try constructor. exact Hms. Qed.

(** *** The text of an object *)

Lemma terminated_comma (rest : string) : terminated (String "," rest).
Proof. exists ","%char, rest. split; [reflexivity | now left]. Qed.

Lemma terminated_brace (rest : string) : terminated (String "}" rest).
Proof. exists "}"%char, rest. split; [reflexivity | now right]. Qed.

Lemma Number_toString_finite (x : number) :
  finite x = true -> exists text, Number_toString x = Some text.
Proof.
  intros Hx.
  destruct (parse_number_toString x "," Hx (terminated_comma "")) as (text & H & _).
  now exists text.
Qed.

(** [JSON.stringify] has a text for every double. *)
Lemma scalar_double (x : number) :
  is_double x = true -> exists text, JSON.scalar (Number x) = Some text.
Proof.
  destruct x as [| |negative|negative m e]; intros Hx;
    try (eexists; reflexivity).
  exact (Number_toString_finite (Finite negative m e) Hx).
Qed.

Lemma read_back_finite (x : number) :
  finite x = true -> read_back (Number x) = Number (positive_zero x).
Proof. destruct x; try discriminate; reflexivity. Qed.

Lemma Number_equal_positive_zero (x : number) :
  finite x = true -> Number_equal (positive_zero x) x = true.
Proof.
  destruct x; try discriminate; intros _; [reflexivity|].
  cbn [positive_zero Number_equal]. apply number_eqb_refl.
Qed.

Lemma portable_spec (p : property) :
  portable p = true ->
  all_plain (name p) = true /\
  is_index (name p) = false /\
  (name p =? "__proto__")%string = false /\
  JSON.serializable p = true /\
  JSON.scalar (contents p) = Some (value_text (contents p)) /\
  forall h, JSON.toJSON_of (contents p) h = Some (None, h).
Proof.
  unfold portable, JSON.serializable, value_text.
  rewrite !andb_true_iff, !negb_true_iff.
  intros [[[Hn Hi] Hp] Hv]. repeat split; try assumption.
  - destruct (contents p); try discriminate; reflexivity.
  - destruct (contents p) as [| |n|s| |]; try discriminate.
    + reflexivity.
    + destruct n as [| |negative|negative m e]; try reflexivity.
      destruct (Number_toString_finite (Finite negative m e) Hv) as [text Ht].
      cbn [JSON.scalar]. now rewrite Ht.
    + cbn [JSON.scalar]. unfold JSON.quote. now rewrite Hv.
  - intros h. destruct (contents p); try discriminate; reflexivity.
Qed.

Lemma member_portable (p : property) (h : heap) :
  portable p = true -> JSON.member p h = Some (Some (member_text p), h).
Proof.
  intros Hp.
  destruct (portable_spec p Hp) as (Hn & _ & _ & Hs & Hv & Ht).
  unfold JSON.member, bind. rewrite Ht, Hs, Hv.
  unfold JSON.quote. rewrite Hn. unfold ret, member_text.
  cbn [append]. rewrite append_assoc. reflexivity.
Qed.

Lemma member_left_out (p : property) (h : heap) :
  left_out h p -> JSON.member p h = Some (None, h).
Proof.
  intros (Hs & _ & Ht). unfold JSON.member, bind. now rewrite Ht, Hs.
Qed.

(** [JSON.stringify] writes the properties of the fragment and leaves the
    others out. *)
Lemma members_written (h : heap) (ps : list property) :
  Forall (fun p => portable p = true \/ left_out h p) ps ->
  JSON.members ps h =
  Some (map member_text (filter JSON.serializable ps), h).
Proof.
  induction 1 as [|p ps Hp _ IH]; [reflexivity|].
  cbn [JSON.members filter]. unfold bind at 1.
  destruct Hp as [Hp | Hp].
  - rewrite (member_portable p h Hp). unfold bind at 1. rewrite IH.
    destruct (portable_spec p Hp) as (_ & _ & _ & -> & _). reflexivity.
  - rewrite (member_left_out p h Hp). unfold bind at 1. rewrite IH.
    destruct Hp as (-> & _). reflexivity.
Qed.

Lemma filter_kept (ps : list property) :
  filter JSON.serializable (filter enumerable ps) =
  filter (fun p => enumerable p && JSON.serializable p) ps.
Proof.
  induction ps as [|p ps IH]; [reflexivity|].
  cbn [filter]. destruct (enumerable p); cbn [andb filter]; now rewrite IH.
Qed.

Lemma no_index_written (h : heap) (ps : list property) :
  Forall (fun p => portable p = true \/ left_out h p) ps ->
  existsb (fun p => is_index (name p)) ps = false.
Proof.
  induction 1 as [|p ps Hp _ IH]; [reflexivity|].
  cbn [existsb]. rewrite IH, orb_false_r.
  destruct Hp as [Hp | (_ & Hi & _)]; [|exact Hi].
  now destruct (portable_spec p Hp) as (_ & Hi & _).
Qed.

(** [getJSON] on an object without a callable [toJSON] whose enumerable
    properties are in the fragment or are left out. *)
Lemma getJSON_object (h : heap) (l : loc) (o : object) :
  nth_error h l = Some o ->
  JSON.toJSON_of (Object l) h = Some (None, h) ->
  Forall (fun p => portable p = true \/ left_out h p)
    (filter enumerable (properties o)) ->
  getJSON (Object l) h = Some (object_text (kept o), h).
Proof.
  intros Hl Ht Hps. unfold getJSON, JSON.stringify. unfold bind at 1.
  rewrite Ht. cbn [JSON.serialize]. unfold bind at 1, read. rewrite Hl.
  unfold bind at 1, enumerable_own. rewrite (no_index_written h _ Hps).
  unfold ret at 1. unfold bind at 1.
  rewrite (members_written h _ Hps), filter_kept. reflexivity.
Qed.

(** *** Reading the text of an object back *)

Lemma parse_string_plain (key rest : string) :
  all_plain key = true ->
  JSON.parse_string (key ++ String dquote rest) = Some (key, rest).
Proof.
  induction key as [|c key IH]; intros Hplain.
  - reflexivity.
  - cbn [all_plain] in Hplain. apply andb_true_iff in Hplain.
    destruct Hplain as [Hc Hkey]. cbn [append JSON.parse_string].
    rewrite Hc, (IH Hkey).
    unfold plain in Hc. rewrite !andb_true_iff, !negb_true_iff in Hc.
    destruct Hc as [[_ Hq] _]. rewrite Hq. reflexivity.
Qed.

Lemma parse_object_members (s : string) :
  JSON.parse_object (String "{" (String dquote s)) =
  match JSON.parse_members (S (String.length s)) (String dquote s) with
  | Some (ms, EmptyString) => Some ms
  | _ => None
  end.
Proof. reflexivity. Qed.

Lemma parse_value_quote (s : string) :
  JSON.parse_value (String dquote s) =
  match JSON.parse_string s with
  | Some (str, rest) => Some (Str str, rest)
  | None => None
  end.
Proof. reflexivity. Qed.

Lemma parse_value_null (rest : string) :
  terminated rest -> JSON.parse_value ("null" ++ rest) = Some (Null, rest).
Proof. intros (c & rest' & -> & _). reflexivity. Qed.

(** A text that starts as a number is read as a number. *)
Lemma parse_value_number (s : string) (n : number) (rest : string) :
  JSON.parse_number s = Some (n, rest) ->
  JSON.parse_value s = Some (Number n, rest).
Proof.
  destruct s as [|c s]; [discriminate|]. intros H.
  assert (Hc : is_digit c = true \/ c = "-"%char).
  { unfold JSON.parse_number in H.
    destruct (Ascii.eqb_spec c "-"); [now right | left].
    unfold JSON.parse_decimal in H. cbn [JSON.span_digits] in H.
    destruct (is_digit c); [reflexivity | discriminate]. }
  assert (Hvalue : JSON.parse_value (String c s) =
                   match JSON.parse_number (String c s) with
                   | Some (n, rest) => Some (Number n, rest)
                   | None => None
                   end).
  { destruct Hc as [Hc | ->]; [|reflexivity].
    destruct c as [[] [] [] [] [] [] [] []]; try discriminate Hc; reflexivity. }
  rewrite Hvalue, H. reflexivity.
Qed.

(** [JSON.parse] reads back the text of a value of the fragment. *)
Lemma parse_value_text (p : property) (rest : string) :
  portable p = true ->
  terminated rest ->
  JSON.parse_value (value_text (contents p) ++ rest) =
  Some (read_back (contents p), rest).
Proof.
  intros Hp Hterm.
  destruct (portable_spec p Hp) as (_ & _ & _ & _ & Hscalar & _).
  unfold portable in Hp. rewrite !andb_true_iff in Hp. destruct Hp as [_ Hv].
  destruct (contents p) as [| |n|s| |]; try discriminate.
  - now apply parse_value_null.
  - destruct n as [| |negative|negative m e];
      try (now apply parse_value_null).
    + destruct (parse_number_toString (Zero negative) rest eq_refl Hterm)
        as (text & Htext & Hparse).
      cbn [JSON.scalar] in Hscalar. rewrite Htext in Hscalar.
      injection Hscalar as <-. now apply parse_value_number.
    + destruct (parse_number_toString (Finite negative m e) rest Hv Hterm)
        as (text & Htext & Hparse).
      cbn [JSON.scalar] in Hscalar. rewrite Htext in Hscalar.
      injection Hscalar as <-. now apply parse_value_number.
  - unfold value_text. cbn [JSON.scalar]. unfold JSON.quote. rewrite Hv.
    cbn [append read_back].
    rewrite parse_value_quote, append_assoc. cbn [append].
    rewrite (parse_string_plain s rest Hv). reflexivity.
Qed.

(** One member of the fragment, followed by a comma or by the closing
    brace. *)
Lemma parse_members_member (fuel : nat) (p : property) (c : ascii) (rest : string) :
  fuel <> O ->
  portable p = true ->
  (c = "," \/ c = "}")%char ->
  JSON.parse_members fuel (member_text p ++ String c rest) =
  if Ascii.eqb c ","
  then match JSON.parse_members (Nat.pred fuel) rest with
       | Some (ms, rest') => Some (entry p :: ms, rest')
       | None => None
       end
  else Some ([entry p], rest).
Proof.
  intros Hfuel Hp Hc. destruct fuel as [|fuel]; [contradiction|].
  destruct (portable_spec p Hp) as (Hn & _).
  unfold member_text. cbn [append]. rewrite append_assoc. cbn [append].
  cbn [JSON.parse_members Nat.pred].
  change (Ascii.eqb dquote dquote) with true. cbv iota.
  rewrite (parse_string_plain (name p) _ Hn).
  rewrite (parse_value_text p (String c rest) Hp)
    by (exists c, rest; split; [reflexivity | exact Hc]).
  destruct Hc as [-> | ->]; reflexivity.
Qed.

Lemma concat_comma_cons (x y : string) (l : list string) :
  String.concat "," (x :: y :: l) =
  (x ++ String "," (String.concat "," (y :: l)))%string.
Proof. reflexivity. Qed.

(** The members of an object of the fragment are read back in order. *)
Lemma parse_members_all (ps : list property) :
  forall (p : property) (fuel : nat) (rest : string),
    Forall (fun p => portable p = true) (p :: ps) ->
    (List.length (p :: ps) <= fuel)%nat ->
    JSON.parse_members fuel
      (String.concat "," (map member_text (p :: ps)) ++ String "}" rest) =
    Some (map entry (p :: ps), rest).
Proof.
  induction ps as [|p' ps IH]; intros p fuel rest Hall Hfuel.
  - cbn [map String.concat]. inversion Hall as [|? ? Hp _]; subst.
    rewrite (parse_members_member fuel p "}" rest); try assumption.
    + reflexivity.
    + cbn [List.length] in Hfuel. lia.
    + now right.
  - inversion Hall as [|? ? Hp Hall']; subst.
    cbn [map]. rewrite concat_comma_cons, append_assoc. cbn [append].
    rewrite (parse_members_member fuel p ","); try assumption.
    + cbn [Ascii.eqb Bool.eqb].
      change (member_text p' :: map member_text ps)
        with (map member_text (p' :: ps)).
      rewrite (IH p' (Nat.pred fuel) rest Hall').
      * reflexivity.
      * cbn [List.length] in *. lia.
    + cbn [List.length] in Hfuel. lia.
    + now left.
Qed.

Lemma members_text_length (ps : list property) :
  (List.length ps <= String.length (String.concat "," (map member_text ps)))%nat.
Proof.
  induction ps as [|p ps IH]; [simpl; lia|].
  destruct ps as [|p' ps].
  - cbn [map String.concat List.length member_text String.length]. lia.
  - cbn [map]. rewrite concat_comma_cons, string_length_append.
    cbn [map List.length String.length] in *. lia.
Qed.

(** The text of a whole object of the fragment is read back. *)
Lemma parse_object_text (ps : list property) :
  Forall (fun p => portable p = true) ps ->
  JSON.parse_object (object_text ps) = Some (map entry ps).
Proof.
  intros Hall. unfold object_text. destruct ps as [|p ps]; [reflexivity|].
  pose proof (parse_members_all ps p) as Hparse.
  pose proof (members_text_length (p :: ps)) as Hlen.
  assert (Hhead : exists s,
             String.concat "," (map member_text (p :: ps)) = String dquote s).
  { destruct ps; cbn [map String.concat member_text append]; eexists; reflexivity. }
  destruct Hhead as [s Hs].
  specialize (Hparse (S (String.length (s ++ "}"))) EmptyString Hall).
  rewrite Hs in *. cbn [append] in *. rewrite parse_object_members.
  rewrite Hparse; [reflexivity|].
  rewrite string_length_append. cbn [String.length] in Hlen. lia.
Qed.

(** The properties built from the members of such a text. *)
Lemma built_entries (rest : list property) :
  forall done : list property,
    NoDup (map name (done ++ rest)) ->
    fold_left (fun ps m => put (fst m) (snd m) ps) (map entry rest)
      (map decoded done) =
    map decoded (done ++ rest).
Proof.
  induction rest as [|p rest IH]; intros done Hnd.
  - now rewrite app_nil_r.
  - cbn [map fold_left entry fst snd].
    rewrite put_fresh.
    + change (map decoded done ++ [data (name p) (read_back (contents p))])
        with (map decoded done ++ map decoded [p]).
      rewrite <- map_app, IH by (rewrite <- app_assoc; exact Hnd).
      now rewrite <- app_assoc.
    + rewrite map_map. cbn [decoded data name].
      rewrite map_app in Hnd. apply NoDup_remove_2 in Hnd.
      intros Hin. apply Hnd. rewrite in_app_iff. now left.
Qed.

Lemma built_decoded (ps : list property) :
  NoDup (map name ps) -> built (map entry ps) = map decoded ps.
Proof. intros Hnd. exact (built_entries ps [] Hnd). Qed.

(** *** [fromJSON] *)

(** [JSON.parse] builds the object member by member. *)
Lemma forEach_Define (ms : list (string * value)) :
  forall (ps : list property) (h t : heap) (proto0 : option loc),
    Forall (fun key => is_index key = false) (map fst ms) ->
    forEach ms (fun '(key, v) => Define (List.length h) key v)
      (h ++ {| properties := ps; prototype := proto0 |} :: t) =
    Some (tt,
          h ++ {| properties :=
                    fold_left (fun ps m => put (fst m) (snd m) ps) ms ps;
                  prototype := proto0 |} :: t).
Proof.
  induction ms as [|[key v] ms IH]; intros ps h t proto0 Hms; [reflexivity|].
  cbn [map fst] in Hms. inversion Hms as [|? ? Hkey Hms']. subst.
  cbn [forEach fold_left fst snd]. unfold bind at 1.
  rewrite Define_end by exact Hkey. cbn [properties prototype].
  now apply IH.
Qed.

(** The loop of [fromJSON] copies the properties one by one. *)
Lemma forEach_copy (qs rest : list property) :
  forall (done : list property) (h : heap) (proto0 proto1 : option loc),
    NoDup (map name qs) ->
    incl rest qs ->
    NoDup (map name (done ++ rest)) ->
    Forall (fun q => enumerable q = true) rest ->
    Forall copyable (map name rest) ->
    forEach (map name rest)
      (fun prop =>
         bind (Get (List.length h) prop)
           (fun v => Put (S (List.length h)) prop v))
      (h ++ [{| properties := qs; prototype := proto0 |};
             {| properties := done; prototype := proto1 |}]) =
    Some (tt,
          h ++ [{| properties := qs; prototype := proto0 |};
                {| properties := done ++ rest; prototype := proto1 |}]).
Proof.
  induction rest as [|q rest IH];
    intros done h proto0 proto1 Hqs Hincl Hnd Henum Hcopy.
  - cbn [map forEach]. rewrite app_nil_r. reflexivity.
  - inversion Henum as [|? ? He Henum']. cbn [map] in Hcopy.
    inversion Hcopy as [|? ? [Hindex Hproto] Hcopy']. subst.
    cbn [map forEach]. unfold bind at 1. unfold bind at 1.
    rewrite (Get_own _ (List.length h)
               {| properties := qs; prototype := proto0 |} (name q) q Hproto).
    + rewrite Put_second by assumption. cbn [properties prototype].
      rewrite put_fresh, as_data by
        first [ exact He
              | intros Hin; rewrite map_app in Hnd; apply NoDup_remove_2 in Hnd;
                apply Hnd; rewrite in_app_iff; now left ].
      rewrite (IH (done ++ [q]) h proto0 proto1); try assumption.
      * rewrite <- app_assoc. reflexivity.
      * intros q' Hq'. apply Hincl. now right.
      * rewrite <- app_assoc. exact Hnd.
    + apply nth_error_end.
    + unfold own_property. cbn [properties]. apply find_own; [exact Hqs|].
      apply Hincl. now left.
Qed.

Lemma prototype_from_heap (proto : value) (pl : loc) (h h' : heap) :
  prototype_from proto h = Some (pl, h) ->
  prototype_from proto h' = Some (pl, h').
Proof.
  destruct proto; cbn [prototype_from]; unfold ret, fail;
    intros Heq; inversion Heq; reflexivity.
Qed.

(** [fromJSON] on a text whose members can be copied: the parsed object
    and the result are added to the heap, with the same properties. *)
Lemma fromJSON_members (proto : value) (pl : loc) (text : string)
    (ms : list (string * value)) (h : heap) :
  JSON.parse_object text = Some ms ->
  Forall copyable (map fst ms) ->
  prototype_from proto h = Some (pl, h) ->
  fromJSON proto text h =
  Some (S (List.length h),
        h ++ [{| properties := built ms; prototype := Some Object_prototype |};
              {| properties := built ms; prototype := Some pl |}]).
Proof.
  intros Hparse Hms Hproto.
  destruct (built_spec copyable ms Hms) as (Hnd & Henum & Hcopy).
  unfold fromJSON, JSON.parse. rewrite Hparse.
  unfold bind at 1. unfold bind at 1, alloc. unfold bind at 1.
  rewrite (forEach_Define ms [] h [] (Some Object_prototype))
    by (eapply Forall_impl; [|exact Hms]; now intros key [Hi _]).
  fold (built ms). unfold ret at 1. unfold bind at 1.
  rewrite (prototype_from_heap proto pl h _ Hproto).
  unfold bind at 1, alloc. unfold bind at 1.
  unfold Object_keys, bind at 1, read.
  rewrite <- app_assoc. cbn [app]. rewrite nth_error_end.
  unfold bind at 1, enumerable_own. cbn [properties].
  replace (filter enumerable (built ms)) with (built ms).
  2:{ symmetry. apply forallb_filter_id. apply forallb_forall.
      rewrite Forall_forall in Henum. exact Henum. }
  replace (existsb (fun p => is_index (name p)) (built ms)) with false.
  2:{ symmetry. apply not_true_is_false. intros Hex.
      apply existsb_exists in Hex. destruct Hex as (p & Hin & Hindex).
      rewrite Forall_forall in Hcopy.
      destruct (Hcopy (name p) (in_map name _ _ Hin)) as [Hi _]. congruence. }
  unfold ret at 1. unfold ret at 1. unfold bind at 1.
  replace (List.length (h ++ [{| properties := built ms;
                                 prototype := Some Object_prototype |}]))
    with (S (List.length h)) by (rewrite length_app; simpl; lia).
  rewrite (forEach_copy (built ms) (built ms) [] h); try assumption.
  - reflexivity.
  - apply incl_refl.
Qed.

(** *** The round trip of a rectangle *)

(** [new Rectangle(width, height)] on any heap. *)
Lemma Rectangle_anywhere (width height : value) (heap0 : heap) :
  Rectangle width height heap0 =
  Some (List.length heap0,
        heap0 ++ [rectangle_object width height (List.length heap0)]).
Proof.
  unfold Rectangle, bind, alloc.
  repeat (rewrite Put_end by reflexivity; cbv beta iota).
  reflexivity.
Qed.

Lemma finite_is_double (x : number) : finite x = true -> is_double x = true.
Proof. destruct x; try discriminate; trivial. Qed.

(** The fields of a rectangle are in the fragment, and [getArea] is left
    out, on a heap where functions inherit no callable [toJSON]. *)
Lemma rectangle_written (w h : number) (this : loc) (heap1 : heap) :
  is_double w = true -> is_double h = true ->
  JSON.toJSON_of (Function (GetAreaArrow this)) heap1 = Some (None, heap1) ->
  Forall (fun p => portable p = true \/ left_out heap1 p)
    (filter enumerable
       (properties (rectangle_object (Number w) (Number h) this))).
Proof.
  intros Hw Hh Ht. cbn [rectangle_object properties filter data enumerable].
  apply Forall_cons; [|apply Forall_cons; [|apply Forall_cons; [|constructor]]].
  - left. unfold portable. cbn [name contents data]. now rewrite Hw.
  - left. unfold portable. cbn [name contents data]. now rewrite Hh.
  - right. repeat split. exact Ht.
Qed.

Lemma round_trip_spec (w h : number) :
  finite w = true -> finite h = true ->
  round_trip (Number w) (Number h) initial_heap =
  Some ((2%nat, 4%nat),
        initial_heap ++
        [rectangle_object (Number w) (Number h) 2%nat;
         plain_object (Number (positive_zero w)) (Number (positive_zero h))
           Object_prototype;
         plain_object (Number (positive_zero w)) (Number (positive_zero h))
           Rectangle_prototype]).
Proof.
  intros Hw Hh.
  pose proof (finite_is_double w Hw) as Hw'.
  pose proof (finite_is_double h Hh) as Hh'.
  set (rectangle := rectangle_object (Number w) (Number h) 2%nat).
  assert (Hwritten : Forall (fun p => portable p = true \/
                                      left_out (initial_heap ++ [rectangle]) p)
                       (filter enumerable (properties rectangle)))
    by (now apply rectangle_written).
  assert (Hkept : kept rectangle =
                  [data "width" (Number w); data "height" (Number h)])
    by reflexivity.
  assert (Hportable : Forall (fun p => portable p = true) (kept rectangle)).
  { rewrite Hkept. repeat constructor; unfold portable; cbn [name contents data].
    - now rewrite Hw'.
    - now rewrite Hh'. }
  unfold round_trip, bind at 1. rewrite Rectangle_anywhere.
  change (List.length initial_heap) with 2%nat. fold rectangle.
  cbv beta iota. unfold bind at 1.
  rewrite (getJSON_object (initial_heap ++ [rectangle]) 2%nat rectangle
             eq_refl eq_refl Hwritten).
  cbv beta iota. unfold bind at 1.
  rewrite (fromJSON_members (Object Rectangle_prototype) Rectangle_prototype
             _ (map entry (kept rectangle))).
  - rewrite Hkept. unfold ret, built. cbn [map entry fold_left fst snd data
      name contents put]. rewrite !read_back_finite by assumption.
    rewrite <- app_assoc. reflexivity.
  - now apply parse_object_text.
  - rewrite Hkept. repeat constructor.
  - reflexivity.
Qed.

(** C8, as stated, fails.  At [new Rectangle(10, 20)] the decoded object
    has [width] and [height] as own fields and no own [getArea], but the
    given prototype [Rectangle.prototype] has no [getArea] either, since
    the constructor puts the method on each instance: [getArea] is
    [undefined] on the decoded object and calling it does not return
    [width * height].  At [new Rectangle(NaN, 20)], whose width is numeric
    too, the decoded [width] is [null] and not the [NaN] of the
    rectangle, as [JSON.stringify] writes [null] for a number that is not
    finite. *)
Lemma decoded_rectangle_differs :
  match round_trip (Number (of_Z 10)) (Number (of_Z 20)) initial_heap with
  | Some ((r, o), heap') =>
      own heap' o "width" = Some (Number (of_Z 10)) /\
      own heap' o "height" = Some (Number (of_Z 20)) /\
      own heap' o "getArea" = None /\
      own heap' Rectangle_prototype "getArea" = None /\
      Get o "getArea" heap' = Some (Undefined, heap') /\
      invoke r "getArea" heap' = Some (Number (of_Z 200), heap') /\
      invoke o "getArea" heap' <> Some (Number (of_Z 200), heap')
  | None => False
  end /\
  match round_trip (Number NaN) (Number (of_Z 20)) initial_heap with
  | Some ((r, o), heap') =>
      own heap' r "width" = Some (Number NaN) /\
      own heap' o "width" = Some Null
  | None => False
  end.
Proof. vm_compute. repeat split. discriminate. Qed.

(** C8, amended: for every rectangle [r] constructed with finite numbers
    as [width] and [height], decoding [getJSON(r)] via [fromJSON] with
    [Rectangle.prototype] returns an object whose prototype is the given
    one and whose own fields are exactly [width] and [height], equal
    ([===]) to those of [r]; [getArea] is not an own field of the result,
    and it is not inherited either, because [Rectangle] defines it on each
    instance and not on the prototype: on the decoded object [getArea] is
    [undefined] and calling it throws, while [r.getArea()] returns
    [width * height]. *)
Theorem rectangle_round_trip (w h : number) :
  finite w = true ->
  finite h = true ->
  exists (r o : loc) (heap' : heap) (w' h' : number),
    round_trip (Number w) (Number h) initial_heap = Some ((r, o), heap') /\
    own heap' r "width" = Some (Number w) /\
    own heap' r "height" = Some (Number h) /\
    own heap' o "width" = Some (Number w') /\
    Number_equal w' w = true /\
    own heap' o "height" = Some (Number h') /\
    Number_equal h' h = true /\
    Object_keys (Object o) heap' = Some (["width"; "height"], heap') /\
    option_map prototype (nth_error heap' o) = Some (Some Rectangle_prototype) /\
    own heap' o "getArea" = None /\
    own heap' Rectangle_prototype "getArea" = None /\
    Get o "getArea" heap' = Some (Undefined, heap') /\
    invoke o "getArea" heap' = None /\
    invoke r "getArea" heap' = Some (Number (Number_multiply w h), heap').
Proof.
  intros Hw Hh.
  exists 2%nat, 4%nat,
    (initial_heap ++
     [rectangle_object (Number w) (Number h) 2%nat;
      plain_object (Number (positive_zero w)) (Number (positive_zero h))
        Object_prototype;
      plain_object (Number (positive_zero w)) (Number (positive_zero h))
        Rectangle_prototype]),
    (positive_zero w), (positive_zero h).
  split; [exact (round_trip_spec w h Hw Hh)|].
  do 3 (split; [reflexivity|]).
  split; [now apply Number_equal_positive_zero|].
  split; [reflexivity|].
  split; [now apply Number_equal_positive_zero|].
  repeat (split; [reflexivity|]). reflexivity.
Qed.

Lemma rectangle_round_trip_witness :
  finite (of_Z 10) = true /\
  finite (of_Z 20) = true /\
  exists (r o : loc) (heap' : heap),
    round_trip (Number (of_Z 10)) (Number (of_Z 20)) initial_heap =
      Some ((r, o), heap') /\
    own heap' o "width" = Some (Number (of_Z 10)) /\
    own heap' o "height" = Some (Number (of_Z 20)) /\
    Get o "getArea" heap' = Some (Undefined, heap') /\
    invoke r "getArea" heap' = Some (Number (of_Z 200), heap').
Proof.
  split; [reflexivity|]. split; [reflexivity|].
  destruct (rectangle_round_trip (of_Z 10) (of_Z 20) eq_refl eq_refl)
    as (r & o & heap' & w' & h' & Hrun & Hrw & Hrh & Hw & Hwe & Hh & Hhe & _ &
        _ & _ & _ & Hget & _ & Harea).
  exists r, o, heap'.
  split; [exact Hrun|].
  vm_compute in Hrun. injection Hrun as <- <- <-.
  vm_compute in Hw. injection Hw as <-. vm_compute in Hh. injection Hh as <-.
  repeat split; try reflexivity; assumption.
Defined.

End RectangleJSON.

(** * Properties beyond the claims *)

(** ** Selectors *)

Lemma append_empty (s1 s2 : string) :
  (s1 ++ s2)%string = "" <-> s1 = "" /\ s2 = "".
Proof.
  split.
  - destruct s1; simpl; [auto | discriminate].
  - intros [-> ->]. reflexivity.
Qed.

Lemma rendered_part_empty (prefix : string) (x : nullable) :
  rendered_part prefix x = "" <-> truthy x = false.
Proof.
  unfold rendered_part. destruct x as [s|]; simpl.
  - destruct (String.eqb_spec s ""); simpl.
    + split; reflexivity.
    + split; [|discriminate]. intros H. apply append_empty in H. tauto.
  - split; reflexivity.
Qed.

Lemma concat_map_empty (prefix suffix : string) (l : list string) :
  prefix <> "" ->
  String.concat "" (map (fun x => prefix ++ x ++ suffix) l) = "" <-> l = [].
Proof.
  intros Hp. destruct l as [|x l]; [split; reflexivity|].
  split; [|discriminate]. cbn [map]. rewrite concat_cons.
  intros H. apply append_empty in H. destruct H as [H _].
  apply append_empty in H. tauto.
Qed.

(** X1: [stringify()] returns the empty string exactly when the selector
    has nothing to show: its element, id and pseudo-element are [null] or
    empty strings and it has no class, attribute or pseudo-class. *)
Theorem stringify_empty_iff (this : CssSelector.t) :
  CssSelector.stringify this = "" <->
  truthy (Config.element (CssSelector.config this)) = false /\
  truthy (Config.id (CssSelector.config this)) = false /\
  Config.class (CssSelector.config this) = [] /\
  Config.attr (CssSelector.config this) = [] /\
  Config.pseudoClass (CssSelector.config this) = [] /\
  truthy (Config.pseudoElement (CssSelector.config this)) = false.
Proof.
  rewrite stringify_by_parts. cbn zeta.
  rewrite !append_empty, !rendered_part_empty.
  rewrite !concat_map_empty by discriminate. tauto.
Qed.

Lemma key_eqb_eq (a b : key) : key_eqb a b = true <-> a = b.
Proof. destruct a, b; simpl; split; congruence. Qed.

Lemma key_eqb_refl (a : key) : key_eqb a a = true.
Proof. destruct a; reflexivity. Qed.

Lemma singular_part_store_same (k : key) (v : string) (cfg : Config.t) :
  singular_part k (store k v cfg) = if is_array_key k then None else Some v.
Proof. destruct k; reflexivity. Qed.

(** When a chain of calls runs to its end on a selector. *)
Lemma chain_runs_iff (calls : list (key * string)) :
  forall this : CssSelector.t,
    (exists this', CssSelector.chain calls this = (Normal tt, this')) <->
    nondecreasing (CssSelector.currentOrder this) calls /\
    (forall call, In call calls ->
       truthy (singular_part (fst call) (CssSelector.config this)) = false) /\
    no_call_after_value calls.
Proof.
  induction calls as [|[k v] rest IH]; intros this.
  - split.
    + intros _. split; [exact I|]. split; [intros ? []|].
      intros l1 c l2 H. destruct l1; discriminate.
    + intros _. exists this. reflexivity.
  - cbn [CssSelector.chain]. unfold CssSelector.bind. rewrite call_spec.
    unfold uniqueness_check_fails, ordering_check_fails.
    set (this1 := {| CssSelector.config := store k v (CssSelector.config this);
                     CssSelector.currentOrder := order_of k |}).
    specialize (IH this1). subst this1.
    cbn [CssSelector.currentOrder CssSelector.config] in IH.
    assert (Hother : forall call : key * string, fst call <> k ->
              singular_part (fst call) (store k v (CssSelector.config this)) =
              singular_part (fst call) (CssSelector.config this)).
    { intros call Hne. apply store_other.
      destruct (key_eqb k (fst call)) eqn:E; [|reflexivity].
      apply key_eqb_eq in E. congruence. }
    split.
    + intros [this' Hrun].
      destruct (truthy (singular_part k (CssSelector.config this))) eqn:Hu;
        [discriminate|].
      destruct (Z.ltb_spec (order_of k) (CssSelector.currentOrder this));
        [discriminate|].
      destruct (proj1 IH (ex_intro _ this' Hrun)) as (Hsorted & Hfree & Hnever).
      split; [split; assumption|]. split.
      * intros call [<- | Hin]; [exact Hu|].
        destruct (key_eqb k (fst call)) eqn:E.
        -- apply key_eqb_eq in E. rewrite <- E. exact Hu.
        -- rewrite <- (Hother call); [exact (Hfree call Hin)|].
           intros Hk. rewrite Hk, key_eqb_refl in E. discriminate.
      * intros l1 c l2 Heq Hsing Hval.
        destruct l1 as [|c1 l1]; cbn [app] in Heq; inversion Heq; subst.
        -- cbn [fst snd] in *. intros Hin. apply in_map_iff in Hin.
           destruct Hin as ([k' v'] & Hk & Hin). cbn [fst] in Hk. subst k'.
           pose proof (Hfree (k, v') Hin) as Hf. cbn [fst] in Hf.
           rewrite singular_part_store_same, Hsing in Hf.
           apply truthy_Some in Hval. congruence.
        -- exact (Hnever l1 c l2 eq_refl Hsing Hval).
    + intros ([Hlo Hsorted] & Hfree & Hnever).
      pose proof (Hfree (k, v) (or_introl eq_refl)) as Hu. cbn [fst] in Hu.
      rewrite Hu.
      destruct (Z.ltb_spec (order_of k) (CssSelector.currentOrder this)); [lia|].
      apply (proj2 IH). split; [exact Hsorted|]. split.
      * intros call Hin.
        destruct (key_eqb k (fst call)) eqn:E.
        -- apply key_eqb_eq in E. rewrite <- E, singular_part_store_same.
           destruct (is_array_key k) eqn:Harr; [reflexivity|].
           destruct (String.eqb_spec v "") as [-> | Hv]; [reflexivity|].
           exfalso. apply (Hnever [] (k, v) rest eq_refl Harr Hv).
           apply in_map_iff. exists call. split; [now symmetry | exact Hin].
        -- rewrite Hother; [exact (Hfree call (or_intror Hin))|].
           intros Hk. rewrite Hk, key_eqb_refl in E. discriminate.
      * intros l1 c l2 Heq. apply (Hnever ((k, v) :: l1) c l2).
        rewrite Heq. reflexivity.
Qed.

(** A creation call is the part method on the empty selector. *)
Lemma create_is_first_call (k0 : key) (v0 : string) :
  CssSelector.call k0 v0 (CssSelector.constructor [] 0) =
  (Normal tt, cssSelectorBuilder.create k0 v0).
Proof. destruct k0; reflexivity. Qed.

(** X2: a facade creation call followed by a chain of part-method calls
    runs to its end exactly when the ranks of the calls never decrease and
    no singular kind ([element], [id], [pseudoElement]) is called again
    after a call that gave it a non-empty value. *)
Theorem built_iff (k0 : key) (v0 : string) (rest : list (key * string)) :
  (exists this,
      CssSelector.chain rest (cssSelectorBuilder.create k0 v0) = (Normal tt, this)) <->
  nondecreasing 0 ((k0, v0) :: rest) /\ no_call_after_value ((k0, v0) :: rest).
Proof.
  pose proof (chain_runs_iff ((k0, v0) :: rest) (CssSelector.constructor [] 0)) as H.
  cbn [CssSelector.chain] in H. unfold CssSelector.bind in H.
  rewrite create_is_first_call in H. rewrite H.
  cbn [CssSelector.currentOrder CssSelector.constructor].
  split.
  - intros (Hs & _ & Hn). split; assumption.
  - intros (Hs & Hn). split; [exact Hs|]. split; [|exact Hn].
    intros [k v] _. destruct k; reflexivity.
Qed.

(** [currentOrder] never decreases along calls that succeed. *)
Lemma chain_currentOrder_mono (calls : list (key * string)) :
  forall this this' : CssSelector.t,
    CssSelector.chain calls this = (Normal tt, this') ->
    CssSelector.currentOrder this <= CssSelector.currentOrder this'.
Proof.
  induction calls as [|[k v] rest IH]; intros this this' Hrun.
  - simpl in Hrun. inversion Hrun. lia.
  - simpl in Hrun. unfold CssSelector.bind in Hrun. rewrite call_spec in Hrun.
    destruct (uniqueness_check_fails k this); [discriminate|].
    unfold ordering_check_fails in Hrun.
    destruct (Z.ltb_spec (order_of k) (CssSelector.currentOrder this));
      [discriminate|].
    apply IH in Hrun. cbn [CssSelector.currentOrder] in Hrun. lia.
Qed.

(** X3: once the last part added has rank [r], a part of lower rank can
    never be added again: after any further chain of successful calls, a
    call of a kind whose rank is below [r] throws and leaves the selector
    as it was. *)
Theorem lower_rank_never_again
    (k : key) (v : string) (calls : list (key * string))
    (this this' : CssSelector.t) :
  order_of k < CssSelector.currentOrder this ->
  CssSelector.chain calls this = (Normal tt, this') ->
  exists message, CssSelector.call k v this' = (Throw message, this').
Proof.
  intros Hlow Hrun. apply chain_currentOrder_mono in Hrun.
  rewrite call_spec. unfold ordering_check_fails.
  destruct (uniqueness_check_fails k this'); [eexists; reflexivity|].
  destruct (Z.ltb_spec (order_of k) (CssSelector.currentOrder this')); [|lia].
  eexists; reflexivity.
Qed.

Lemma lower_rank_never_again_witness :
  order_of Kid < CssSelector.currentOrder (cssSelectorBuilder.class "a") /\
  exists message,
    CssSelector.call Kid "main"
      (snd (CssSelector.chain [(Kclass, "b"); (KpseudoClass, "hover")]
              (cssSelectorBuilder.class "a"))) =
    (Throw message,
     snd (CssSelector.chain [(Kclass, "b"); (KpseudoClass, "hover")]
            (cssSelectorBuilder.class "a"))).
Proof.
  split; [reflexivity|].
  apply (lower_rank_never_again Kid "main" [(Kclass, "b"); (KpseudoClass, "hover")]
           (cssSelectorBuilder.class "a")).
  - reflexivity.
  - reflexivity.
Defined.

Lemma array_part_store_same (k : key) (v : string) (cfg : Config.t) :
  is_array_key k = true ->
  array_part k (store k v cfg) = (array_part k cfg ++ [v])%list.
Proof. destruct k; simpl; intros; try discriminate; reflexivity. Qed.

Lemma array_part_store_other (k k' : key) (v : string) (cfg : Config.t) :
  k' <> k -> array_part k' (store k v cfg) = array_part k' cfg.
Proof. destruct k, k'; simpl; intros; congruence. Qed.

Lemma singular_part_store_array (k k' : key) (v : string) (cfg : Config.t) :
  is_array_key k = true ->
  singular_part k' (store k v cfg) = singular_part k' cfg.
Proof. destruct k, k'; simpl; intros; try discriminate; reflexivity. Qed.

(** X4: [class], [attr] and [pseudoClass] may be called any number of
    times in a row: on a selector whose last part has no higher rank, every
    call of the row succeeds, the values are appended to the stored array
    in call order, and every other part is left as it was. *)
Theorem repeated_array_calls (k : key) (values : list string) :
  forall this : CssSelector.t,
    is_array_key k = true ->
    CssSelector.currentOrder this <= order_of k ->
    exists this',
      CssSelector.chain (map (pair k) values) this = (Normal tt, this') /\
      array_part k (CssSelector.config this') =
        (array_part k (CssSelector.config this) ++ values)%list /\
      (forall k', k' <> k ->
         array_part k' (CssSelector.config this') =
         array_part k' (CssSelector.config this)) /\
      (forall k',
         singular_part k' (CssSelector.config this') =
         singular_part k' (CssSelector.config this)) /\
      (values <> [] -> CssSelector.currentOrder this' = order_of k).
Proof.
  induction values as [|v values IH]; intros this Harr Hle.
  - exists this. cbn [map CssSelector.chain]. rewrite app_nil_r.
    repeat split; try reflexivity. intros H. now contradiction H.
  - cbn [map CssSelector.chain]. unfold CssSelector.bind. rewrite call_spec.
    unfold uniqueness_check_fails, ordering_check_fails.
    replace (singular_part k (CssSelector.config this)) with (@None string)
      by (destruct k; try discriminate; reflexivity).
    cbn [truthy].
    destruct (Z.ltb_spec (order_of k) (CssSelector.currentOrder this)); [lia|].
    destruct (IH {| CssSelector.config := store k v (CssSelector.config this);
                    CssSelector.currentOrder := order_of k |} Harr)
      as (this' & Hrun & Hk & Hother & Hsing & Hcur).
    { cbn [CssSelector.currentOrder]. lia. }
    cbn [CssSelector.config CssSelector.currentOrder] in *.
    exists this'. split; [exact Hrun|]. split; [|split; [|split]].
    + rewrite Hk, array_part_store_same by exact Harr.
      rewrite <- app_assoc. reflexivity.
    + intros k' Hne. rewrite (Hother k' Hne). now apply array_part_store_other.
    + intros k'. rewrite Hsing. now apply singular_part_store_array.
    + intros _. destruct values as [|v' values].
      * cbn [map CssSelector.chain] in Hrun. inversion Hrun. reflexivity.
      * apply Hcur. discriminate.
Qed.

Lemma repeated_array_calls_witness :
  is_array_key Kclass = true /\
  CssSelector.currentOrder (cssSelectorBuilder.id "main") <= order_of Kclass /\
  exists this',
    CssSelector.chain (map (pair Kclass) ["container"; "editable"])
      (cssSelectorBuilder.id "main") = (Normal tt, this') /\
    array_part Kclass (CssSelector.config this') = ["container"; "editable"].
Proof.
  split; [reflexivity|]. split; [simpl; lia|].
  destruct (repeated_array_calls Kclass ["container"; "editable"]
              (cssSelectorBuilder.id "main") eq_refl)
    as (this' & Hrun & Hk & _).
  - simpl. lia.
  - exists this'. split; [exact Hrun | exact Hk].
Defined.

(** X5: a pseudo-element given as a non-empty string closes the selector:
    on the selector a facade [pseudoElement(s)] call creates, and on the
    selector after a successful [pseudoElement(s)] call, every part method
    throws and leaves the selector as it was. *)
Theorem closed_after_pseudoElement
    (s : string) (this : CssSelector.t) (k : key) (v : string) :
  s <> "" ->
  this = cssSelectorBuilder.pseudoElement s \/
  (exists this0, CssSelector.pseudoElement s this0 = (Normal tt, this)) ->
  exists message, CssSelector.call k v this = (Throw message, this).
Proof.
  intros Hs Hbuilt.
  assert (Hstate : singular_part KpseudoElement (CssSelector.config this) = Some s /\
                   CssSelector.currentOrder this = 5).
  { destruct Hbuilt as [-> | [this0 Hcall]]; [split; reflexivity|].
    change (CssSelector.pseudoElement s this0)
      with (CssSelector.call KpseudoElement s this0) in Hcall.
    rewrite call_spec in Hcall.
    destruct (uniqueness_check_fails KpseudoElement this0); [discriminate|].
    destruct (ordering_check_fails KpseudoElement this0); [discriminate|].
    inversion Hcall. split; reflexivity. }
  destruct Hstate as [Hpart Hcur].
  rewrite call_spec. unfold uniqueness_check_fails, ordering_check_fails.
  destruct (truthy (singular_part k (CssSelector.config this))) eqn:Hu;
    [eexists; reflexivity|].
  rewrite Hcur.
  destruct k; cbn [order_of Z.ltb Z.compare Pos.compare Pos.compare_cont];
    try (eexists; reflexivity).
  rewrite Hpart in Hu. apply truthy_Some in Hs. congruence.
Qed.

Lemma closed_after_pseudoElement_witness :
  "after" <> "" /\
  exists message,
    CssSelector.call Kclass "c"
      (snd (CssSelector.pseudoElement "after" (cssSelectorBuilder.element "p"))) =
    (Throw message,
     snd (CssSelector.pseudoElement "after" (cssSelectorBuilder.element "p"))).
Proof.
  split; [discriminate|].
  apply (closed_after_pseudoElement "after").
  - discriminate.
  - right. exists (cssSelectorBuilder.element "p"). reflexivity.
Defined.

Lemma chain_app (l1 l2 : list (key * string)) :
  forall this this1 : CssSelector.t,
    CssSelector.chain l1 this = (Normal tt, this1) ->
    CssSelector.chain (l1 ++ l2) this = CssSelector.chain l2 this1.
Proof.
  induction l1 as [|[k v] l1 IH]; intros this this1 Hrun.
  - simpl in Hrun. inversion Hrun. reflexivity.
  - cbn [app CssSelector.chain] in *. unfold CssSelector.bind in *.
    destruct (CssSelector.call k v this) as [[[]|m] this0]; [|discriminate].
    exact (IH _ _ Hrun).
Qed.

(** A built selector renders what its calls emit, in call order. *)
Lemma built_renders_calls
    (k0 : key) (v0 : string) (rest : list (key * string)) (this : CssSelector.t) :
  CssSelector.chain rest (cssSelectorBuilder.create k0 v0) = (Normal tt, this) ->
  CssSelector.stringify this = String.concat "" (map emitted ((k0, v0) :: rest)).
Proof.
  intros Hrun.
  assert (Hsorted : nondecreasing 0 ((k0, v0) :: rest)).
  { split; [destruct k0; simpl; lia|].
    rewrite <- (create_currentOrder k0 v0). exact (chain_nondecreasing _ _ _ Hrun). }
  rewrite <- (by_rank_nondecreasing _ 0 Hsorted) at 1.
  rewrite stringify_by_parts. cbn zeta.
  change (part_string Kelement (CssSelector.config this) ++
          part_string Kid (CssSelector.config this) ++
          part_string Kclass (CssSelector.config this) ++
          part_string Kattr (CssSelector.config this) ++
          part_string KpseudoClass (CssSelector.config this) ++
          part_string KpseudoElement (CssSelector.config this) =
          String.concat "" (map emitted (by_rank ((k0, v0) :: rest))))%string.
  assert (Hpart : forall k, part_string k (CssSelector.config this) =
                    String.concat "" (map emitted (parts_of k ((k0, v0) :: rest)))).
  { intros k. rewrite (chain_part_string _ _ _ k Hrun), create_part_string.
    change ((k0, v0) :: rest) with ([(k0, v0)] ++ rest)%list.
    unfold parts_of. rewrite filter_app, map_app, concat_app. reflexivity. }
  unfold by_rank. rewrite !map_app, !concat_app, !Hpart. reflexivity.
Qed.

(** X6: rendering is incremental: on a selector built by the facade and a
    chain of successful calls, one more successful call appends to the
    rendered string exactly what that call emits (its value with its
    punctuation, or nothing for an empty element, id or pseudo-element). *)
Theorem successful_call_appends
    (k0 : key) (v0 : string) (rest : list (key * string))
    (k : key) (v : string) (this this' : CssSelector.t) :
  CssSelector.chain rest (cssSelectorBuilder.create k0 v0) = (Normal tt, this) ->
  CssSelector.call k v this = (Normal tt, this') ->
  CssSelector.stringify this' =
  (CssSelector.stringify this ++ emitted (k, v))%string.
Proof.
  intros Hrun Hcall.
  assert (Hrun' : CssSelector.chain (rest ++ [(k, v)])
                    (cssSelectorBuilder.create k0 v0) = (Normal tt, this')).
  { rewrite (chain_app _ _ _ _ Hrun). cbn [CssSelector.chain].
    unfold CssSelector.bind. rewrite Hcall. reflexivity. }
  rewrite (built_renders_calls _ _ _ _ Hrun), (built_renders_calls _ _ _ _ Hrun').
  change ((k0, v0) :: rest ++ [(k, v)])%list
    with (((k0, v0) :: rest) ++ [(k, v)])%list.
  rewrite map_app, concat_app. reflexivity.
Qed.

Lemma successful_call_appends_witness :
  let this := snd (CssSelector.id "main" (cssSelectorBuilder.element "div")) in
  CssSelector.stringify (snd (CssSelector.call Kclass "box" this)) =
  (CssSelector.stringify this ++ ".box")%string.
Proof.
  exact (successful_call_appends Kelement "div" [(Kid, "main")] Kclass "box"
           _ _ eq_refl eq_refl).
Defined.

(** ** Nested combinations *)

Lemma facade_eta (this : cssSelectorBuilder.t) :
  cssSelectorBuilder.res this = [] -> this = cssSelectorBuilder.initial.
Proof. destruct this as [res]. simpl. now intros ->. Qed.

Lemma concat_singleton (x : string) : String.concat "" [x] = x.
Proof. reflexivity. Qed.

(** An expression that holds at least one [combine] leaves exactly its
    rendering pending on a facade that held nothing. *)
Lemma evaluate_pending (e : combination_tree) (this : cssSelectorBuilder.t) :
  cssSelectorBuilder.res this = [] ->
  evaluate e this =
  match e with
  | Plain s => (cssSelectorBuilder.Instance s, this)
  | _ => (cssSelectorBuilder.This, {| cssSelectorBuilder.res := [joined e] |})
  end.
Proof.
  intros Hres. induction e as [s | e IH c s | s c e IH]; [reflexivity | |].
  - cbn [evaluate]. rewrite IH. destruct e as [s0 | e0 c0 s0 | s0 c0 e0].
    + rewrite combine_instances, Hres. unfold combination. reflexivity.
    + rewrite combine_spec. cbn [cssSelectorBuilder.stringify_of].
      rewrite facade_stringify_spec.
      cbn [cssSelectorBuilder.res cssSelectorBuilder.initial rev app].
      rewrite concat_singleton. reflexivity.
    + rewrite combine_spec. cbn [cssSelectorBuilder.stringify_of].
      rewrite facade_stringify_spec.
      cbn [cssSelectorBuilder.res cssSelectorBuilder.initial rev app].
      rewrite concat_singleton. reflexivity.
  - cbn [evaluate]. rewrite IH. destruct e as [s0 | e0 c0 s0 | s0 c0 e0].
    + rewrite combine_instances, Hres. unfold combination. reflexivity.
    + rewrite combine_spec. cbn [cssSelectorBuilder.stringify_of].
      rewrite facade_stringify_spec.
      cbn [cssSelectorBuilder.res cssSelectorBuilder.initial rev app].
      rewrite concat_singleton. reflexivity.
    + rewrite combine_spec. cbn [cssSelectorBuilder.stringify_of].
      rewrite facade_stringify_spec.
      cbn [cssSelectorBuilder.res cssSelectorBuilder.initial rev app].
      rewrite concat_singleton. reflexivity.
Qed.

(** X7: nested combinations work as long as every [combine] has at most
    one operand that is itself a combination.  Such an expression, nested
    to the left or to the right to any depth (the source's documented
    example is one), evaluated on a facade with nothing pending, renders to
    its selectors joined by their combinators in source order, and leaves
    nothing pending. *)
Theorem nested_combination_renders
    (e : combination_tree) (this : cssSelectorBuilder.t) :
  cssSelectorBuilder.res this = [] ->
  (let '(r, this') := evaluate e this in
   cssSelectorBuilder.stringify_of r this') =
  (joined e, cssSelectorBuilder.initial).
Proof.
  intros Hres. rewrite (evaluate_pending e this Hres).
  destruct e as [s | e c s | s c e].
  - cbn [cssSelectorBuilder.stringify_of joined].
    rewrite (facade_eta this Hres). reflexivity.
  - cbn [cssSelectorBuilder.stringify_of]. rewrite facade_stringify_spec.
    cbn [cssSelectorBuilder.res rev app]. now rewrite concat_singleton.
  - cbn [cssSelectorBuilder.stringify_of]. rewrite facade_stringify_spec.
    cbn [cssSelectorBuilder.res rev app]. now rewrite concat_singleton.
Qed.

Lemma nested_combination_renders_witness :
  cssSelectorBuilder.res cssSelectorBuilder.initial = [] /\
  fst (let '(r, this') :=
         evaluate
           (Nested_right (cssSelectorBuilder.element "ul") ">"
              (Nested_left
                 (Nested_right (cssSelectorBuilder.element "li") "+"
                    (Plain (cssSelectorBuilder.class "b")))
                 "~" (cssSelectorBuilder.id "c")))
           cssSelectorBuilder.initial in
       cssSelectorBuilder.stringify_of r this') =
  "ul > li + .b ~ #c".
Proof.
  split; [reflexivity|].
  exact (f_equal fst
           (nested_combination_renders
              (Nested_right (cssSelectorBuilder.element "ul") ">"
                 (Nested_left
                    (Nested_right (cssSelectorBuilder.element "li") "+"
                       (Plain (cssSelectorBuilder.class "b")))
                    "~" (cssSelectorBuilder.id "c")))
              cssSelectorBuilder.initial eq_refl)).
Defined.

(** X8: when both operands of [combine] are combination results, that is
    the facade itself, the first operand renders everything that is
    pending and the second renders nothing: whatever the facade holds, the
    result renders to the pending strings, last pushed first, followed by
    the combinator between two spaces and nothing after it. *)
Theorem combine_of_two_results (c : string) (this : cssSelectorBuilder.t) :
  (let '(r, this') :=
     cssSelectorBuilder.combine cssSelectorBuilder.This c cssSelectorBuilder.This
       this in
   cssSelectorBuilder.stringify_of r this') =
  ((String.concat "" (rev (cssSelectorBuilder.res this)) ++ " " ++ c ++ " ")%string,
   cssSelectorBuilder.initial).
Proof.
  rewrite combine_spec. cbn [cssSelectorBuilder.stringify_of].
  rewrite !facade_stringify_spec.
  cbn [cssSelectorBuilder.res cssSelectorBuilder.initial rev app
       cssSelectorBuilder.stringify_of].
  rewrite ?facade_stringify_spec. cbn [cssSelectorBuilder.res rev app].
  change (String.concat "" []) with "".
  rewrite ?concat_cons. change (String.concat "" []) with "".
  rewrite ?append_nil_r. reflexivity.
Qed.

(** ** Objects on any heap *)

Section ObjectsAnywhere.

Import JS.
#[local] Open Scope list_scope.

Lemma kept_portable (h : heap) (o : object) :
  Forall (fun p => portable p = true \/ left_out h p)
    (filter enumerable (properties o)) ->
  Forall (fun p => portable p = true) (kept o).
Proof.
  intros Hall. unfold kept. rewrite <- filter_kept.
  rewrite Forall_forall in *. intros p Hin. apply filter_In in Hin.
  destruct Hin as [Hin Hs]. destruct (Hall p Hin) as [Hp | (Hs' & _)];
    [exact Hp | congruence].
Qed.

Lemma portable_copyable (ps : list property) :
  Forall (fun p => portable p = true) ps ->
  Forall copyable (map fst (map entry ps)).
Proof.
  induction 1 as [|p ps Hp _ IH]; [constructor|].
  cbn [map entry fst]. constructor; [|exact IH].
  destruct (portable_spec p Hp) as (_ & Hi & Hproto & _). now split.
Qed.

(** X9: the round trip through JSON on any heap.  Take an object with
    distinct property names and no callable [toJSON], own or inherited,
    each of whose enumerable properties is in the fragment (a plain name
    that is neither an array index nor [__proto__], holding [null], a
    number or a plain string) or is left out by [JSON.stringify] (a value
    [undefined], or a function that inherits no callable [toJSON], under a
    name that is no array index).  Then [getJSON] returns the text of the
    properties of the fragment, and [fromJSON(proto, text)], for [proto]
    an object or a primitive value, returns a new object that has exactly
    those properties, in the same order, each with the value that
    [JSON.parse] reads back ([NaN] and the infinities as [null], a zero
    without its sign, any other value as it is), and whose prototype is
    [proto] ([Object.prototype] when [proto] is a primitive value); no
    existing object is changed. *)
Theorem json_round_trip (h : heap) (l : loc) (o : object) (proto : value)
    (pl : loc) :
  nth_error h l = Some o ->
  NoDup (map name (properties o)) ->
  JSON.toJSON_of (Object l) h = Some (None, h) ->
  Forall (fun p => portable p = true \/ left_out h p)
    (filter enumerable (properties o)) ->
  prototype_from proto h = Some (pl, h) ->
  getJSON (Object l) h = Some (object_text (kept o), h) /\
  fromJSON proto (object_text (kept o)) h =
  Some (S (List.length h),
        h ++ [{| properties := map decoded (kept o);
                 prototype := Some Object_prototype |};
              {| properties := map decoded (kept o);
                 prototype := Some pl |}]).
Proof.
  intros Hl Hnd Ht Hall Hproto.
  pose proof (kept_portable h o Hall) as Hport.
  split; [now apply getJSON_object|].
  rewrite (fromJSON_members proto pl _ (map entry (kept o))).
  - rewrite built_decoded by (now apply NoDup_names_filter). reflexivity.
  - now apply parse_object_text.
  - now apply portable_copyable.
  - exact Hproto.
Qed.

Lemma json_round_trip_witness :
  let rectangle := rectangle_object (Number (of_Z 10)) (Number (of_Z 20)) 2%nat in
  let h := initial_heap ++ [rectangle] in
  getJSON (Object 2%nat) h = Some (rectangle_json "10" "20", h) /\
  fromJSON (Object Rectangle_prototype) (rectangle_json "10" "20") h =
  Some (4%nat,
        h ++ [plain_object (Number (of_Z 10)) (Number (of_Z 20)) Object_prototype;
              plain_object (Number (of_Z 10)) (Number (of_Z 20))
                Rectangle_prototype]).
Proof.
  apply (json_round_trip
           (initial_heap ++
            [rectangle_object (Number (of_Z 10)) (Number (of_Z 20)) 2%nat])
           2%nat
           (rectangle_object (Number (of_Z 10)) (Number (of_Z 20)) 2%nat)
           (Object Rectangle_prototype) Rectangle_prototype).
  - reflexivity.
  - repeat constructor; simpl; intuition discriminate.
  - reflexivity.
  - apply rectangle_written; reflexivity.
  - reflexivity.
Defined.

Ltac get_own :=
  erewrite Get_own;
  [ | reflexivity
    | first [apply nth_error_end | apply nth_error_second]
    | reflexivity ].

(** X10: [getJSON(new Rectangle(w, h))] for finite numbers [w] and [h],
    on any heap on which neither [Rectangle.prototype] nor
    [Object.prototype] gives a callable [toJSON], is the text
    [{"width":w,"height":h}]: the two fields in the order the constructor
    sets them, each number as [String] writes it, and no trace of
    [getArea]. *)
Theorem getJSON_of_rectangle (w h : number) (heap0 : heap) (t0 t1 : value) :
  finite w = true ->
  finite h = true ->
  Get Object_prototype "toJSON" heap0 = Some (t0, heap0) ->
  callable t0 = None ->
  Get Rectangle_prototype "toJSON" heap0 = Some (t1, heap0) ->
  callable t1 = None ->
  exists (tw th : string) (heap' : heap),
    Number_toString w = Some tw /\
    Number_toString h = Some th /\
    bind (Rectangle (Number w) (Number h)) (fun r => getJSON (Object r)) heap0 =
    Some (rectangle_json tw th, heap').
Proof.
  intros Hw Hh Hget0 Ht0 Hget1 Ht1.
  destruct (Number_toString_finite w Hw) as [tw Htw].
  destruct (Number_toString_finite h Hh) as [th Hth].
  exists tw, th. eexists. split; [exact Htw|]. split; [exact Hth|].
  unfold bind at 1. rewrite Rectangle_anywhere.
  set (rectangle := rectangle_object (Number w) (Number h) (List.length heap0)).
  rewrite (getJSON_object (heap0 ++ [rectangle]) (List.length heap0) rectangle).
  - f_equal. f_equal.
    assert (Hwt : value_text (Number w) = tw).
    { unfold value_text. destruct w; try discriminate;
        cbn [JSON.scalar]; now rewrite Htw. }
    assert (Hht : value_text (Number h) = th).
    { unfold value_text. destruct h; try discriminate;
        cbn [JSON.scalar]; now rewrite Hth. }
    change (kept rectangle)
      with [data "width" (Number w); data "height" (Number h)].
    unfold object_text, rectangle_json, member_text.
    cbn [map String.concat name contents data]. rewrite Hwt, Hht.
    repeat (rewrite ?append_assoc; cbn [append]). reflexivity.
  - apply nth_error_end.
  - unfold JSON.toJSON_of, bind.
    rewrite (Get_through (List.length heap0) Rectangle_prototype "toJSON"
               heap0 [rectangle] rectangle t1);
      try reflexivity; try assumption; try discriminate.
    + unfold ret. now rewrite Ht1.
    + apply nth_error_end.
  - apply rectangle_written; try (now apply finite_is_double).
    unfold JSON.toJSON_of, bind.
    rewrite (Get_extend _ _ _ [rectangle] _ Hget0). unfold ret.
    now rewrite Ht0.
Qed.

Lemma getJSON_of_rectangle_witness :
  finite (of_Z 10) = true /\
  finite (of_Z 20) = true /\
  Get Object_prototype "toJSON" initial_heap = Some (Undefined, initial_heap) /\
  Get Rectangle_prototype "toJSON" initial_heap = Some (Undefined, initial_heap) /\
  exists heap',
    bind (Rectangle (Number (of_Z 10)) (Number (of_Z 20)))
      (fun r => getJSON (Object r)) initial_heap =
    Some (rectangle_json "10" "20", heap').
Proof.
  split; [reflexivity|]. split; [reflexivity|].
  split; [reflexivity|]. split; [reflexivity|].
  destruct (getJSON_of_rectangle (of_Z 10) (of_Z 20) initial_heap
              Undefined Undefined eq_refl eq_refl eq_refl eq_refl eq_refl eq_refl)
    as (tw & th & heap' & Htw & Hth & Hrun).
  vm_compute in Htw. injection Htw as <-.
  vm_compute in Hth. injection Hth as <-.
  exists heap'. exact Hrun.
Defined.

(** X11: [getArea] reads the fields when it is called: after
    [r = new Rectangle(w, h); r.width = w'; r.height = h'], for any
    numbers and on any heap, [r.getArea()] returns [w' * h'], the product
    of the current fields (for integers with a safe product that is the
    product of integers, lemma [Number_multiply_of_Z]). *)
Theorem getArea_follows_the_fields (w h w' h' : number) (heap0 : heap) :
  exists heap',
    resized_getArea (Number w) (Number h) (Number w') (Number h') heap0 =
    Some (Number (Number_multiply w' h'), heap').
Proof.
  unfold resized_getArea, invoke, bind.
  rewrite Rectangle_anywhere. cbv beta iota.
  repeat (rewrite Put_end by reflexivity; cbv beta iota).
  cbn [rectangle_object properties prototype put data name String.eqb
       Ascii.eqb Bool.eqb].
  get_own. cbv beta iota. cbn [contents data Call]. unfold bind.
  get_own. cbv beta iota. get_own. cbv beta iota.
  cbn [contents data multiply]. eexists. reflexivity.
Qed.

Lemma getArea_follows_the_fields_witness :
  exists heap',
    resized_getArea (Number (of_Z 10)) (Number (of_Z 20))
      (Number (of_Z 3)) (Number (of_Z 7)) initial_heap =
    Some (Number (of_Z 21), heap').
Proof.
  exact (getArea_follows_the_fields (of_Z 10) (of_Z 20) (of_Z 3) (of_Z 7)
           initial_heap).
Defined.

(** X12: [getArea] is an arrow function created by the constructor, so it
    stays bound to the rectangle it was created for: after
    [r2.getArea = r1.getArea; r1.width = w], for any numbers and on any
    heap, [r2.getArea()] returns [w * h1], the current area of [r1],
    whatever the fields of [r2] are. *)
Theorem getArea_stays_bound (w1 h1 w2 h2 w : number) (heap0 : heap) :
  exists heap',
    borrowed_getArea (Number w1) (Number h1) (Number w2) (Number h2) (Number w)
      heap0 =
    Some (Number (Number_multiply w h1), heap').
Proof.
  unfold borrowed_getArea, invoke, bind.
  rewrite Rectangle_anywhere. cbv beta iota.
  rewrite Rectangle_anywhere. cbv beta iota.
  rewrite <- app_assoc, length_app. cbn [app List.length].
  replace (List.length heap0 + 1)%nat with (S (List.length heap0)) by lia.
  get_own. cbv beta iota. cbn [contents data].
  rewrite Put_second by reflexivity. cbv beta iota.
  rewrite Put_end by reflexivity. cbv beta iota.
  cbn [rectangle_object properties prototype put data name String.eqb
       Ascii.eqb Bool.eqb].
  get_own. cbv beta iota. cbn [contents data Call]. unfold bind.
  get_own. cbv beta iota. get_own. cbv beta iota.
  cbn [contents data multiply]. eexists. reflexivity.
Qed.

Lemma getArea_stays_bound_witness :
  exists heap',
    borrowed_getArea (Number (of_Z 10)) (Number (of_Z 20))
      (Number (of_Z 5)) (Number (of_Z 6)) (Number (of_Z 3)) initial_heap =
    Some (Number (of_Z 60), heap').
Proof.
  exact (getArea_stays_bound (of_Z 10) (of_Z 20) (of_Z 5) (of_Z 6) (of_Z 3)
           initial_heap).
Defined.

(** X13: the object [fromJSON(proto, text)] returns delegates to [proto].
    For [proto] an object and a text of the modelled fragment of JSON (a
    flat object without whitespace, whose values are [null], numbers and
    plain strings) none of whose member names is an array index or
    [__proto__], [fromJSON] leaves every existing object as it was and
    adds two objects, the parsed one and the result; the result has the
    members of the text as its own properties and [proto] as its
    prototype, so a name that the result does not own is looked up on
    [proto]: it has the value it has on [proto]. *)
Theorem fromJSON_delegates
    (lp : loc) (text : string) (ms : list (string * value)) (h : heap) :
  JSON.parse_object text = Some ms ->
  Forall copyable (map fst ms) ->
  exists params result : object,
    fromJSON (Object lp) text h =
      Some (S (List.length h), h ++ [params; result]) /\
    properties result = built ms /\
    prototype result = Some lp /\
    forall (key : string) (v : value),
      own_property key result = None ->
      Get lp key h = Some (v, h) ->
      Get (S (List.length h)) key (h ++ [params; result]) =
      Some (v, h ++ [params; result]).
Proof.
  intros Hparse Hms.
  exists {| properties := built ms; prototype := Some Object_prototype |},
         {| properties := built ms; prototype := Some lp |}.
  split; [now apply (fromJSON_members (Object lp) lp text ms h)|].
  split; [reflexivity|]. split; [reflexivity|].
  intros key v Hown Hget.
  apply (Get_through _ lp key h _ {| properties := built ms;
                                      prototype := Some lp |});
    try assumption; try reflexivity; try discriminate.
  apply nth_error_second.
Qed.

Lemma fromJSON_delegates_witness :
  JSON.parse_object (rectangle_json "10" "20") =
    Some [("width", Number (of_Z 10)); ("height", Number (of_Z 20))] /\
  exists params result : object,
    fromJSON (Object Rectangle_prototype) (rectangle_json "10" "20")
      initial_heap =
      Some (3%nat, initial_heap ++ [params; result]) /\
    Get 3%nat "constructor" (initial_heap ++ [params; result]) =
      Some (Function RectangleFunction, initial_heap ++ [params; result]) /\
    Get 3%nat "toString" (initial_heap ++ [params; result]) =
      Some (Function (Builtin "toString"), initial_heap ++ [params; result]).
Proof.
  split; [reflexivity|].
  destruct (fromJSON_delegates Rectangle_prototype (rectangle_json "10" "20")
              [("width", Number (of_Z 10)); ("height", Number (of_Z 20))]
              initial_heap eq_refl)
    as (params & result & Hrun & Hprops & Hproto & Hdel).
  - repeat constructor.
  - exists params, result. split; [exact Hrun|].
    assert (Hown : forall key,
               key <> "width" -> key <> "height" ->
               own_property key result = None).
    { intros key Hw Hh. unfold own_property. rewrite Hprops.
      change (built [("width", Number (of_Z 10)); ("height", Number (of_Z 20))])
        with [data "width" (Number (of_Z 10)); data "height" (Number (of_Z 20))].
      cbn [find name data].
      destruct (String.eqb_spec "width" key); [congruence|].
      destruct (String.eqb_spec "height" key); [congruence|]. reflexivity. }
    split; apply Hdel; try reflexivity; apply Hown; discriminate.
Defined.

(** X14: [getJSON] writes what a callable [toJSON] returns and not the
    fields of the object: after [r = new Rectangle(w, h);
    r.toJSON = r.getArea], for any numbers and on any heap, [getJSON(r)]
    is the text of the number [w * h], that is [String(w * h)] when the
    product is finite and [null] when it is not. *)
Theorem getJSON_calls_toJSON (w h : number) (heap0 : heap) :
  exists (text : string) (heap' : heap),
    JSON.scalar (Number (Number_multiply w h)) = Some text /\
    area_as_JSON (Number w) (Number h) heap0 = Some (text, heap').
Proof.
  destruct (scalar_double _ (Number_multiply_is_double w h)) as [text Htext].
  exists text. eexists. split; [exact Htext|].
  unfold area_as_JSON, bind.
  rewrite Rectangle_anywhere. cbv beta iota.
  get_own. cbv beta iota. cbn [contents data].
  rewrite Put_end by reflexivity. cbv beta iota.
  cbn [rectangle_object properties prototype put data name String.eqb
       Ascii.eqb Bool.eqb].
  unfold getJSON, JSON.stringify, JSON.toJSON_of, bind.
  get_own. cbv beta iota. cbn [contents callable ret Call]. unfold bind.
  get_own. cbv beta iota. get_own. cbv beta iota.
  cbn [contents data multiply ret JSON.serialize]. rewrite Htext.
  reflexivity.
Qed.

Lemma getJSON_calls_toJSON_witness :
  exists heap',
    area_as_JSON (Number (of_Z 10)) (Number (of_Z 20)) initial_heap =
    Some ("200", heap').
Proof.
  destruct (getJSON_calls_toJSON (of_Z 10) (of_Z 20) initial_heap)
    as (text & heap' & Htext & Hrun).
  vm_compute in Htext. injection Htext as <-.
  exists heap'. exact Hrun.
Defined.

End ObjectsAnywhere.
